(** * neurotools: spike-train generation and analysis

    A shallow embedding of [neurotools.py].  Times, potentials and rates are
    Python floats in the source.  In the first part of the model they are
    exact rationals ([Q]), so that every comparison, truncation and index
    computation of the source can be evaluated; the properties proved of
    that part are properties of the structure of the code: which error is
    raised, what is indexed, counted or assigned.  Where the rounding of
    double arithmetic decides the outcome, the functions are modelled a
    second time, in the module [Rounded], with every arithmetic operation
    rounded.  Physical units ([second], [volt]) are multiplications by one
    and are left out.  Draws from numpy's process-wide random generator are
    read from an explicit source of variates, indexed by the number of draws
    made so far. *)

From Stdlib Require Import String QArith Qabs Qround Qminmax Qpower ZArith List Lia Lqa Bool.
Import ListNotations.

Local Open Scope Q_scope.

(** ** Python outcomes *)

Inductive exn : Type :=
| IndexError
| ValueError
| TypeError
| ZeroDivisionError.

(** The outcome of a call.  [Unmodelled] and [OutOfFuel] are not Python
    outcomes.  [Unmodelled] marks a call that leaves what this model follows:
    a float division by zero produced an IEEE infinity or NaN that the code
    goes on to use as an index or a length, or an array operation is applied
    to operands nested more deeply than the function is written for; what
    numpy does there depends on its version and on the platform.  Nothing is
    proved about such calls.  [OutOfFuel] marks a [while] loop that was still
    running when the iteration bound given to the model was used up. *)
Inductive result (A : Type) : Type :=
| Ok (a : A)
| Raise (e : exn)
| Unmodelled
| OutOfFuel.

Arguments Ok {A} a.
Arguments Raise {A} e.
Arguments Unmodelled {A}.
Arguments OutOfFuel {A}.

Definition rbind {A B} (r : result A) (k : A -> result B) : result B :=
  match r with
  | Ok a => k a
  | Raise e => Raise e
  | Unmodelled => Unmodelled
  | OutOfFuel => OutOfFuel
  end.

Notation "'let*' x ':=' r 'in' k" := (rbind r (fun x => k))
  (at level 10, x pattern, r at level 100, k at level 200).

(** An entry of a float array.  [None] stands for an entry that is not a
    finite number (a division by zero occurred while computing it); the
    model does not say which of inf, -inf or nan numpy holds there. *)
Definition npfloat : Type := option Q.

Definition fdiv (x y : Q) : npfloat :=
  if Qeq_bool y 0 then None else Some (x / y).

Definition flift2 (f : Q -> Q -> npfloat) (x y : npfloat) : npfloat :=
  match x, y with
  | Some a, Some b => f a b
  | _, _ => None
  end.

Definition fadd : npfloat -> npfloat -> npfloat :=
  flift2 (fun a b => Some (a + b)).
Definition fsub : npfloat -> npfloat -> npfloat :=
  flift2 (fun a b => Some (a - b)).
Definition fmul : npfloat -> npfloat -> npfloat :=
  flift2 (fun a b => Some (a * b)).
Definition fdivf : npfloat -> npfloat -> npfloat := flift2 fdiv.

(** ** Python and numpy primitives *)

(** [int(x)] on a float: truncation towards zero. *)
Definition py_int (x : Q) : Z := Z.quot (Qnum x) (Zpos (Qden x)).

Definition Qltb (x y : Q) : bool := negb (Qle_bool y x).

(** [numpy.diff]: consecutive differences, one entry fewer than the input. *)
Fixpoint diff (xs : list Q) : list Q :=
  match xs with
  | x :: (y :: _) as tl => (y - x) :: diff tl
  | _ => []
  end.

(** [numpy.zeros(n)]: a negative length is a [ValueError]. *)
Definition zeros (n : Z) : result (list Q) :=
  if (n <? 0)%Z then Raise ValueError else Ok (repeat 0 (Z.to_nat n)).

(** Position addressed by index [i] in a sequence of length [len]: negative
    indices count from the end, anything else is out of range. *)
Definition np_index (len : nat) (i : Z) : option nat :=
  if ((0 <=? i) && (i <? Z.of_nat len))%Z then Some (Z.to_nat i)
  else if ((- Z.of_nat len <=? i) && (i <? 0))%Z
       then Some (Z.to_nat (Z.of_nat len + i))
       else None.

(** [a[i]] for an integer [i]. *)
Definition getitem (a : list Q) (i : Z) : result Q :=
  match np_index (length a) i with
  | Some k => Ok (nth k a 0)
  | None => Raise IndexError
  end.

(** [a[idx]] for an integer array [idx]. *)
Fixpoint getitems (a : list Q) (idx : list Z) : result (list Q) :=
  match idx with
  | [] => Ok []
  | i :: rest =>
      let* x := getitem a i in
      let* xs := getitems a rest in
      Ok (x :: xs)
  end.

Fixpoint set_nth {A} (k : nat) (v : A) (a : list A) : list A :=
  match a, k with
  | [], _ => []
  | _ :: tl, O => v :: tl
  | x :: tl, S k' => x :: set_nth k' v tl
  end.

(** [a[idx] = v] for an integer array [idx]. *)
Fixpoint setitems (a : list Q) (idx : list Z) (v : Q) : result (list Q) :=
  match idx with
  | [] => Ok a
  | i :: rest =>
      match np_index (length a) i with
      | Some k => setitems (set_nth k v a) rest v
      | None => Raise IndexError
      end
  end.

(** Bound of a slice [a[start:stop]]: negative bounds count from the end and
    every bound is clipped to the sequence. *)
Definition slice_bound (len : nat) (i : Z) : nat :=
  if (i <? 0)%Z then Z.to_nat (Z.max 0 (Z.of_nat len + i))
  else Nat.min (Z.to_nat i) len.

Definition slice {A} (a : list A) (start stop : Z) : list A :=
  let lo := slice_bound (length a) start in
  let hi := slice_bound (length a) stop in
  firstn (hi - lo) (skipn lo a).

(** [numpy.cumsum]. *)
Fixpoint cumsum_from (acc : Q) (xs : list Q) : list Q :=
  match xs with
  | [] => []
  | x :: tl => (acc + x) :: cumsum_from (acc + x) tl
  end.

Definition cumsum (xs : list Q) : list Q :=
  match xs with
  | [] => []
  | x :: tl => x :: cumsum_from x tl
  end.

(** The built-in [max] and [min] of a sequence: empty, a [ValueError]. *)
Definition py_max (xs : list Q) : result Q :=
  match xs with
  | [] => Raise ValueError
  | x :: tl => Ok (fold_left (fun m y => if Qltb m y then y else m) tl x)
  end.

Definition py_min (xs : list Q) : result Q :=
  match xs with
  | [] => Raise ValueError
  | x :: tl => Ok (fold_left (fun m y => if Qltb y m then y else m) tl x)
  end.

(** [numpy.mean] of a float array; the mean of an empty array is nan. *)
Definition fsum (xs : list npfloat) : npfloat :=
  fold_left fadd xs (Some 0).

Definition np_mean (xs : list npfloat) : npfloat :=
  match xs with
  | [] => None
  | _ => fdivf (fsum xs) (Some (inject_Z (Z.of_nat (length xs))))
  end.

(** ** Irregularity measures *)

(** [CV2(spiketrain)]. *)
Definition CV2 (spiketrain : list Q) : npfloat :=
  let isi := diff spiketrain in
  let N := length isi in
  if (N =? 0)%nat then Some 0
  else
    let mi_total :=
      fold_left
        (fun mi_total i =>
           fadd mi_total
                (fdiv (Qabs (nth i isi 0 - nth (i + 1) isi 0))
                      (nth i isi 0 + nth (i + 1) isi 0)))
        (seq 0 (N - 1)) (Some 0) in
    fdivf (fmul mi_total (Some 2)) (Some (inject_Z (Z.of_nat N))).

(** The quantity the specification names: the sum over adjacent ISI pairs of
    [2|a - b| / (a + b)]. *)
Fixpoint CV2_pair_sum (isi : list Q) : Q :=
  match isi with
  | a :: (b :: _) as tl => 2 * Qabs (a - b) / (a + b) + CV2_pair_sum tl
  | _ => 0
  end.

(** A spike train as the data model has it: strictly increasing times. *)
Fixpoint increasing (st : list Q) : Prop :=
  match st with
  | x :: (y :: _) as tl => x < y /\ increasing tl
  | _ => True
  end.

(** Python's two-argument [max] and [min]: the first argument is kept unless
    the second is strictly better. *)
Definition max2 (a b : Q) : Q := if Qltb a b then b else a.
Definition min2 (a b : Q) : Q := if Qltb b a then b else a.

Definition zmax (xs : list Z) : result Z :=
  match xs with
  | [] => Raise ValueError
  | x :: tl => Ok (fold_left Z.max tl x)
  end.

(** [(xs / dt).astype(int)]: the grid index of every time. *)
Definition to_grid (dt : Q) (xs : list Q) : list Z :=
  map (fun t => py_int (t / dt)) xs.

(** ** Binning *)

(** [times_to_bin(spikes, dt, duration)].  [zeros] is handed the float
    [duration/dt] in the branch for an empty train; the numpy this code was
    written for truncates it as [int] does. *)
Definition times_to_bin (spikes : list Q) (dt : Q) (duration : option Q)
  : result (list Q) :=
  match spikes with
  | [] =>
      match duration with
      | None => Ok spikes
      | Some d =>
          if Qeq_bool dt 0 then Unmodelled else zeros (py_int (d / dt))
      end
  | _ :: _ =>
      if Qeq_bool dt 0 then Unmodelled
      else
        let st := to_grid dt spikes in
        let* binlength :=
          match duration with
          | None => let* m := zmax st in Ok (m + 1)%Z
          | Some d => Ok (py_int (d / dt))
          end in
        let* bintimes := zeros binlength in
        match st with
        | [] => Ok bintimes
        | _ :: _ =>
            let st :=
              if (last st 0 >? binlength)%Z
              then filter (fun i => (i <? binlength)%Z) st
              else st in
            setitems bintimes st 1
        end
  end.

(** ** Slope estimators *)

Fixpoint zip_with {A B C} (f : A -> B -> C) (xs : list A) (ys : list B)
  : list C :=
  match xs, ys with
  | x :: xs', y :: ys' => f x y :: zip_with f xs' ys'
  | _, _ => []
  end.

(** The [windows] array of [firing_slope], after [w = max(w, dt)]. *)
Definition firing_slope_windows (spiketrain : list Q) (dt w : Q) : list Q :=
  let w := max2 w dt in
  let intervals := diff spiketrain in
  let intervals := nth 0 spiketrain 0 :: intervals in
  map (fun i => min2 w (i - dt)) intervals.

(** The interval before spike [i]: the time since the previous spike, and
    for the first spike the time since 0. *)
Definition preceding_isi (spiketrain : list Q) (i : nat) : Q :=
  match i with
  | O => nth 0 spiketrain 0
  | S j => nth i spiketrain 0 - nth j spiketrain 0
  end.

(** [firing_slope(mem, spiketrain, dt, w)]. *)
Definition firing_slope (mem spiketrain : list Q) (dt w : Q)
  : result (npfloat * list npfloat) :=
  if (length spiketrain <? 2)%nat then Ok (Some 0, [])
  else
    let windows := firing_slope_windows spiketrain dt w in
    if Qeq_bool dt 0 then Unmodelled
    else
      let st_dt := to_grid dt spiketrain in
      let w_dt := to_grid dt windows in
      let* at_spike := getitems mem st_dt in
      let* at_start := getitems mem (zip_with Z.sub st_dt w_dt) in
      let slopes :=
        zip_with (fun d win => fdiv d win)
                 (zip_with Qminus at_spike at_start) windows in
      Ok (np_mean slopes, slopes).

Section NormalisedSlope.

(** [numpy.exp], which has no rational value: any function will do for
    what is proved about the shape of the results. *)
Variable exp : Q -> Q.

(** [norm_firing_slope(mem, spiketrain, th, tau, dt, w)]. *)
Definition norm_firing_slope (mem spiketrain : list Q) (th tau dt w : Q)
  : result (npfloat * list npfloat) :=
  let w := if Qltb w dt then dt else w in
  if (length spiketrain <? 2)%nat then Ok (Some 0, [])
  else
    let spiketrain := filter (fun t => Qltb w t) spiketrain in
    let* (mslope, slopes) := firing_slope mem spiketrain dt w in
    match spiketrain with
    | [] => Raise IndexError
    | first_spike :: _ =>
        if Qeq_bool dt 0 then Unmodelled
        else
          let first_spike_index := py_int (first_spike / dt) in
          let* reset := getitem mem (first_spike_index + 1)%Z in
          let slope_max := fdiv (th - reset) w in
          let ISIs := diff spiketrain in
          let min_input :=
            map (fun isi =>
                   fdivf (Some (th - reset))
                         (fsub (Some 1) (option_map exp (fdiv (- isi) tau))))
                ISIs in
          let lowstart :=
            zip_with
              (fun mi isi =>
                 fadd (Some reset)
                      (fmul mi
                            (fsub (Some 1)
                                  (option_map exp
                                     (fdiv (- (isi - w)) tau)))))
              min_input ISIs in
          let slope_min :=
            map (fun low => fdivf (fsub (Some th) low) (Some w)) lowstart in
          let slopes_normed :=
            zip_with
              (fun s smin => fdivf (fsub s smin) (fsub slope_max smin))
              (tl slopes) slope_min in
          Ok (np_mean slopes_normed, slopes_normed)
    end.

End NormalisedSlope.

(** ** Spike-triggered average *)

(** [numpy.zeros((rows, cols))]. *)
Definition zeros2 (rows : nat) (cols : Z) : result (list (list Q)) :=
  let* row := zeros cols in Ok (repeat row rows).

(** [wins[i,:] = x]: [x] must have the length of the row, or a single entry,
    which numpy broadcasts over the row. *)
Definition assign_row (wins : list (list Q)) (i : nat) (x : list Q)
  : result (list (list Q)) :=
  let cols := length (nth i wins []) in
  if (length x =? cols)%nat then Ok (set_nth i x wins)
  else if (length x =? 1)%nat then Ok (set_nth i (repeat (hd 0 x) cols) wins)
       else Raise ValueError.

Definition column (j : nat) (m : list (list Q)) : list Q :=
  map (fun row => nth j row 0) m.

Definition qsum (xs : list Q) : Q := fold_left Qplus xs 0.

Definition qmean (xs : list Q) : Q :=
  qsum xs / inject_Z (Z.of_nat (length xs)).

(** The loop of [sta] over [enumerate(spiketrain)], from row [i] on. *)
Fixpoint sta_fill (v : list Q) (dt : Q) (w_d : Z) (spikes : list Q) (i : nat)
         (sta_wins : list (list Q)) : result (list (list Q)) :=
  match spikes with
  | [] => Ok sta_wins
  | st :: rest =>
      let t_d := py_int (st / dt) in
      let* sta_wins :=
        if (w_d <? t_d)%Z
        then
          let w_start := (t_d - w_d)%Z in
          let w_end := t_d in
          assign_row sta_wins i (slice v w_start w_end)
        else
          let* pad := zeros (w_d - t_d) in
          let curwin := pad ++ slice v 0 t_d in
          assign_row sta_wins i curwin in
      sta_fill v dt w_d rest (S i) sta_wins
  end.

(** The row [sta] writes for a spike at grid index [t_d]. *)
Definition sta_window (v : list Q) (w_d t_d : Z) : list Q :=
  if (w_d <? t_d)%Z then slice v (t_d - w_d) t_d
  else repeat 0 (Z.to_nat (w_d - t_d)) ++ slice v 0 t_d.

Section STA.

(** The square root used by [numpy.std]; it has no rational value and is
    kept abstract. *)
Variable sqrt : Q -> Q.

Definition mean_axis0 (cols : nat) (m : list (list Q)) : list Q :=
  map (fun j => qmean (column j m)) (seq 0 cols).

Definition std_axis0 (cols : nat) (m : list (list Q)) : list Q :=
  map (fun j =>
         let c := column j m in
         let mu := qmean c in
         sqrt (qmean (map (fun x => (x - mu) * (x - mu)) c)))
      (seq 0 cols).

(** [sta(v, spiketrain, w, dt)]: [(sta_avg, sta_std, sta_wins)]. *)
Definition sta (v spiketrain : list Q) (w dt : Q)
  : result (list Q * list Q * list (list Q)) :=
  if (length spiketrain <=? 1)%nat then Ok ([], [], [])
  else if Qeq_bool dt 0 then Unmodelled
  else
    let w_d := py_int (w / dt) in
    let* sta_wins := zeros2 (length spiketrain) w_d in
    let* sta_wins := sta_fill v dt w_d spiketrain 0 sta_wins in
    let sta_avg := mean_axis0 (Z.to_nat w_d) sta_wins in
    let sta_std := std_axis0 (Z.to_nat w_d) sta_wins in
    Ok (sta_avg, sta_std, sta_wins).

End STA.

(** ** Random draws and warnings *)

(** What a call may change besides its result: how many variates have been
    drawn from the random generator, and the warnings issued so far. *)
Record world : Type := mkWorld {
  drawn : nat;
  warnings : list string
}.

Definition M (A : Type) : Type := world -> world * result A.

Definition ret {A} (a : A) : M A := fun s => (s, Ok a).

Definition bind {A B} (m : M A) (k : A -> M B) : M B :=
  fun s =>
    match m s with
    | (s', Ok a) => k a s'
    | (s', Raise e) => (s', Raise e)
    | (s', Unmodelled) => (s', Unmodelled)
    | (s', OutOfFuel) => (s', OutOfFuel)
    end.

Definition fail {A} (r : result A) : M A := fun s => (s, r).

Definition warn (msg : string) : M unit :=
  fun s => (mkWorld (drawn s) (warnings s ++ [msg]), Ok tt).

Notation "x <- m ;; k" := (bind m (fun x => k))
  (at level 61, m at next level, right associativity).

(** [for _ in range(count)]: run [body] that many times and collect. *)
Fixpoint replicateM {A} (count : nat) (body : M A) : M (list A) :=
  match count with
  | O => ret []
  | S c =>
      x <- body ;;
      xs <- replicateM c body ;;
      ret (x :: xs)
  end.

(** Ascending sort, as [ndarray.sort] leaves the array. *)
Fixpoint insert_sorted (x : Q) (xs : list Q) : list Q :=
  match xs with
  | [] => [x]
  | y :: tl => if Qle_bool x y then x :: xs else y :: insert_sorted x tl
  end.

Definition sort (xs : list Q) : list Q := fold_right insert_sorted [] xs.

(** [where(xs == m)[0][0]]: the first position holding [m]. *)
Fixpoint first_index (m : Q) (xs : list Q) : nat :=
  match xs with
  | [] => O
  | x :: tl => if Qeq_bool x m then O else S (first_index m tl)
  end.

(** A sequence in ascending order. *)
Fixpoint nondecreasing (xs : list Q) : Prop :=
  match xs with
  | x :: (y :: _) as tl => x <= y /\ nondecreasing tl
  | _ => True
  end.

(** How many intervals are still shorter than [dt]. *)
Definition below (dt : Q) (intervals : list Q) : nat :=
  length (filter (fun x => Qltb x dt) intervals).

(** A train whose consecutive events are at least [dt] apart. *)
Fixpoint spaced (dt : Q) (st : list Q) : Prop :=
  match st with
  | x :: (y :: _) as tl => x + dt <= y /\ spaced dt tl
  | _ => True
  end.

Section Generators.

(** [numpy.random.exponential(scale)] and [numpy.random.normal(loc, scale)]:
    the variate returned by the draw with the given number. *)
Variable exponential : Q -> nat -> Q.
Variable normal : Q -> Q -> nat -> Q.

Definition random_exponential (scale : Q) : M Q :=
  fun s =>
    if Qltb scale 0 then (s, Raise ValueError)
    else (mkWorld (S (drawn s)) (warnings s), Ok (exponential scale (drawn s))).

Definition random_normal (loc scale : Q) : M Q :=
  fun s =>
    if Qltb scale 0 then (s, Raise ValueError)
    else (mkWorld (S (drawn s)) (warnings s), Ok (normal loc scale (drawn s))).

(** [numpy.random.normal(loc, scale, size)]. *)
Definition random_normal_n (loc scale : Q) (size : nat) : M (list Q) :=
  fun s =>
    if Qltb scale 0 then (s, Raise ValueError)
    else (mkWorld (drawn s + size) (warnings s),
          Ok (map (normal loc scale) (seq (drawn s) size))).

(** One interval: [random.exponential(1./rate)], raised to [dt] when
    shorter. *)
Definition new_interval (rate dt : Q) : M Q :=
  if Qeq_bool rate 0 then fail Unmodelled
  else
    newinterval <- random_exponential (1 / rate) ;;
    ret (if Qltb newinterval dt then dt else newinterval).

(** First loop of [poisson_spikes]: [while len(spiketrain) == 0]. *)
Fixpoint poisson_first (fuel : nat) (dura rate dt : Q) (spiketrain : list Q)
  : M (list Q) :=
  match spiketrain with
  | _ :: _ => ret spiketrain
  | [] =>
      match fuel with
      | O => fail OutOfFuel
      | S fuel' =>
          newinterval <- new_interval rate dt ;;
          poisson_first fuel' dura rate dt
            (if Qltb newinterval dura then [newinterval] else spiketrain)
      end
  end.

(** Second loop: [while spiketrain[-1] < dura]. *)
Fixpoint poisson_rest (fuel : nat) (dura rate dt : Q) (spiketrain : list Q)
  : M (list Q) :=
  if Qltb (last spiketrain 0) dura then
    match fuel with
    | O => fail OutOfFuel
    | S fuel' =>
        newinterval <- new_interval rate dt ;;
        poisson_rest fuel' dura rate dt
          (spiketrain ++ [last spiketrain 0 + newinterval])
    end
  else ret spiketrain.

(** [poisson_spikes(dura, rate, dt)]; each loop may run [fuel] times. *)
Definition poisson_spikes (fuel : nat) (dura rate dt : Q) : M (list Q) :=
  spiketrain <- poisson_first fuel dura rate dt [] ;;
  spiketrain <- poisson_rest fuel dura rate dt spiketrain ;;
  ret (removelast spiketrain).

(** The spacing loop of [add_gauss_jitter]:
    [while min(intervals) < dt: intervals[index] += dt]. *)
Fixpoint widen (fuel : nat) (dt : Q) (intervals : list Q) : M (list Q) :=
  match py_min intervals with
  | Ok m =>
      if Qltb m dt then
        match fuel with
        | O => fail OutOfFuel
        | S fuel' =>
            let index := first_index m intervals in
            widen fuel' dt (set_nth index (nth index intervals 0 + dt) intervals)
        end
      else ret intervals
  | Raise e => fail (Raise e)
  | Unmodelled => fail Unmodelled
  | OutOfFuel => fail OutOfFuel
  end.

(** [add_gauss_jitter(spiketrain, jitter, dt)]. *)
Definition add_gauss_jitter (fuel : nat) (spiketrain : list Q) (jitter dt : Q)
  : M (list Q) :=
  if Qeq_bool jitter 0 then ret spiketrain
  else
    noise <- random_normal_n 0 jitter (length spiketrain) ;;
    let jspiketrain := zip_with Qplus spiketrain noise in
    let jspiketrain := sort jspiketrain in
    let intervals := diff jspiketrain in
    intervals <- widen fuel dt intervals ;;
    let jspiketrain := cumsum intervals in
    ret jspiketrain.

(** The guard of [sync_inp] on [s]. *)
Definition in_unit_interval (s : Q) : bool := Qle_bool 0 s && Qle_bool s 1.

(** [range(a, b)] runs [b - a] times, and not at all when [b <= a]. *)
Definition range_count (a b : Z) : nat := Z.to_nat (b - a).

(** [sync_inp(n, rate, s, sigma, dura, dt)]. *)
Definition sync_inp (fuel : nat) (n : Z) (rate s sigma dura dt : Q)
  : M (list (list Q)) :=
  s <- (if negb (in_unit_interval s)
        then _ <- warn "Synchrony should be between 0 and 1. Setting to 1." ;;
             ret 1
        else ret s) ;;
  let n_ident := Qfloor (inject_Z n * s) in
  st_ident <- poisson_spikes fuel dura rate dt ;;
  linked <- replicateM (range_count 0 n_ident)
                       (add_gauss_jitter fuel st_ident sigma dt) ;;
  independent <- replicateM (range_count n_ident n)
                            (poisson_spikes fuel dura rate dt) ;;
  ret (linked ++ independent).

(** *** The unbounded composer *)

(** A generator object made by [sync_inp_gen(n, rate, jitter, dt)]: its
    arguments and the locals [t], [prev_t] and [iter] it keeps between two
    reads. *)
Record generator : Type := mkGenerator {
  gen_n : Z;
  gen_rate : Q;
  gen_jitter : Q;
  gen_dt : Q;
  gen_t : Q;
  gen_prev_t : Q;
  gen_iter : Z
}.

(** Calling [sync_inp_gen] runs none of its body. *)
Definition sync_inp_gen (n : Z) (rate jitter dt : Q) : generator :=
  mkGenerator n rate jitter dt 0 0 n.

(** One read of a generator: the body of [while(True)] up to [yield]. *)
Definition generator_next (g : generator) : M (Q * generator) :=
  st <- (if (gen_iter g =? gen_n g)%Z
         then interval <- new_interval (gen_rate g) (gen_dt g) ;;
              ret (gen_t g + interval, gen_t g, 1%Z)
         else ret (gen_t g, gen_prev_t g, (gen_iter g + 1)%Z)) ;;
  let '(t, prev_t, iter) := st in
  jitt_variate <-
    (if Qltb 0 (gen_jitter g)
     then jitt_variate <- random_normal 0 (gen_jitter g) ;;
          ret (if Qltb (t + jitt_variate) (prev_t + gen_dt g)
               then prev_t + gen_dt g - t
               else jitt_variate)
     else ret 0) ;;
  ret (t + jitt_variate,
       mkGenerator (gen_n g) (gen_rate g) (gen_jitter g) (gen_dt g)
                   t prev_t iter).

(** The list returned by [configure_generators] holds references: the
    generator objects live in [objects] and every entry of [spiketrains]
    is the position of the object it refers to, so that the entries that
    share one object are seen to share it. *)
Record generator_group : Type := mkGroup {
  objects : list generator;
  spiketrains : list nat
}.

(** The second loop of [configure_generators]: each pass makes a generator
    of its own. *)
Fixpoint append_independent (count : nat) (rate dt : Q) (grp : generator_group)
  : generator_group :=
  match count with
  | O => grp
  | S c =>
      append_independent c rate dt
        (mkGroup (objects grp ++ [sync_inp_gen 1 rate 0 dt])
                 (spiketrains grp ++ [length (objects grp)]))
  end.

(** [configure_generators(n, rate, sync, jitter, dt)]. *)
Definition configure_generators (n : Z) (rate sync jitter dt : Q)
  : M generator_group :=
  sync <- (if negb (in_unit_interval sync)
           then _ <- warn "Synchrony should be between 0 and 1. Setting to 0" ;;
                ret 0
           else ret sync) ;;
  let n_ident := Qfloor (inject_Z n * sync) in
  let st_ident := sync_inp_gen n_ident rate jitter dt in
  let grp := mkGroup [st_ident] (repeat O (range_count 0 n_ident)) in
  ret (append_independent (range_count n_ident n) rate dt grp).

(** Reading entry [k] of the list once: the object it refers to advances. *)
Definition read_spike (grp : generator_group) (k : nat)
  : M (Q * generator_group) :=
  match nth_error (spiketrains grp) k with
  | None => fail (Raise IndexError)
  | Some ref =>
      match nth_error (objects grp) ref with
      | None => fail (Raise IndexError)
      | Some g =>
          r <- generator_next g ;;
          let '(spike, g') := r in
          ret (spike, mkGroup (set_nth ref g' (objects grp)) (spiketrains grp))
      end
  end.

End Generators.

(** ** Population binning and PSTH *)

(** A sequence nested [depth] levels deep around its numbers; rows may
    differ in length. *)
Fixpoint nd (depth : nat) : Type :=
  match depth with
  | O => Q
  | S d => list (nd d)
  end.

(** The [spikes] argument of [times_to_bin_multi] and [PSTH], by the Python
    type the two functions test for.  Of a dict only the values are read
    ([itervalues]). *)
Inductive pyobject : Type :=
| PyDict (depth : nat) (values : list (nd depth))
| PyList (depth : nat) (items : list (nd depth))
| PyNdarray (depth : nat) (items : list (nd depth))
| PyOther.

(** [recursiveflat(ndobject)].  At depth 0 the entries are numbers, which is
    the case [shape(ndobject[0]) == ()] (or the sequence is empty) and the
    sequence is returned; deeper, an empty sequence is returned and any
    other is flattened by one level and passed on. *)
Fixpoint recursiveflat (depth : nat) : list (nd depth) -> list Q :=
  match depth with
  | O => fun ndobject => ndobject
  | S d =>
      fun ndobject =>
        match ndobject with
        | [] => []
        | _ :: _ => recursiveflat d (concat ndobject)
        end
  end.

(** A sequence with its nesting depth. *)
Record ndobject : Type := mkNd {
  nd_depth : nat;
  nd_items : list (nd nd_depth)
}.

(** The type tests shared by [times_to_bin_multi] and [PSTH].  [array] is
    numpy's function, not a type: [isinstance(spikes, array)] raises
    [TypeError] itself, for every object that reaches it. *)
Definition container_items (spikes : pyobject) : result ndobject :=
  match spikes with
  | PyDict depth values => Ok (mkNd depth values)
  | PyList depth items => Ok (mkNd depth items)
  | PyNdarray _ _ => Raise TypeError
  | PyOther => Raise TypeError
  end.

(** [times_to_bin(st, dt, duration)] for an entry [st] of a sequence: a
    number has no [len]. *)
Definition times_to_bin_entry (depth : nat)
  : nd depth -> Q -> option Q -> result (list Q) :=
  match depth with
  | O => fun _ _ _ => Raise TypeError
  | S O => fun st dt duration => times_to_bin st dt duration
  | S (S _) => fun _ _ _ => Unmodelled
  end.

Fixpoint map_result {A B} (f : A -> result B) (xs : list A) : result (list B) :=
  match xs with
  | [] => Ok []
  | x :: tl =>
      let* y := f x in
      let* ys := map_result f tl in
      Ok (y :: ys)
  end.

(** [times_to_bin_multi(spikes, dt, duration)]. *)
Definition times_to_bin_multi (spikes : pyobject) (dt : Q) (duration : option Q)
  : result (list (list Q)) :=
  let* spiketimes := container_items spikes in
  let* duration :=
    match duration with
    | None =>
        let* m := py_max (recursiveflat (nd_depth spiketimes)
                                        (nd_items spiketimes)) in
        Ok (m + dt)
    | Some d => Ok d
    end in
  map_result
    (fun st => times_to_bin_entry (nd_depth spiketimes) st dt (Some duration))
    (nd_items spiketimes).

(** [numpy.arange(0, stop, step)]. *)
Definition arange (stop step : Q) : list Q :=
  map (fun i => inject_Z (Z.of_nat i) * step)
      (seq 0 (Z.to_nat (Qceiling (stop / step)))).

(** [count_nonzero(bitwise_and(xs >= lo, xs < hi))]. *)
Definition count_between (lo hi : Q) (xs : list Q) : nat :=
  length (filter (fun x => Qle_bool lo x && Qltb x hi) xs).

(** [PSTH(spikes, bin, dt, duration)]: [(bin times, counts)]. *)
Definition PSTH (spikes : pyobject) (bin dt : Q) (duration : option Q)
  : result (list Q * list Q) :=
  let bin := if Qltb bin dt then dt else bin in
  let* spiketimes := container_items spikes in
  let flatspikes := recursiveflat (nd_depth spiketimes) (nd_items spiketimes) in
  let* duration :=
    match duration with
    | None => let* m := py_max flatspikes in Ok (m + dt)
    | Some d => Ok d
    end in
  if Qeq_bool bin 0 then Unmodelled
  else
    let nbins := py_int (duration / bin) in
    let* psth := zeros nbins in
    let psth :=
      fold_left
        (fun psth b =>
           set_nth b
             (inject_Z (Z.of_nat
                (count_between (inject_Z (Z.of_nat b) * bin)
                               (inject_Z (Z.of_nat b + 1) * bin)
                               flatspikes)))
             psth)
        (seq 0 (Z.to_nat nbins)) psth in
    Ok (arange duration bin, psth).

(** All the numbers of a nested sequence, in order: what flattening every
    level gives. *)
Fixpoint leaves (depth : nat) : nd depth -> list Q :=
  match depth with
  | O => fun x => [x]
  | S d => fun xs => flat_map (leaves d) xs
  end.

(** The inputs on which the duration of a histogram is defined and not
    negative: a duration that is given and not negative, or at least one
    number, none of them negative, to infer it from. *)
Definition duration_defined (flatspikes : list Q) (duration : option Q) : Prop :=
  match duration with
  | Some d => 0 <= d
  | None => flatspikes <> [] /\ Forall (fun t => 0 <= t) flatspikes
  end.

(** ** Further irregularity measures *)

(** [LV(spiketrain)]. *)
Definition LV (spiketrain : list Q) : npfloat :=
  let isi := diff spiketrain in
  let N := length isi in
  if (N =? 0)%nat then Some 0
  else
    let mi_total :=
      fold_left
        (fun mi_total i =>
           fadd mi_total
                (option_map (fun r => r * r)
                   (fdiv (nth i isi 0 - nth (i + 1) isi 0)
                         (nth i isi 0 + nth (i + 1) isi 0))))
        (seq 0 (N - 1)) (Some 0) in
    fdivf (fmul mi_total (Some 3)) (Some (inject_Z (Z.of_nat N))).

(** A sum over the adjacent pairs of a sequence, added to [acc] from the
    left as the loops of the measures do. *)
Fixpoint pair_fold (term : Q -> Q -> Q) (acc : Q) (isi : list Q) : Q :=
  match isi with
  | a :: (b :: _) as tl => pair_fold term (acc + term a b) tl
  | _ => acc
  end.

(** A train all of whose ISIs are [d]. *)
Definition regular (d : Q) (spiketrain : list Q) : Prop :=
  Forall (fun isi => isi == d) (diff spiketrain).

(** How many bins of a bin vector are set. *)
Definition count_ones (bintimes : list Q) : nat :=
  length (filter (fun x => Qeq_bool x 1) bintimes).

(** ** unitrange *)

(** The physical dimension of a brian quantity: the exponents of the base
    units. *)
Definition dimension : Type := list Z.

Definition has_same_dimensions (a b : dimension) : bool :=
  if list_eq_dec Z.eq_dec a b then true else false.

(** An argument of [unitrange]: a brian [Quantity] (a value with its
    dimension) or a plain number. *)
Inductive pyscalar : Type :=
| Plain (x : Q)
| Quantity (value : Q) (dim : dimension).

(** The loop of [unitrange]: [while x < stop: retlist.append(x); x += step]. *)
Fixpoint unitrange_loop (fuel : nat) (x stop step : Q) (retlist : list Q)
  : result (list Q) :=
  if Qltb x stop then
    match fuel with
    | O => OutOfFuel
    | S fuel' => unitrange_loop fuel' (x + step) stop step (retlist ++ [x])
    end
  else Ok retlist.

(** [unitrange(start, stop, step)]. *)
Definition unitrange (fuel : nat) (start stop step : pyscalar)
  : result (list pyscalar) :=
  match start with
  | Plain _ => Raise TypeError
  | Quantity a da =>
      match stop with
      | Plain _ => Raise TypeError
      | Quantity b db =>
          match step with
          | Plain _ => Raise TypeError
          | Quantity c dc =>
              if negb (has_same_dimensions da db)
                 || negb (has_same_dimensions da dc)
                 || negb (has_same_dimensions db dc)
              then Raise TypeError
              else
                let* retlist := unitrange_loop fuel a b c [] in
                Ok (map (fun v => Quantity v da) retlist)
          end
      end
  end.

(** ** npss *)

(** A pure outcome as a step of a computation with draws and warnings. *)
Definition lift_result {A} (r : result A) : M A := fun s => (s, r).

(** [wins[:,-1] = v_th]: there is no last column in a matrix without
    columns. *)
Definition set_last_column (v_th : Q) (wins : list (list Q))
  : result (list (list Q)) :=
  if existsb (fun row => (length row =? 0)%nat) wins then Raise IndexError
  else Ok (map (fun row => removelast row ++ [v_th]) wins).

(** [mean(diff(wins, axis=1), 1)]: for every window the mean of the
    differences of consecutive samples. *)
Definition npss_slopes (wins : list (list Q)) : list npfloat :=
  map (fun row => np_mean (map Some (diff row))) wins.

(** [slopes_norm[slopes_norm < 0] = 0]. *)
Definition clamp_negative (x : npfloat) : npfloat :=
  option_map (fun r => if Qltb r 0 then 0 else r) x.

Section NPSS.

Variable sqrt : Q -> Q.

(** The part of [npss] after its warning and its test of the train. *)
Definition npss_body (v spiketrain : list Q) (v_th w dt : Q)
  : result (npfloat * list npfloat) :=
  let* (m, s, wins) := sta sqrt v spiketrain w dt in
  let* wins := set_last_column v_th wins in
  let wins := tl wins in
  if Qeq_bool dt 0 then Unmodelled
  else
    let w_d := w / dt - 1 in
    let th_d := v_th in
    let slopes := npss_slopes wins in
    let firstspiketime_d := py_int (nth 0 spiketrain 0 / dt) in
    let* v_reset := getitem v (firstspiketime_d + 1)%Z in
    let isis := map (fun d => d / dt) (diff spiketrain) in
    let low_bound := map (fun isi => fdiv (th_d - v_reset) isi) isis in
    let high_bound := fdiv (th_d - v_reset) w_d in
    let slopes_norm :=
      zip_with (fun s low => fdivf (fsub s low) (fsub high_bound low))
               slopes low_bound in
    let slopes_norm := map clamp_negative slopes_norm in
    let mean_slope := np_mean slopes_norm in
    Ok (mean_slope, slopes_norm).

(** [npss(v, spiketrain, v_th, w, dt)]. *)
Definition npss (v spiketrain : list Q) (v_th w dt : Q)
  : M (npfloat * list npfloat) :=
  _ <- warn "Using deprecated function npss()" ;;
  if (length spiketrain <=? 1)%nat then ret (Some 0, [Some 0])
  else lift_result (npss_body v spiketrain v_th w dt).

End NPSS.

(** ** Slope distributions *)

Section SlopeDistributions.

(** [numpy.histogram(values, nbins)], whose result is not looked into. *)
Variable Histogram : Type.
Variable histogram : list Q -> Z -> result Histogram.

(** The part shared by the two distributions:
    [nbins = int((max(dv) - min(dv)) / w); histogram(dv, nbins)]. *)
Definition slope_histogram (dv : list Q) (w : Q) : result Histogram :=
  let* hi := py_max dv in
  let* lo := py_min dv in
  if Qeq_bool w 0 then Unmodelled
  else
    let nbins := py_int ((hi - lo) / w) in
    histogram dv nbins.

(** [slope_distribution(v, w, rem_zero)]. *)
Definition slope_distribution (v : list Q) (w : Q) (rem_zero : bool)
  : result Histogram :=
  let dv := diff v in
  let dv := if rem_zero then filter (fun d => negb (Qeq_bool d 0)) dv else dv in
  slope_histogram dv w.

(** [positive_slope_distribution(v, w)]. *)
Definition positive_slope_distribution (v : list Q) (w : Q)
  : result Histogram :=
  let dv := diff v in
  let dv := filter (fun d => Qltb 0 d) dv in
  slope_histogram dv w.

End SlopeDistributions.

(** * Double-precision arithmetic

    The definitions above compute with exact rationals.  Python computes
    with IEEE 754 doubles: every sum, difference, product and quotient is
    the exact result rounded to the nearest double.  Where that rounding
    decides what a function returns (an index or a length read off a
    quotient, a running sum that is compared with a bound), the function
    is modelled a second time in the module [Rounded] below, with a
    rounding [fl] applied after every arithmetic operation of the source.
    A double is the rational it stands for; infinities and NaN are left
    out, as before. *)

(** ** Rounding to binary64 *)

(** The nearest integer, the even one of two that are equally near. *)
Definition round_half_even (q : Q) : Z :=
  let f := Qfloor q in
  match Qcompare (q - inject_Z f) (1 # 2) with
  | Lt => f
  | Gt => (f + 1)%Z
  | Eq => if Z.even f then f else (f + 1)%Z
  end.

(** The exponent [e] with [2^e <= q < 2^(e+1)], for [q > 0]. *)
Definition binade (q : Q) : Z :=
  let k := (Z.log2 (Qnum q) - Z.log2 (Zpos (Qden q)))%Z in
  if Qle_bool (2 ^ k) q then k else (k - 1)%Z.

(** The distance between the doubles around [q > 0]: 53 significant bits,
    and below [2^-1022] the spacing of the subnormal numbers. *)
Definition ulp (q : Q) : Q := 2 ^ (Z.max (binade q) (-1022) - 52).

Definition round_positive (q : Q) : Q :=
  inject_Z (round_half_even (q / ulp q)) * ulp q.

(** Round to nearest, ties to even: the rounding of every arithmetic
    operation on Python floats, and of a decimal literal ([0.1] is
    [round_binary64 (1 # 10)]).  Results beyond the largest double are not
    turned into infinities. *)
Definition round_binary64 (q : Q) : Q :=
  match Qcompare q 0 with
  | Eq => 0
  | Gt => round_positive q
  | Lt => - round_positive (- q)
  end.

(** What the properties below use of the rounding: it keeps the order, it
    leaves a rounded number as it is, and it leaves 0 as it is. *)
Record rounding (fl : Q -> Q) : Prop := mkRounding {
  fl_monotone : forall x y, x <= y -> fl x <= fl y;
  fl_idempotent : forall x, fl (fl x) == fl x;
  fl_zero : fl 0 == 0
}.

(** ** The functions in rounded arithmetic *)

Module Rounded.

Section Arithmetic.

Variable fl : Q -> Q.
Variable exponential : Q -> nat -> Q.
Variable normal : Q -> Q -> nat -> Q.

(** *** Generators *)

(** One interval: [random.exponential(1./rate)], raised to [dt] when
    shorter. *)
Definition new_interval (rate dt : Q) : M Q :=
  if Qeq_bool rate 0 then fail Unmodelled
  else
    newinterval <- random_exponential exponential (fl (1 / rate)) ;;
    ret (if Qltb newinterval dt then dt else newinterval).

(** First loop of [poisson_spikes]: [while len(spiketrain) == 0]. *)
Fixpoint poisson_first (fuel : nat) (dura rate dt : Q) (spiketrain : list Q)
  : M (list Q) :=
  match spiketrain with
  | _ :: _ => ret spiketrain
  | [] =>
      match fuel with
      | O => fail OutOfFuel
      | S fuel' =>
          newinterval <- new_interval rate dt ;;
          poisson_first fuel' dura rate dt
            (if Qltb newinterval dura then [newinterval] else spiketrain)
      end
  end.

(** Second loop: [while spiketrain[-1] < dura], appending
    [spiketrain[-1]+newinterval]. *)
Fixpoint poisson_rest (fuel : nat) (dura rate dt : Q) (spiketrain : list Q)
  : M (list Q) :=
  if Qltb (last spiketrain 0) dura then
    match fuel with
    | O => fail OutOfFuel
    | S fuel' =>
        newinterval <- new_interval rate dt ;;
        poisson_rest fuel' dura rate dt
          (spiketrain ++ [fl (last spiketrain 0 + newinterval)])
    end
  else ret spiketrain.

(** [poisson_spikes(dura, rate, dt)]; each loop may run [fuel] times. *)
Definition poisson_spikes (fuel : nat) (dura rate dt : Q) : M (list Q) :=
  spiketrain <- poisson_first fuel dura rate dt [] ;;
  spiketrain <- poisson_rest fuel dura rate dt spiketrain ;;
  ret (removelast spiketrain).

(** A train in which every event is at least the rounded sum of the event
    before it and [dt]. *)
Fixpoint spaced (dt : Q) (st : list Q) : Prop :=
  match st with
  | x :: (y :: _) as tl => fl (x + dt) <= y /\ spaced dt tl
  | _ => True
  end.

(** What the second loop of [poisson_spikes] keeps true of [spiketrain]. *)
Definition poisson_invariant (dt dura : Q) (spiketrain : list Q) : Prop :=
  exists first rest,
    spiketrain = first :: rest
    /\ dt <= first /\ first < dura
    /\ spaced dt spiketrain
    /\ nondecreasing spiketrain
    /\ Forall (fun t => fl t == t) spiketrain
    /\ Forall (fun t => t < dura) (removelast spiketrain).

(** [numpy.diff] and [numpy.cumsum] on doubles. *)
Fixpoint diff (xs : list Q) : list Q :=
  match xs with
  | x :: (y :: _) as tl => fl (y - x) :: diff tl
  | _ => []
  end.

Fixpoint cumsum_from (acc : Q) (xs : list Q) : list Q :=
  match xs with
  | [] => []
  | x :: tl => fl (acc + x) :: cumsum_from (fl (acc + x)) tl
  end.

Definition cumsum (xs : list Q) : list Q :=
  match xs with
  | [] => []
  | x :: tl => x :: cumsum_from x tl
  end.

(** The spacing loop of [add_gauss_jitter]:
    [while min(intervals) < dt: intervals[index] += dt]. *)
Fixpoint widen (fuel : nat) (dt : Q) (intervals : list Q) : M (list Q) :=
  match py_min intervals with
  | Ok m =>
      if Qltb m dt then
        match fuel with
        | O => fail OutOfFuel
        | S fuel' =>
            let index := first_index m intervals in
            widen fuel' dt
                  (set_nth index (fl (nth index intervals 0 + dt)) intervals)
        end
      else ret intervals
  | Raise e => fail (Raise e)
  | Unmodelled => fail Unmodelled
  | OutOfFuel => fail OutOfFuel
  end.

(** [add_gauss_jitter(spiketrain, jitter, dt)]. *)
Definition add_gauss_jitter (fuel : nat) (spiketrain : list Q) (jitter dt : Q)
  : M (list Q) :=
  if Qeq_bool jitter 0 then ret spiketrain
  else
    noise <- random_normal_n normal 0 jitter (length spiketrain) ;;
    let jspiketrain := zip_with (fun t x => fl (t + x)) spiketrain noise in
    let jspiketrain := sort jspiketrain in
    let intervals := diff jspiketrain in
    intervals <- widen fuel dt intervals ;;
    let jspiketrain := cumsum intervals in
    ret jspiketrain.

(** [sync_inp(n, rate, s, sigma, dura, dt)]. *)
Definition sync_inp (fuel : nat) (n : Z) (rate s sigma dura dt : Q)
  : M (list (list Q)) :=
  s <- (if negb (in_unit_interval s)
        then _ <- warn "Synchrony should be between 0 and 1. Setting to 1." ;;
             ret 1
        else ret s) ;;
  let n_ident := Qfloor (fl (inject_Z n * s)) in
  st_ident <- poisson_spikes fuel dura rate dt ;;
  linked <- replicateM (range_count 0 n_ident)
                       (add_gauss_jitter fuel st_ident sigma dt) ;;
  independent <- replicateM (range_count n_ident n)
                            (poisson_spikes fuel dura rate dt) ;;
  ret (linked ++ independent).

(** One read of a generator made by [sync_inp_gen]: the body of
    [while(True)] up to [yield]. *)
Definition generator_next (g : generator) : M (Q * generator) :=
  st <- (if (gen_iter g =? gen_n g)%Z
         then interval <- new_interval (gen_rate g) (gen_dt g) ;;
              ret (fl (gen_t g + interval), gen_t g, 1%Z)
         else ret (gen_t g, gen_prev_t g, (gen_iter g + 1)%Z)) ;;
  let '(t, prev_t, iter) := st in
  jitt_variate <-
    (if Qltb 0 (gen_jitter g)
     then jitt_variate <- random_normal normal 0 (gen_jitter g) ;;
          ret (if Qltb (fl (t + jitt_variate)) (fl (prev_t + gen_dt g))
               then fl (fl (prev_t + gen_dt g) - t)
               else jitt_variate)
     else ret 0) ;;
  ret (fl (t + jitt_variate),
       mkGenerator (gen_n g) (gen_rate g) (gen_jitter g) (gen_dt g)
                   t prev_t iter).

(** [k] successive reads of one generator object. *)
Fixpoint generator_take (k : nat) (g : generator) : M (list Q * generator) :=
  match k with
  | O => ret ([], g)
  | S k' =>
      r <- generator_next g ;;
      let '(spike, g') := r in
      r' <- generator_take k' g' ;;
      let '(spikes, g'') := r' in
      ret (spike :: spikes, g'')
  end.

(** *** Binning *)

(** [divide(spikes, dt).astype('int')]: the grid index of every time. *)
Definition to_grid (dt : Q) (xs : list Q) : list Z :=
  map (fun t => py_int (fl (t / dt))) xs.

(** [times_to_bin(spikes, dt, duration)]. *)
Definition times_to_bin (spikes : list Q) (dt : Q) (duration : option Q)
  : result (list Q) :=
  match spikes with
  | [] =>
      match duration with
      | None => Ok spikes
      | Some d =>
          if Qeq_bool dt 0 then Unmodelled else zeros (py_int (fl (d / dt)))
      end
  | _ :: _ =>
      if Qeq_bool dt 0 then Unmodelled
      else
        let st := to_grid dt spikes in
        let* binlength :=
          match duration with
          | None => let* m := zmax st in Ok (m + 1)%Z
          | Some d => Ok (py_int (fl (d / dt)))
          end in
        let* bintimes := zeros binlength in
        match st with
        | [] => Ok bintimes
        | _ :: _ =>
            let st :=
              if (last st 0 >? binlength)%Z
              then filter (fun i => (i <? binlength)%Z) st
              else st in
            setitems bintimes st 1
        end
  end.

Definition times_to_bin_entry (depth : nat)
  : nd depth -> Q -> option Q -> result (list Q) :=
  match depth with
  | O => fun _ _ _ => Raise TypeError
  | S O => fun st dt duration => times_to_bin st dt duration
  | S (S _) => fun _ _ _ => Unmodelled
  end.

(** [times_to_bin_multi(spikes, dt, duration)]: without a duration,
    [max(recursiveflat(spiketimes))+float(dt)]. *)
Definition times_to_bin_multi (spikes : pyobject) (dt : Q) (duration : option Q)
  : result (list (list Q)) :=
  let* spiketimes := container_items spikes in
  let* duration :=
    match duration with
    | None =>
        let* m := py_max (recursiveflat (nd_depth spiketimes)
                                        (nd_items spiketimes)) in
        Ok (fl (m + dt))
    | Some d => Ok d
    end in
  map_result
    (fun st => times_to_bin_entry (nd_depth spiketimes) st dt (Some duration))
    (nd_items spiketimes).

(** [numpy.arange(0, stop, step)]: [ceil(stop/step)] values. *)
Definition arange (stop step : Q) : list Q :=
  map (fun i => fl (inject_Z (Z.of_nat i) * step))
      (seq 0 (Z.to_nat (Qceiling (fl (stop / step))))).

(** [PSTH(spikes, bin, dt, duration)]: [(bin times, counts)]. *)
Definition PSTH (spikes : pyobject) (bin dt : Q) (duration : option Q)
  : result (list Q * list Q) :=
  let bin := if Qltb bin dt then dt else bin in
  let* spiketimes := container_items spikes in
  let flatspikes := recursiveflat (nd_depth spiketimes) (nd_items spiketimes) in
  let* duration :=
    match duration with
    | None => let* m := py_max flatspikes in Ok (fl (m + dt))
    | Some d => Ok d
    end in
  if Qeq_bool bin 0 then Unmodelled
  else
    let nbins := py_int (fl (duration / bin)) in
    let* psth := zeros nbins in
    let psth :=
      fold_left
        (fun psth b =>
           set_nth b
             (inject_Z (Z.of_nat
                (count_between (fl (inject_Z (Z.of_nat b) * bin))
                               (fl (inject_Z (Z.of_nat b + 1) * bin))
                               flatspikes)))
             psth)
        (seq 0 (Z.to_nat nbins)) psth in
    Ok (arange duration bin, psth).

(** *** Spike-triggered average *)

(** [numpy.mean] and [numpy.std] of a column of the window matrix: the
    rounded value depends on the order in which numpy adds the samples up,
    and both are kept abstract. *)
Variable mean : list Q -> Q.
Variable std : list Q -> Q.

(** The loop of [sta] over [enumerate(spiketrain)], from row [i] on. *)
Fixpoint sta_fill (v : list Q) (dt : Q) (w_d : Z) (spikes : list Q) (i : nat)
         (sta_wins : list (list Q)) : result (list (list Q)) :=
  match spikes with
  | [] => Ok sta_wins
  | st :: rest =>
      let t_d := py_int (fl (st / dt)) in
      let* sta_wins :=
        if (w_d <? t_d)%Z
        then
          let w_start := (t_d - w_d)%Z in
          let w_end := t_d in
          assign_row sta_wins i (slice v w_start w_end)
        else
          let* pad := zeros (w_d - t_d) in
          let curwin := pad ++ slice v 0 t_d in
          assign_row sta_wins i curwin in
      sta_fill v dt w_d rest (S i) sta_wins
  end.

(** [sta(v, spiketrain, w, dt)]: [(sta_avg, sta_std, sta_wins)]. *)
Definition sta (v spiketrain : list Q) (w dt : Q)
  : result (list Q * list Q * list (list Q)) :=
  if (length spiketrain <=? 1)%nat then Ok ([], [], [])
  else if Qeq_bool dt 0 then Unmodelled
  else
    let w_d := py_int (fl (w / dt)) in
    let* sta_wins := zeros2 (length spiketrain) w_d in
    let* sta_wins := sta_fill v dt w_d spiketrain 0 sta_wins in
    let sta_avg :=
      map (fun j => mean (column j sta_wins)) (seq 0 (Z.to_nat w_d)) in
    let sta_std :=
      map (fun j => std (column j sta_wins)) (seq 0 (Z.to_nat w_d)) in
    Ok (sta_avg, sta_std, sta_wins).

(** *** unitrange *)

(** The loop of [unitrange]: [while x < stop: retlist.append(x); x += step]. *)
Fixpoint unitrange_loop (fuel : nat) (x stop step : Q) (retlist : list Q)
  : result (list Q) :=
  if Qltb x stop then
    match fuel with
    | O => OutOfFuel
    | S fuel' =>
        unitrange_loop fuel' (fl (x + step)) stop step (retlist ++ [x])
    end
  else Ok retlist.

(** [unitrange(start, stop, step)]. *)
Definition unitrange (fuel : nat) (start stop step : pyscalar)
  : result (list pyscalar) :=
  match start with
  | Plain _ => Raise TypeError
  | Quantity a da =>
      match stop with
      | Plain _ => Raise TypeError
      | Quantity b db =>
          match step with
          | Plain _ => Raise TypeError
          | Quantity c dc =>
              if negb (has_same_dimensions da db)
                 || negb (has_same_dimensions da dc)
                 || negb (has_same_dimensions db dc)
              then Raise TypeError
              else
                let* retlist := unitrange_loop fuel a b c [] in
                Ok (map (fun v => Quantity v da) retlist)
          end
      end
  end.

(** The running sums [x], [fl (x + step)], ... *)
Fixpoint progression (x step : Q) (n : nat) : list Q :=
  match n with
  | O => []
  | S n' => x :: progression (fl (x + step)) step n'
  end.

End Arithmetic.

End Rounded.

(** * Properties *)

(** ** Arithmetic of the primitives *)

Lemma Qeq_bool_false_of_neq (x y : Q) : ~ x == y -> Qeq_bool x y = false.
Proof.
  intro H. destruct (Qeq_bool x y) eqn:E; [|reflexivity].
  apply Qeq_bool_iff in E. contradiction.
Qed.

Lemma Qltb_lt (x y : Q) : Qltb x y = true <-> x < y.
Proof.
  unfold Qltb. rewrite negb_true_iff. split; intro H.
  - apply Qnot_le_lt. intro L. apply Qle_bool_iff in L. congruence.
  - destruct (Qle_bool y x) eqn:E; [|reflexivity].
    apply Qle_bool_iff in E. exfalso. apply (Qlt_not_le _ _ H E).
Qed.

Lemma Qltb_ge (x y : Q) : Qltb x y = false <-> y <= x.
Proof.
  unfold Qltb. rewrite negb_false_iff. apply Qle_bool_iff.
Qed.

Lemma fdiv_nonzero (x y : Q) : ~ y == 0 -> fdiv x y = Some (x / y).
Proof.
  intro H. unfold fdiv. now rewrite (Qeq_bool_false_of_neq _ _ H).
Qed.

Lemma inject_nat_nonzero (n : nat) : (1 <= n)%nat -> ~ inject_Z (Z.of_nat n) == 0.
Proof.
  intros H E. unfold Qeq in E. simpl in E. lia.
Qed.

Lemma diff_length (xs : list Q) : length (diff xs) = (length xs - 1)%nat.
Proof.
  induction xs as [|x [|y tl] IH]; simpl in *; auto.
  rewrite IH. lia.
Qed.

Lemma increasing_diff_positive (st : list Q) :
  increasing st -> Forall (fun d => 0 < d) (diff st).
Proof.
  induction st as [|x [|y tl] IH]; simpl; intros H; auto.
  destruct H as [Hxy Htl]. constructor; [lra | apply IH, Htl].
Qed.

(** ** CV2 *)

(** The index loop of [CV2] visits the adjacent pairs of the ISI sequence in
    order; [pre] is the part of the sequence already behind the loop. *)
Lemma CV2_loop_pairs (l pre : list Q) (acc : Q) :
  Forall (fun d => 0 < d) l ->
  exists r,
    fold_left
      (fun mi_total i =>
         fadd mi_total
              (fdiv (Qabs (nth i (pre ++ l) 0 - nth (i + 1) (pre ++ l) 0))
                    (nth i (pre ++ l) 0 + nth (i + 1) (pre ++ l) 0)))
      (seq (length pre) (length l - 1)) (Some acc) = Some r
    /\ r * 2 == acc * 2 + CV2_pair_sum l.
Proof.
  revert pre acc. induction l as [|a [|b tl] IH]; intros pre acc Hpos.
  - exists acc. simpl. split; [reflexivity | lra].
  - exists acc. simpl. split; [reflexivity | lra].
  - inversion Hpos as [|? ? Ha Hrest]; subst.
    inversion Hrest as [|? ? Hb _]; subst.
    assert (Hsum : ~ a + b == 0) by lra.
    specialize (IH (pre ++ [a]) (acc + Qabs (a - b) / (a + b)) Hrest).
    destruct IH as [r [Hfold Hr]].
    exists r. split.
    + replace (length (a :: b :: tl) - 1)%nat with (S (length (b :: tl) - 1))
        by (simpl; lia).
      cbn [seq fold_left].
      rewrite <- app_assoc in Hfold. cbn [app] in Hfold.
      rewrite length_app in Hfold. cbn [length] in Hfold.
      replace (length pre + 1)%nat with (S (length pre)) in Hfold by lia.
      rewrite <- Hfold. f_equal.
      replace (length pre + 1)%nat with (S (length pre)) by lia.
      rewrite (app_nth2 pre) by lia.
      rewrite (app_nth2 pre) by lia.
      replace (length pre - length pre)%nat with O by lia.
      replace (S (length pre) - length pre)%nat with 1%nat by lia.
      cbn [nth]. rewrite (fdiv_nonzero _ _ Hsum). reflexivity.
    + rewrite Hr. cbn [CV2_pair_sum]. field. exact Hsum.
Qed.

(** C5 (as amended): for a strictly increasing spike train with [N >= 1]
    ISIs, [CV2] is the sum over the [N - 1] adjacent ISI pairs of
    [2|isi_i - isi_{i+1}| / (isi_i + isi_{i+1})] divided by [N], the number
    of ISIs (and not by the number of pairs). *)
Theorem CV2_sum_over_isi_count (st : list Q) :
  increasing st ->
  (1 <= length (diff st))%nat ->
  exists r,
    CV2 st = Some r
    /\ r == CV2_pair_sum (diff st) / inject_Z (Z.of_nat (length (diff st))).
Proof.
  intros Hinc HN. unfold CV2.
  destruct (Nat.eqb_spec (length (diff st)) 0) as [E|_]; [lia|].
  destruct (CV2_loop_pairs (diff st) [] 0 (increasing_diff_positive st Hinc))
    as [r [Hfold Hr]].
  cbn [app length] in Hfold. rewrite Hfold.
  pose proof (inject_nat_nonzero _ HN) as Hnz.
  exists (r * 2 / inject_Z (Z.of_nat (length (diff st)))). split.
  - cbn [fmul fdivf flift2]. now rewrite (fdiv_nonzero _ _ Hnz).
  - rewrite Hr. field. exact Hnz.
Qed.

Lemma CV2_sum_over_isi_count_witness :
  exists r, CV2 [0; 1; 4] = Some r
            /\ r == CV2_pair_sum (diff [0; 1; 4])
                    / inject_Z (Z.of_nat (length (diff [0; 1; 4]))).
Proof.
  apply (CV2_sum_over_isi_count [0; 1; 4]).
  - simpl. split; [reflexivity | split; [reflexivity | exact I]].
  - simpl. lia.
Defined.

(** C5 as stated fails: with ISIs [1; 3] there is one adjacent pair, whose
    term is 1, so the mean over the pairs is 1, while [CV2] returns 1/2. *)
Lemma CV2_is_not_the_pair_mean :
  exists r,
    CV2 [0; 1; 4] = Some r
    /\ ~ r == CV2_pair_sum (diff [0; 1; 4])
              / inject_Z (Z.of_nat (length (diff [0; 1; 4]) - 1)).
Proof.
  eexists. split; [vm_compute; reflexivity|].
  vm_compute. discriminate.
Qed.

(** ** Grid indices *)

Lemma py_int_floor (x : Q) : 0 <= x -> py_int x = Qfloor x.
Proof.
  destruct x as [n d]. unfold Qle, py_int, Qfloor. simpl. intro H.
  apply Z.quot_div_nonneg; lia.
Qed.

Lemma Qdiv_nonneg (x dt : Q) : 0 < dt -> 0 <= x -> 0 <= x / dt.
Proof.
  intros Hdt Hx. apply Qle_shift_div_l; [exact Hdt | lra].
Qed.

Lemma Qdiv_le_mono (x y dt : Q) : 0 < dt -> x <= y -> x / dt <= y / dt.
Proof.
  intros Hdt Hxy. apply Qle_shift_div_l; [exact Hdt|].
  setoid_replace (x / dt * dt) with x by (field; lra). exact Hxy.
Qed.

Lemma py_int_nonneg (x : Q) : 0 <= x -> (0 <= py_int x)%Z.
Proof.
  intro H. rewrite (py_int_floor _ H).
  change 0%Z with (Qfloor 0). now apply Qfloor_resp_le.
Qed.

Lemma py_int_mono (x y : Q) : 0 <= x -> x <= y -> (py_int x <= py_int y)%Z.
Proof.
  intros Hx Hxy. rewrite !py_int_floor by lra. now apply Qfloor_resp_le.
Qed.

Lemma grid_index_nonneg (dt t : Q) : 0 < dt -> 0 <= t -> (0 <= py_int (t / dt))%Z.
Proof.
  intros Hdt Ht. apply py_int_nonneg, Qdiv_nonneg; assumption.
Qed.

Lemma grid_index_mono (dt s t : Q) :
  0 < dt -> 0 <= s -> s <= t -> (py_int (s / dt) <= py_int (t / dt))%Z.
Proof.
  intros Hdt Hs Hst. apply py_int_mono.
  - now apply Qdiv_nonneg.
  - now apply Qdiv_le_mono.
Qed.

Lemma increasing_tail (x : Q) (st : list Q) : increasing (x :: st) -> increasing st.
Proof.
  destruct st as [|y tl]; simpl; intuition.
Qed.

Lemma increasing_le_last (st : list Q) :
  increasing st -> Forall (fun t => t <= last st 0) st.
Proof.
  induction st as [|x [|y tl] IH]; intro H.
  - constructor.
  - constructor; [simpl; lra | constructor].
  - destruct H as [Hxy Htl]. specialize (IH Htl).
    change (last (x :: y :: tl) 0) with (last (y :: tl) 0).
    constructor; [|exact IH].
    inversion IH as [|? ? Hy _]; subst. lra.
Qed.

Lemma last_to_grid (dt s : Q) (spikes : list Q) :
  last (to_grid dt (s :: spikes)) 0%Z = py_int (last (s :: spikes) 0 / dt).
Proof.
  revert s. induction spikes as [|y tl IH]; intro s; [reflexivity|].
  change (last (to_grid dt (s :: y :: tl)) 0%Z)
    with (last (to_grid dt (y :: tl)) 0%Z).
  now rewrite IH.
Qed.

(** ** Index assignment *)

Lemma set_nth_length {A} (k : nat) (v : A) (a : list A) :
  length (set_nth k v a) = length a.
Proof.
  revert k. induction a as [|x tl IH]; intros [|k]; simpl; auto.
Qed.

Lemma nth_set_nth {A} (k b : nat) (v d : A) (a : list A) :
  (k < length a)%nat ->
  nth b (set_nth k v a) d = if (b =? k)%nat then v else nth b a d.
Proof.
  revert k b. induction a as [|x tl IH]; intros k b Hk; simpl in Hk; [lia|].
  destruct k as [|k], b as [|b]; simpl; auto.
  apply IH. lia.
Qed.

Lemma np_index_in_range (len : nat) (i : Z) :
  (0 <= i < Z.of_nat len)%Z -> np_index len i = Some (Z.to_nat i).
Proof.
  intro H. unfold np_index.
  destruct (Z.leb_spec 0 i); [|lia].
  destruct (Z.ltb_spec i (Z.of_nat len)); [reflexivity | lia].
Qed.

Lemma setitems_in_range (idx : list Z) (a : list Q) (v : Q) :
  Forall (fun i => (0 <= i < Z.of_nat (length a))%Z) idx ->
  exists a',
    setitems a idx v = Ok a'
    /\ length a' = length a
    /\ forall b, (b < length a)%nat ->
         nth b a' 0 =
         if existsb (fun i => (i =? Z.of_nat b)%Z) idx then v else nth b a 0.
Proof.
  revert a. induction idx as [|i rest IH]; intros a Hall.
  - exists a. repeat split; auto.
  - inversion Hall as [|? ? Hi Hrest]; subst.
    cbn [setitems]. rewrite (np_index_in_range _ _ Hi).
    destruct (IH (set_nth (Z.to_nat i) v a)) as [a' [Hset [Hlen Hnth]]].
    { rewrite set_nth_length. exact Hrest. }
    exists a'. rewrite set_nth_length in Hlen, Hnth.
    repeat split; auto.
    intros b Hb. rewrite (Hnth b Hb). cbn [existsb].
    rewrite nth_set_nth by lia.
    destruct (existsb (fun i0 => (i0 =? Z.of_nat b)%Z) rest).
    + now rewrite orb_true_r.
    + rewrite orb_false_r.
      destruct (Nat.eqb_spec b (Z.to_nat i)), (Z.eqb_spec i (Z.of_nat b));
        try reflexivity; lia.
Qed.

Lemma existsb_filter_below (n b : Z) (st : list Z) :
  (b < n)%Z ->
  existsb (fun i => (i =? b)%Z) (filter (fun i => (i <? n)%Z) st)
  = existsb (fun i => (i =? b)%Z) st.
Proof.
  intro Hb. induction st as [|i tl IH]; [reflexivity|].
  cbn [filter existsb]. destruct (Z.ltb_spec i n); cbn [existsb].
  - now rewrite IH.
  - rewrite IH. destruct (Z.eqb_spec i b); [lia | reflexivity].
Qed.

Lemma existsb_to_grid (dt : Q) (b : Z) (spikes : list Q) :
  existsb (fun i => (i =? b)%Z) (to_grid dt spikes)
  = existsb (fun t => (py_int (t / dt) =? b)%Z) spikes.
Proof.
  unfold to_grid. induction spikes as [|t tl IH]; [reflexivity|].
  cbn [map existsb]. now rewrite IH.
Qed.

(** ** times_to_bin *)

Lemma times_to_bin_in_grid (spikes : list Q) (dt duration : Q) :
  0 < dt -> 0 <= duration ->
  Forall (fun t => 0 <= t) spikes ->
  increasing spikes ->
  (spikes <> [] -> py_int (last spikes 0 / dt) <> py_int (duration / dt)) ->
  exists bintimes,
    times_to_bin spikes dt (Some duration) = Ok bintimes
    /\ length bintimes = Z.to_nat (py_int (duration / dt))
    /\ forall b, (b < length bintimes)%nat ->
         nth b bintimes 0 =
         if existsb (fun t => (py_int (t / dt) =? Z.of_nat b)%Z) spikes
         then 1 else 0.
Proof.
  intros Hdt Hdur Hpos Hinc Hlast.
  assert (Hdt0 : Qeq_bool dt 0 = false)
    by (apply Qeq_bool_false_of_neq; lra).
  pose proof (grid_index_nonneg dt duration Hdt Hdur) as Hlen.
  set (binlength := py_int (duration / dt)) in *.
  assert (Hzeros : zeros binlength = Ok (repeat 0 (Z.to_nat binlength))).
  { unfold zeros. destruct (Z.ltb_spec binlength 0); [lia | reflexivity]. }
  destruct spikes as [|s rest].
  - (* an empty train *)
    exists (repeat 0 (Z.to_nat binlength)). cbn [times_to_bin].
    rewrite Hdt0. fold binlength. rewrite Hzeros.
    split; [reflexivity|]. split; [apply repeat_length|].
    intros b _. cbn [existsb]. apply nth_repeat.
  - specialize (Hlast ltac:(discriminate)).
    pose proof (increasing_le_last _ Hinc) as Hle.
    set (st := to_grid dt (s :: rest)).
    set (kept := if (last st 0 >? binlength)%Z
                 then filter (fun i => (i <? binlength)%Z) st else st).
    assert (Hkept : Forall (fun i => (0 <= i < binlength)%Z) kept).
    { subst kept. destruct (Z.gtb_spec (last st 0%Z) binlength) as [Hgt|Hngt].
      - apply Forall_forall. intros i Hi. apply filter_In in Hi.
        destruct Hi as [Hi Hlt]. apply Z.ltb_lt in Hlt. split; [|exact Hlt].
        subst st. unfold to_grid in Hi. apply in_map_iff in Hi.
        destruct Hi as [t [<- Ht]].
        apply grid_index_nonneg; [exact Hdt|].
        rewrite Forall_forall in Hpos. now apply Hpos.
      - subst st. rewrite last_to_grid in Hngt.
        apply Forall_forall. intros i Hi. unfold to_grid in Hi.
        apply in_map_iff in Hi. destruct Hi as [t [<- Ht]].
        rewrite Forall_forall in Hpos, Hle.
        pose proof (Hpos t Ht) as Ht0. pose proof (Hle t Ht) as Htl.
        pose proof (grid_index_mono dt t _ Hdt Ht0 Htl).
        split; [now apply grid_index_nonneg | lia]. }
    assert (Hexists : forall b, (Z.of_nat b < binlength)%Z ->
              existsb (fun i => (i =? Z.of_nat b)%Z) kept
              = existsb (fun t => (py_int (t / dt) =? Z.of_nat b)%Z) (s :: rest)).
    { intros b Hb. subst kept.
      destruct (last st 0 >? binlength)%Z.
      - rewrite existsb_filter_below by exact Hb. apply existsb_to_grid.
      - apply existsb_to_grid. }
    destruct (setitems_in_range kept (repeat 0 (Z.to_nat binlength)) 1)
      as [bintimes [Hset [Hlength Hnth]]].
    { rewrite repeat_length. rewrite Z2Nat.id by lia. exact Hkept. }
    exists bintimes. rewrite repeat_length in Hlength, Hnth.
    split; [|split].
    + unfold times_to_bin. rewrite Hdt0. cbn [rbind]. fold binlength.
      rewrite Hzeros. cbn [rbind]. fold st.
      destruct st as [|i0 st'] eqn:Est; [discriminate|].
      fold kept. exact Hset.
    + exact Hlength.
    + intros b Hb. rewrite Hlength in Hb. rewrite (Hnth b Hb).
      rewrite nth_repeat. rewrite Hexists by lia. reflexivity.
Qed.


(** C4 (as amended): for a dt > 0, a duration >= 0 and a strictly increasing
    train of non-negative times whose last grid index is not exactly the
    grid length, [times_to_bin] returns a vector of length
    [int(duration/dt)] (the quotient truncated, not rounded up) in which a
    bin is 1 when at least one spike has that grid index and 0 otherwise,
    so that several spikes of one bin collapse to 1 and the spikes beyond
    the grid are dropped; and
    [times_to_bin([0.0015, 0.0025], dt=0.001, duration=0.004)] is
    [[0, 1, 1, 0]]. *)
Theorem times_to_bin_grid :
  (forall (spikes : list Q) (dt duration : Q),
      0 < dt -> 0 <= duration ->
      Forall (fun t => 0 <= t) spikes ->
      increasing spikes ->
      (spikes <> [] ->
       py_int (last spikes 0 / dt) <> py_int (duration / dt)) ->
      exists bintimes,
        times_to_bin spikes dt (Some duration) = Ok bintimes
        /\ length bintimes = Z.to_nat (py_int (duration / dt))
        /\ forall b, (b < length bintimes)%nat ->
             nth b bintimes 0 =
             if existsb (fun t => (py_int (t / dt) =? Z.of_nat b)%Z) spikes
             then 1 else 0)
  /\ times_to_bin [15 # 10000; 25 # 10000] (1 # 1000) (Some (4 # 1000))
     = Ok [0; 1; 1; 0].
Proof.
  split.
  - intros spikes dt duration Hdt Hdur Hpos Hinc Hlast.
    now apply times_to_bin_in_grid.
  - vm_compute. reflexivity.
Qed.

Lemma times_to_bin_grid_witness :
  exists bintimes,
    times_to_bin [15 # 10000; 25 # 10000] (1 # 1000) (Some (4 # 1000))
    = Ok bintimes
    /\ length bintimes = Z.to_nat (py_int ((4 # 1000) / (1 # 1000)))
    /\ forall b, (b < length bintimes)%nat ->
         nth b bintimes 0 =
         if existsb (fun t => (py_int (t / (1 # 1000)) =? Z.of_nat b)%Z)
                    [15 # 10000; 25 # 10000]
         then 1 else 0.
Proof.
  apply (proj1 times_to_bin_grid).
  - reflexivity.
  - unfold Qle; simpl; lia.
  - repeat constructor; unfold Qle; simpl; lia.
  - simpl. split; [reflexivity | exact I].
  - intros _. vm_compute. discriminate.
Defined.

(** C4 as stated fails: a duration of 4.5 bins gives a vector of 4 bins,
    not of [ceil(4.5) = 5]. *)
Lemma times_to_bin_length_is_not_ceil :
  exists bintimes,
    times_to_bin [1 # 1000] (1 # 1000) (Some (9 # 2000)) = Ok bintimes
    /\ length bintimes <> Z.to_nat (Qceiling ((9 # 2000) / (1 # 1000))).
Proof.
  eexists. split; [vm_compute; reflexivity|].
  vm_compute. discriminate.
Qed.

(** The guard [st[-1] > binlength] lets a last grid index equal to the
    grid length through, and the assignment then fails. *)
Example times_to_bin_last_index_at_grid_length :
  times_to_bin [4 # 1000] (1 # 1000) (Some (4 # 1000)) = Raise IndexError.
Proof. reflexivity. Qed.

(** ** Element-wise array operations *)

Lemma nth_map_in {A B} (f : A -> B) (l : list A) (i : nat) (d : A) (d' : B) :
  (i < length l)%nat -> nth i (map f l) d' = f (nth i l d).
Proof.
  revert i. induction l as [|x tl IH]; intros i Hi; simpl in Hi; [lia|].
  destruct i; simpl; [reflexivity | apply IH; lia].
Qed.

Lemma zip_with_length {A B C} (f : A -> B -> C) (xs : list A) (ys : list B) :
  length (zip_with f xs ys) = Nat.min (length xs) (length ys).
Proof.
  revert ys. induction xs as [|x xs IH]; intros [|y ys]; simpl; auto.
Qed.

Lemma nth_zip_with {A B C} (f : A -> B -> C) (xs : list A) (ys : list B)
      (i : nat) (dx : A) (dy : B) (d : C) :
  (i < length xs)%nat -> (i < length ys)%nat ->
  nth i (zip_with f xs ys) d = f (nth i xs dx) (nth i ys dy).
Proof.
  revert ys i. induction xs as [|x xs IH]; intros [|y ys] i Hx Hy;
    simpl in *; try lia.
  destruct i; [reflexivity | apply IH; lia].
Qed.

Lemma getitems_ok (a : list Q) (idx : list Z) (xs : list Q) :
  getitems a idx = Ok xs ->
  length xs = length idx
  /\ forall i, (i < length idx)%nat ->
       getitem a (nth i idx 0%Z) = Ok (nth i xs 0).
Proof.
  revert xs. induction idx as [|j rest IH]; intros xs H.
  - inversion H; subst. split; [reflexivity | simpl; intros; lia].
  - cbn [getitems] in H.
    destruct (getitem a j) as [x| | |] eqn:Ej; try discriminate.
    cbn [rbind] in H.
    destruct (getitems a rest) as [xs'| | |]; try discriminate.
    cbn [rbind] in H. inversion H; subst.
    destruct (IH xs' eq_refl) as [Hlen Hnth].
    split; [simpl; now rewrite Hlen|].
    intros [|i] Hi; [exact Ej|]. simpl in Hi. simpl. apply Hnth. lia.
Qed.

Lemma getitems_defined (a : list Q) (idx : list Z) :
  (forall i, (i < length idx)%nat ->
     exists x, getitem a (nth i idx 0%Z) = Ok x) ->
  exists xs, getitems a idx = Ok xs.
Proof.
  induction idx as [|j rest IH]; intro H.
  - now exists [].
  - destruct (H O ltac:(simpl; lia)) as [x Hx]. simpl in Hx.
    destruct IH as [xs Hxs].
    { intros i Hi. apply (H (S i)). simpl. lia. }
    exists (x :: xs). cbn [getitems]. now rewrite Hx, Hxs.
Qed.

(** ** firing_slope *)

Lemma max2_Qmax (a b : Q) : max2 a b == Qmax a b.
Proof.
  unfold max2. destruct (Qltb a b) eqn:E.
  - apply Qltb_lt in E. symmetry. apply Q.max_r. lra.
  - apply Qltb_ge in E. symmetry. now apply Q.max_l.
Qed.

Lemma min2_Qmin (a b : Q) : min2 a b == Qmin a b.
Proof.
  unfold min2. destruct (Qltb b a) eqn:E.
  - apply Qltb_lt in E. symmetry. apply Q.min_r. lra.
  - apply Qltb_ge in E. symmetry. now apply Q.min_l.
Qed.

Lemma firing_slope_windows_length (st : list Q) (dt w : Q) :
  (1 <= length st)%nat -> length (firing_slope_windows st dt w) = length st.
Proof.
  intro H. unfold firing_slope_windows.
  rewrite length_map. cbn [length]. rewrite diff_length. lia.
Qed.

Lemma nth_diff (xs : list Q) (j : nat) :
  (S j < length xs)%nat -> nth j (diff xs) 0 = nth (S j) xs 0 - nth j xs 0.
Proof.
  revert j. induction xs as [|x [|y tl] IH]; intros j Hj; simpl in Hj; try lia.
  destruct j as [|j]; [reflexivity|].
  change (nth (S j) (diff (x :: y :: tl)) 0) with (nth j (diff (y :: tl)) 0).
  rewrite IH by (simpl; lia). reflexivity.
Qed.

Lemma nth_firing_slope_windows (st : list Q) (dt w : Q) (i : nat) :
  (i < length st)%nat ->
  nth i (firing_slope_windows st dt w) 0
  = min2 (max2 w dt) (preceding_isi st i - dt).
Proof.
  intro Hi. unfold firing_slope_windows.
  rewrite (nth_map_in _ _ _ 0) by (cbn [length]; rewrite diff_length; lia).
  f_equal. f_equal. destruct i as [|j]; [reflexivity|].
  cbn [nth preceding_isi]. now apply nth_diff.
Qed.

(** C3 (as amended): for a train of at least 2 spikes, the window of spike
    [i] is [min(max(w, dt), preceding_isi - dt)], where the first spike's
    preceding interval is the time since 0.  The cap [max(w, dt)] is never
    below [dt]; the window itself is below [dt] exactly when the preceding
    interval is shorter than [2 dt].  Whenever the call returns, the slope
    of spike [i] is [(mem[spike index] - mem[spike index - window index])]
    divided by that window, and the call returns as soon as all these
    indices address the trace. *)
Theorem firing_slope_window_and_slope (mem st : list Q) (dt w : Q) :
  (2 <= length st)%nat ->
  ~ dt == 0 ->
  let windows := firing_slope_windows st dt w in
  let spike_index := fun i => py_int (nth i st 0 / dt) in
  let window_index := fun i => py_int (nth i windows 0 / dt) in
  (forall i, (i < length st)%nat ->
     nth i windows 0 == Qmin (Qmax w dt) (preceding_isi st i - dt)
     /\ dt <= Qmax w dt
     /\ (nth i windows 0 < dt <-> preceding_isi st i < 2 * dt))
  /\ (forall mslope slopes,
        firing_slope mem st dt w = Ok (mslope, slopes) ->
        length slopes = length st
        /\ mslope = np_mean slopes
        /\ forall i, (i < length st)%nat ->
             exists a b,
               getitem mem (spike_index i) = Ok a
               /\ getitem mem (spike_index i - window_index i) = Ok b
               /\ nth i slopes None = fdiv (a - b) (nth i windows 0))
  /\ ((forall i, (i < length st)%nat ->
         (exists a, getitem mem (spike_index i) = Ok a)
         /\ (exists b, getitem mem (spike_index i - window_index i) = Ok b)) ->
      exists mslope slopes, firing_slope mem st dt w = Ok (mslope, slopes)).
Proof.
  intros Hlen Hdt windows spike_index window_index.
  assert (Hwlen : length windows = length st)
    by (apply firing_slope_windows_length; lia).
  assert (Hdt0 : Qeq_bool dt 0 = false) by now apply Qeq_bool_false_of_neq.
  assert (Hlt2 : (length st <? 2)%nat = false) by (apply Nat.ltb_ge; lia).
  assert (Hst_dt : forall i, (i < length st)%nat ->
            nth i (to_grid dt st) 0%Z = spike_index i).
  { intros i Hi. unfold to_grid. now rewrite (nth_map_in _ _ _ 0). }
  assert (Hw_dt : forall i, (i < length st)%nat ->
            nth i (to_grid dt windows) 0%Z = window_index i).
  { intros i Hi. unfold to_grid.
    now rewrite (nth_map_in _ _ _ 0) by (rewrite Hwlen; exact Hi). }
  assert (Hsub : forall i, (i < length st)%nat ->
            nth i (zip_with Z.sub (to_grid dt st) (to_grid dt windows)) 0%Z
            = (spike_index i - window_index i)%Z).
  { intros i Hi.
    rewrite (nth_zip_with _ _ _ _ 0%Z 0%Z)
      by (unfold to_grid; rewrite length_map; lia).
    now rewrite Hst_dt, Hw_dt. }
  split; [|split].
  - intros i Hi. subst windows.
    rewrite (nth_firing_slope_windows st dt w i Hi).
    assert (Hwin : min2 (max2 w dt) (preceding_isi st i - dt)
                   == Qmin (Qmax w dt) (preceding_isi st i - dt)).
    { rewrite min2_Qmin. now rewrite max2_Qmax. }
    split; [exact Hwin|]. split; [apply Q.le_max_r|].
    rewrite Hwin. rewrite Q.min_lt_iff.
    pose proof (Q.le_max_r w dt). split.
    + intros [H1|H1]; lra.
    + intro H1. right. lra.
  - intros mslope slopes Hcall. unfold firing_slope in Hcall.
    rewrite Hlt2, Hdt0 in Hcall. fold windows in Hcall.
    destruct (getitems mem (to_grid dt st)) as [at_spike| | |] eqn:E1;
      try discriminate.
    cbn [rbind] in Hcall.
    destruct (getitems mem (zip_with Z.sub (to_grid dt st) (to_grid dt windows)))
      as [at_start| | |] eqn:E2; try discriminate.
    cbn [rbind] in Hcall. inversion Hcall; subst mslope slopes; clear Hcall.
    destruct (getitems_ok _ _ _ E1) as [L1 N1].
    destruct (getitems_ok _ _ _ E2) as [L2 N2].
    unfold to_grid in L1. rewrite length_map in L1.
    rewrite zip_with_length in L2, N2. unfold to_grid in L2, N2.
    rewrite !length_map in L2, N2. rewrite Hwlen in L2, N2.
    rewrite Nat.min_id in L2, N2.
    split; [|split; [reflexivity|]].
    + rewrite !zip_with_length. lia.
    + intros i Hi. exists (nth i at_spike 0), (nth i at_start 0).
      split; [|split].
      * rewrite <- Hst_dt by exact Hi. apply N1.
        unfold to_grid. now rewrite length_map.
      * rewrite <- Hsub by exact Hi. now apply N2.
      * rewrite (nth_zip_with _ _ _ _ 0 0)
          by (rewrite ?zip_with_length; lia).
        rewrite (nth_zip_with _ _ _ _ 0 0) by lia. reflexivity.
  - intro Hidx. unfold firing_slope. rewrite Hlt2, Hdt0. fold windows.
    destruct (getitems_defined mem (to_grid dt st)) as [at_spike E1].
    { intros i Hi. unfold to_grid in Hi. rewrite length_map in Hi.
      rewrite Hst_dt by exact Hi. apply (Hidx i Hi). }
    destruct (getitems_defined mem
                (zip_with Z.sub (to_grid dt st) (to_grid dt windows)))
      as [at_start E2].
    { intros i Hi. rewrite zip_with_length in Hi. unfold to_grid in Hi.
      rewrite !length_map in Hi.
      rewrite Hsub by lia. apply (Hidx i). lia. }
    rewrite E1. cbn [rbind]. rewrite E2. cbn [rbind]. eauto.
Qed.

Lemma firing_slope_window_and_slope_witness :
  exists mslope slopes,
    firing_slope [0; 1; 2; 3; 4; 5; 6; 7; 8; 9; 10] [3; 7] 1 2
    = Ok (mslope, slopes).
Proof.
  apply (firing_slope_window_and_slope
           [0; 1; 2; 3; 4; 5; 6; 7; 8; 9; 10] [3; 7] 1 2).
  - simpl. lia.
  - vm_compute. discriminate.
  - intros [|[|i]] Hi; simpl in Hi; try lia;
      (split; eexists; vm_compute; reflexivity).
Defined.

(** C3 as stated fails: with [dt = 1] and the first spike at time 1 the
    first window is [min(2, 1 - 1) = 0], which is below [dt]; and with
    [w = 1/2] below [dt = 1] the first window of the train [5, 10] is
    [min(1, 5 - 1) = 1], not [min(1/2, 5 - 1)]. *)
Lemma firing_slope_window_below_dt :
  (2 <= length [1%Q; (5 # 2)%Q])%nat
  /\ nth 0 (firing_slope_windows [1; 5 # 2] 1 2) 0 < 1
  /\ ~ nth 0 (firing_slope_windows [5; 10] 1 (1 # 2)) 0
        == Qmin (1 # 2) (preceding_isi [5; 10] 0 - 1).
Proof.
  split; [simpl; lia|]. split; [vm_compute; reflexivity|].
  vm_compute. discriminate.
Qed.

Lemma firing_slope_ok_length (mem st : list Q) (dt w : Q)
      (mslope : npfloat) (slopes : list npfloat) :
  (2 <= length st)%nat ->
  firing_slope mem st dt w = Ok (mslope, slopes) ->
  length slopes = length st /\ Qeq_bool dt 0 = false.
Proof.
  intros Hlen Hcall. unfold firing_slope in Hcall.
  replace (length st <? 2)%nat with false in Hcall
    by (symmetry; apply Nat.ltb_ge; lia).
  destruct (Qeq_bool dt 0); [discriminate|].
  destruct (getitems mem (to_grid dt st)) as [at_spike| | |] eqn:E1;
    try discriminate.
  cbn [rbind] in Hcall.
  destruct (getitems mem _) as [at_start| | |] eqn:E2 in Hcall;
    try discriminate.
  cbn [rbind] in Hcall. inversion Hcall; subst; clear Hcall.
  destruct (getitems_ok _ _ _ E1) as [L1 _].
  destruct (getitems_ok _ _ _ E2) as [L2 _].
  rewrite zip_with_length in L2. unfold to_grid in L1, L2.
  rewrite length_map in L1. rewrite !length_map in L2.
  rewrite firing_slope_windows_length in L2 by lia.
  split; [|reflexivity].
  rewrite !zip_with_length, firing_slope_windows_length by lia. lia.
Qed.

(** ** norm_firing_slope *)

(** C10: whenever [norm_firing_slope] returns and at least 2 spikes are
    retained (those later than the window [max(w, dt)]), the vector of
    normalised slopes has one entry fewer than there are retained spikes,
    as many as the retained train has ISIs.  Entry [i] is computed from the
    raw slope of retained spike [i + 1], so the raw slope of the first
    retained spike enters neither the vector nor the returned mean, which
    is the mean of the vector. *)
Theorem norm_firing_slope_length
        (exp : Q -> Q) (mem st : list Q) (th tau dt w : Q)
        (mslope : npfloat) (slopes_normed : list npfloat) :
  let w' := if Qltb w dt then dt else w in
  let retained := filter (fun t => Qltb w' t) st in
  norm_firing_slope exp mem st th tau dt w = Ok (mslope, slopes_normed) ->
  (2 <= length retained)%nat ->
  length slopes_normed = (length retained - 1)%nat
  /\ length slopes_normed = length (diff retained)
  /\ mslope = np_mean slopes_normed
  /\ exists raw_mean raw slope_max slope_min,
       firing_slope mem retained dt w' = Ok (raw_mean, raw)
       /\ length raw = length retained
       /\ forall i, (i < length slopes_normed)%nat ->
            nth i slopes_normed None
            = fdivf (fsub (nth (S i) raw None) (nth i slope_min None))
                    (fsub slope_max (nth i slope_min None)).
Proof.
  intros w' retained Hcall Hret.
  unfold norm_firing_slope in Hcall. fold w' in Hcall. fold retained in Hcall.
  destruct (length st <? 2)%nat eqn:Hshort.
  { apply Nat.ltb_lt in Hshort.
    pose proof (filter_length_le (fun t => Qltb w' t) st). fold retained in H.
    lia. }
  destruct (firing_slope mem retained dt w') as [[raw_mean raw]| | |] eqn:Eraw;
    try discriminate.
  cbn [rbind] in Hcall.
  destruct (firing_slope_ok_length _ _ _ _ _ _ Hret Eraw) as [Lraw Hdt0].
  destruct retained as [|first_spike others] eqn:Eret; [simpl in Hret; lia|].
  rewrite Hdt0 in Hcall.
  destruct (getitem mem (py_int (first_spike / dt) + 1)) as [reset| | |];
    try discriminate.
  cbn [rbind] in Hcall.
  match type of Hcall with
  | Ok (np_mean ?X, _) = _ => remember X as sn eqn:Esn
  end.
  injection Hcall as Hmean Hvec. subst mslope slopes_normed.
  set (ISIs := diff (first_spike :: others)) in Esn.
  set (slope_max := fdiv (th - reset) w') in Esn.
  match type of Esn with
  | _ = zip_with _ _ ?m => set (slope_min := m) in Esn
  end.
  assert (Lmin : length slope_min = length ISIs).
  { subst slope_min. rewrite length_map, zip_with_length, length_map. lia. }
  assert (LISI : length ISIs = (length (first_spike :: others) - 1)%nat)
    by apply diff_length.
  assert (Ltl : length (tl raw) = (length (first_spike :: others) - 1)%nat).
  { destruct raw; simpl in *; lia. }
  assert (Lvec : length sn = (length (first_spike :: others) - 1)%nat).
  { rewrite Esn, zip_with_length. lia. }
  split; [exact Lvec|]. split; [fold ISIs; lia|]. split; [reflexivity|].
  exists raw_mean, raw, slope_max, slope_min.
  split; [reflexivity|]. split; [exact Lraw|].
  intros i Hi. rewrite Esn.
  rewrite (@nth_zip_with npfloat npfloat npfloat _ _ _ _ None None None) by lia.
  f_equal. f_equal. destruct raw; [simpl in Lraw; lia | reflexivity].
Qed.

Lemma norm_firing_slope_length_witness :
  exists mslope slopes_normed,
    norm_firing_slope (fun x => x) [0; 1; 2; 3; 4; 5; 6; 7; 8; 9; 10]
                      [1; 3; 5; 7] 10 5 1 1
    = Ok (mslope, slopes_normed)
    /\ length slopes_normed = 2%nat.
Proof.
  eexists. eexists. split.
  - vm_compute. reflexivity.
  - refine (proj1 (norm_firing_slope_length
                     (fun x => x) [0; 1; 2; 3; 4; 5; 6; 7; 8; 9; 10]
                     [1; 3; 5; 7] 10 5 1 1 _ _ _ _)).
    + vm_compute. reflexivity.
    + vm_compute. lia.
Defined.


(** ** Spike-triggered average *)

Lemma slice_inside {A} (a : list A) (lo hi : Z) :
  (0 <= lo <= hi)%Z -> (hi <= Z.of_nat (length a))%Z ->
  slice a lo hi = firstn (Z.to_nat (hi - lo)) (skipn (Z.to_nat lo) a).
Proof.
  intros H1 H2. unfold slice, slice_bound.
  destruct (Z.ltb_spec lo 0); [lia|].
  destruct (Z.ltb_spec hi 0); [lia|].
  rewrite !Nat.min_l by lia. f_equal. lia.
Qed.

Lemma sta_window_spec (v : list Q) (w_d t_d : Z) :
  (0 <= w_d)%Z -> (0 <= t_d <= Z.of_nat (length v))%Z ->
  length (sta_window v w_d t_d) = Z.to_nat w_d
  /\ ((w_d <= t_d)%Z ->
      sta_window v w_d t_d
      = firstn (Z.to_nat w_d) (skipn (Z.to_nat (t_d - w_d)) v))
  /\ ((t_d < w_d)%Z ->
      sta_window v w_d t_d
      = repeat 0 (Z.to_nat (w_d - t_d)) ++ firstn (Z.to_nat t_d) v).
Proof.
  intros Hw Ht. unfold sta_window.
  destruct (Z.ltb_spec w_d t_d) as [Hlt|Hge].
  - rewrite slice_inside by lia.
    replace (t_d - (t_d - w_d))%Z with w_d by lia.
    split; [|split]; [|reflexivity|lia].
    rewrite length_firstn, length_skipn. lia.
  - rewrite slice_inside by lia.
    rewrite Z.sub_0_r. change (Z.to_nat 0) with O. cbn [skipn].
    split; [|split].
    + rewrite length_app, repeat_length, length_firstn. lia.
    + intro Hle. assert (w_d = t_d) by lia. subst w_d.
      rewrite Z.sub_diag. reflexivity.
    + reflexivity.
Qed.


(** ** Spacing of trains *)

Lemma spaced_increasing (dt : Q) (l : list Q) :
  0 < dt -> spaced dt l -> increasing l.
Proof.
  intro Hdt. induction l as [|x [|y tl] IH]; intro Hsp; try exact I.
  destruct Hsp as [Hxy Htl]. split; [lra | apply IH, Htl].
Qed.

(** ** poisson_spikes *)

Section PoissonSpikes.

Variable exponential : Q -> nat -> Q.

Lemma new_interval_run (rate dt : Q) (s : world) :
  0 < rate ->
  new_interval exponential rate dt s
  = (mkWorld (S (drawn s)) (warnings s),
     Ok (if Qltb (exponential (1 / rate) (drawn s)) dt then dt
         else exponential (1 / rate) (drawn s))).
Proof.
  intro Hrate. unfold new_interval.
  rewrite (Qeq_bool_false_of_neq rate 0) by lra.
  unfold bind, random_exponential.
  assert (H : Qltb (1 / rate) 0 = false).
  { apply Qltb_ge. apply Qle_shift_div_l; lra. }
  rewrite H. reflexivity.
Qed.

Lemma clamped_interval_ge (e dt : Q) : dt <= (if Qltb e dt then dt else e).
Proof.
  destruct (Qltb e dt) eqn:E; [lra | now apply Qltb_ge in E].
Qed.

Lemma ceiling_steps (dura dt : Q) :
  0 < dt ->
  dura <= inject_Z (Z.of_nat (Z.to_nat (Qceiling (dura / dt)))) * dt.
Proof.
  intro Hdt. pose proof (Qle_ceiling (dura / dt)) as Hc.
  assert (Hz : inject_Z (Qceiling (dura / dt))
               <= inject_Z (Z.of_nat (Z.to_nat (Qceiling (dura / dt))))).
  { rewrite <- Zle_Qle. lia. }
  assert (Hd : dura == dura / dt * dt) by (field; lra).
  rewrite Hd at 1. apply Qmult_le_compat_r; lra.
Qed.

End PoissonSpikes.


(** ** Sorting, minimum and running sums *)

Lemma insert_sorted_length (x : Q) (xs : list Q) :
  length (insert_sorted x xs) = S (length xs).
Proof.
  induction xs as [|y tl IH]; [reflexivity|].
  simpl. destruct (Qle_bool x y); simpl; [reflexivity | now rewrite IH].
Qed.

Lemma sort_length (xs : list Q) : length (sort xs) = length xs.
Proof.
  induction xs as [|x tl IH]; [reflexivity|].
  simpl. rewrite insert_sorted_length. now rewrite IH.
Qed.

Lemma insert_sorted_nondecreasing (x : Q) (xs : list Q) :
  nondecreasing xs -> nondecreasing (insert_sorted x xs).
Proof.
  induction xs as [|y tl IH]; intro H; [exact I|].
  cbn [insert_sorted]. destruct (Qle_bool x y) eqn:E.
  - apply Qle_bool_iff in E. split; assumption.
  - assert (Hyx : y <= x).
    { destruct (Qlt_le_dec y x) as [H1|H1]; [lra|].
      apply Qle_bool_iff in H1. congruence. }
    destruct tl as [|z tl'].
    + simpl. split; [exact Hyx | exact I].
    + destruct H as [Hyz Htl]. specialize (IH Htl).
      cbn [insert_sorted] in *. destruct (Qle_bool x z) eqn:Ez.
      * split; [exact Hyx | exact IH].
      * split; [exact Hyz | exact IH].
Qed.

Lemma sort_nondecreasing (xs : list Q) : nondecreasing (sort xs).
Proof.
  induction xs as [|x tl IH]; [exact I|].
  simpl. now apply insert_sorted_nondecreasing.
Qed.

Lemma nondecreasing_diff_nonneg (xs : list Q) :
  nondecreasing xs -> Forall (fun d => 0 <= d) (diff xs).
Proof.
  induction xs as [|x [|y tl] IH]; intro H; try constructor.
  - destruct H. lra.
  - apply IH. now destruct H.
Qed.

Lemma fold_min_spec (tl : list Q) (acc : Q) :
  let m := fold_left (fun m y => if Qltb y m then y else m) tl acc in
  (m = acc \/ In m tl) /\ m <= acc /\ Forall (fun y => m <= y) tl.
Proof.
  revert acc. induction tl as [|y tl IH]; intro acc; cbn [fold_left].
  - cbv zeta. split; [now left|]. split; [lra | constructor].
  - specialize (IH (if Qltb y acc then y else acc)). cbv zeta in *.
    destruct IH as [Hin [Hle Hall]].
    set (m := fold_left _ tl _) in *.
    destruct (Qltb y acc) eqn:E.
    + apply Qltb_lt in E. split; [|split].
      * destruct Hin as [->|Hin]; right; [now left | now right].
      * lra.
      * constructor; [exact Hle | exact Hall].
    + apply Qltb_ge in E. split; [|split].
      * destruct Hin as [->|Hin]; [now left | right; now right].
      * exact Hle.
      * constructor; [lra | exact Hall].
Qed.

Lemma py_min_spec (xs : list Q) (m : Q) :
  py_min xs = Ok m -> In m xs /\ Forall (fun y => m <= y) xs.
Proof.
  destruct xs as [|x tl]; [discriminate|].
  cbn [py_min]. intro H. inversion H as [Hm]; clear H.
  destruct (fold_min_spec tl x) as [Hin [Hle Hall]]. cbv zeta in *.
  split.
  - destruct Hin as [->|Hin]; [now left | now right].
  - constructor; assumption.
Qed.

Lemma first_index_spec (m : Q) (xs : list Q) :
  In m xs ->
  (first_index m xs < length xs)%nat /\ nth (first_index m xs) xs 0 == m.
Proof.
  induction xs as [|x tl IH]; intro Hin; [contradiction|].
  cbn [first_index]. destruct (Qeq_bool x m) eqn:E.
  - apply Qeq_bool_iff in E. simpl. split; [lia | exact E].
  - destruct Hin as [->|Hin].
    + rewrite Qeq_bool_refl in E. discriminate.
    + destruct (IH Hin). simpl. split; [lia | assumption].
Qed.

Lemma below_zero_all_ge (dt : Q) (xs : list Q) :
  Forall (fun x => dt <= x) xs -> below dt xs = O.
Proof.
  unfold below. induction 1 as [|x tl Hx _ IH]; [reflexivity|].
  cbn [filter]. replace (Qltb x dt) with false
    by (symmetry; now apply Qltb_ge). exact IH.
Qed.

Lemma below_set_nth (dt v : Q) (xs : list Q) (i : nat) :
  (i < length xs)%nat ->
  nth i xs 0 < dt -> dt <= v ->
  S (below dt (set_nth i v xs)) = below dt xs.
Proof.
  unfold below. revert i. induction xs as [|x tl IH]; intros i Hi Hlt Hge;
    simpl in Hi; [lia|].
  destruct i as [|i].
  - cbn [nth] in Hlt. cbn [set_nth filter].
    replace (Qltb v dt) with false by (symmetry; now apply Qltb_ge).
    replace (Qltb x dt) with true by (symmetry; now apply Qltb_lt).
    reflexivity.
  - cbn [nth] in Hlt. cbn [set_nth filter].
    destruct (Qltb x dt); cbn [length]; rewrite <- (IH i); auto; lia.
Qed.

Lemma cumsum_from_spaced (dt acc : Q) (xs : list Q) :
  Forall (fun x => dt <= x) xs ->
  spaced dt (acc :: cumsum_from acc xs)
  /\ length (cumsum_from acc xs) = length xs.
Proof.
  intro H. revert acc. induction H as [|x tl Hx _ IH]; intro acc.
  - split; [exact I | reflexivity].
  - destruct (IH (acc + x)) as [Hsp Hlen].
    cbn [cumsum_from]. split.
    + split; [lra | exact Hsp].
    + simpl. now rewrite Hlen.
Qed.

Lemma cumsum_spaced (dt : Q) (xs : list Q) :
  Forall (fun x => dt <= x) xs ->
  spaced dt (cumsum xs) /\ length (cumsum xs) = length xs.
Proof.
  intro H. destruct H as [|x tl Hx Htl]; [split; [exact I | reflexivity]|].
  destruct (cumsum_from_spaced dt x tl Htl) as [Hsp Hlen].
  cbn [cumsum]. split; [exact Hsp | simpl; now rewrite Hlen].
Qed.

(** ** add_gauss_jitter *)

Section GaussJitter.

Variable normal : Q -> Q -> nat -> Q.

Lemma widen_unfold (fuel : nat) (dt : Q) (intervals : list Q) :
  widen fuel dt intervals
  = match py_min intervals with
    | Ok m =>
        if Qltb m dt then
          match fuel with
          | O => fail OutOfFuel
          | S fuel' =>
              let index := first_index m intervals in
              widen fuel' dt
                    (set_nth index (nth index intervals 0 + dt) intervals)
          end
        else ret intervals
    | Raise e => fail (Raise e)
    | Unmodelled => fail Unmodelled
    | OutOfFuel => fail OutOfFuel
    end.
Proof. destruct fuel; reflexivity. Qed.

(** The spacing loop ends: every pass lifts one interval that was below
    [dt] to [dt] or more, so as many passes as there are intervals
    suffice. *)
Lemma widen_returns (dt : Q) (s : world) :
  0 < dt ->
  forall (n : nat) (intervals : list Q),
    intervals <> [] ->
    Forall (fun x => 0 <= x) intervals ->
    (below dt intervals <= n)%nat ->
    forall fuel, (n <= fuel)%nat ->
      exists out,
        widen fuel dt intervals s = (s, Ok out)
        /\ length out = length intervals
        /\ Forall (fun x => dt <= x) out.
Proof.
  intro Hdt. induction n as [|n IH]; intros xs Hne Hpos Hbelow fuel Hfuel;
    rewrite widen_unfold;
    (destruct (py_min xs) as [m| | |] eqn:Emin;
     [|destruct xs; [contradiction | discriminate]..]);
    destruct (py_min_spec _ _ Emin) as [Hin Hmin];
    destruct (first_index_spec m xs Hin) as [Hidx Hnth];
    destruct (Qltb m dt) eqn:Em.
  - apply Qltb_lt in Em.
    assert (Hv : dt <= nth (first_index m xs) xs 0 + dt).
    { rewrite Forall_forall in Hpos.
      pose proof (Hpos _ (nth_In xs 0 Hidx)). lra. }
    pose proof (below_set_nth dt _ xs _ Hidx ltac:(lra) Hv). lia.
  - exists xs. split; [reflexivity|]. split; [reflexivity|].
    apply Qltb_ge in Em. eapply Forall_impl; [|exact Hmin].
    intros y Hy; cbv beta in Hy; lra.
  - apply Qltb_lt in Em. destruct fuel as [|fuel]; [lia|]. cbv zeta.
    assert (Hv : dt <= nth (first_index m xs) xs 0 + dt).
    { rewrite Forall_forall in Hpos.
      pose proof (Hpos _ (nth_In xs 0 Hidx)). lra. }
    pose proof (below_set_nth dt _ xs _ Hidx ltac:(lra) Hv) as Hstep.
    destruct (IH (set_nth (first_index m xs)
                          (nth (first_index m xs) xs 0 + dt) xs))
      with (fuel := fuel) as [out [Hrun [Hlen Hall]]].
    + intro E. apply (f_equal (@length Q)) in E.
      rewrite set_nth_length in E. destruct xs; [contradiction | discriminate].
    + apply Forall_forall. intros y Hy.
      apply (In_nth _ _ 0) in Hy. destruct Hy as [k [Hk <-]].
      rewrite set_nth_length in Hk. rewrite nth_set_nth by exact Hidx.
      destruct (k =? first_index m xs)%nat; [lra|].
      rewrite Forall_forall in Hpos. apply Hpos, nth_In, Hk.
    + lia.
    + lia.
    + exists out. rewrite set_nth_length in Hlen. auto.
  - exists xs. split; [reflexivity|]. split; [reflexivity|].
    apply Qltb_ge in Em. eapply Forall_impl; [|exact Hmin].
    intros y Hy; cbv beta in Hy; lra.
Qed.

(** C2, what the code does: for a jitter > 0, a step dt > 0 and a train of
    at least 2 spikes, [add_gauss_jitter] returns (as many passes of the
    spacing loop as there are spikes suffice) a strictly increasing train
    with every gap at least [dt], which has one event fewer than the input:
    the running sum of the intervals does not restore the first spike. *)
Theorem add_gauss_jitter_drops_first
        (fuel : nat) (spiketrain : list Q) (jitter dt : Q) (s : world) :
  0 < jitter -> 0 < dt ->
  (2 <= length spiketrain)%nat ->
  (length spiketrain <= fuel)%nat ->
  exists s' jspiketrain,
    add_gauss_jitter normal fuel spiketrain jitter dt s = (s', Ok jspiketrain)
    /\ increasing jspiketrain
    /\ spaced dt jspiketrain
    /\ S (length jspiketrain) = length spiketrain.
Proof.
  intros Hj Hdt Hlen Hfuel. unfold add_gauss_jitter.
  rewrite (Qeq_bool_false_of_neq jitter 0) by lra.
  unfold bind, random_normal_n.
  replace (Qltb jitter 0) with false by (symmetry; apply Qltb_ge; lra).
  set (noise := map (normal 0 jitter) (seq (drawn s) (length spiketrain))).
  set (sorted := sort (zip_with Qplus spiketrain noise)).
  assert (Lsorted : length sorted = length spiketrain).
  { subst sorted noise.
    rewrite sort_length, zip_with_length, length_map, length_seq. lia. }
  assert (Ldiff : length (diff sorted) = (length spiketrain - 1)%nat)
    by (rewrite diff_length; lia).
  destruct (widen_returns dt (mkWorld (drawn s + length spiketrain) (warnings s))
              Hdt (length (diff sorted)) (diff sorted))
    with (fuel := fuel) as [intervals [Hrun [Hl Hall]]].
  - intro E. rewrite E in Ldiff. simpl in Ldiff. lia.
  - apply nondecreasing_diff_nonneg, sort_nondecreasing.
  - unfold below. apply filter_length_le.
  - lia.
  - rewrite Hrun. unfold ret.
    destruct (cumsum_spaced dt intervals Hall) as [Hsp Hcl].
    eexists. eexists. split; [reflexivity|].
    split; [now apply (spaced_increasing dt)|]. split; [exact Hsp|]. lia.
Qed.

(** C9: with a jitter of 0, [add_gauss_jitter] returns its input as it is,
    drawing nothing, whatever the train, the step and the loop bound. *)
Theorem add_gauss_jitter_zero_identity
        (fuel : nat) (spiketrain : list Q) (jitter dt : Q) (s : world) :
  jitter == 0 ->
  add_gauss_jitter normal fuel spiketrain jitter dt s = (s, Ok spiketrain).
Proof.
  intro Hj. unfold add_gauss_jitter.
  replace (Qeq_bool jitter 0) with true
    by (symmetry; now apply Qeq_bool_iff).
  reflexivity.
Qed.

End GaussJitter.

Lemma add_gauss_jitter_drops_first_witness :
  exists s' jspiketrain,
    add_gauss_jitter (fun _ _ i => if Nat.even i then 1 # 100 else - (1 # 100))
                     3 [1; 2; 3] (1 # 10) (1 # 10) (mkWorld 0 [])
    = (s', Ok jspiketrain)
    /\ increasing jspiketrain
    /\ spaced (1 # 10) jspiketrain
    /\ S (length jspiketrain) = length [1%Q; 2%Q; 3%Q].
Proof.
  apply (add_gauss_jitter_drops_first
           (fun _ _ i => if Nat.even i then 1 # 100 else - (1 # 100))
           3 [1; 2; 3] (1 # 10) (1 # 10) (mkWorld 0 [])).
  - reflexivity.
  - reflexivity.
  - simpl. lia.
  - simpl. lia.
Defined.

(** A train of one spike has no interval, and [min] of none is a
    [ValueError]. *)
Example add_gauss_jitter_single_spike :
  snd (add_gauss_jitter (fun _ _ _ => 1 # 100) 3 [1] (1 # 10) (1 # 10)
                        (mkWorld 0 []))
  = Raise ValueError.
Proof. reflexivity. Qed.

Lemma add_gauss_jitter_zero_identity_witness :
  add_gauss_jitter (fun _ _ _ => 1) 0 [3; 1; 1] (0 # 5) (1 # 10) (mkWorld 0 [])
  = (mkWorld 0 [], Ok [3; 1; 1]).
Proof.
  apply (add_gauss_jitter_zero_identity (fun _ _ _ => 1)).
  reflexivity.
Defined.


(** ** The synchrony fraction *)

Lemma in_unit_interval_false (s : Q) :
  ~ (0 <= s /\ s <= 1) -> in_unit_interval s = false.
Proof.
  intro H. unfold in_unit_interval.
  destruct (Qle_bool 0 s) eqn:E0; [|reflexivity].
  destruct (Qle_bool s 1) eqn:E1; [|reflexivity].
  apply Qle_bool_iff in E0, E1. tauto.
Qed.

(** C1 (as amended): a synchrony fraction outside [0, 1] is replaced by 1
    in [sync_inp] and by 0 in [configure_generators].  Either call issues
    its warning and then goes on exactly as the call with that boundary
    value does; [configure_generators] then returns [n] generators of
    which none is shared. *)
Theorem synchrony_out_of_range
        (exponential : Q -> nat -> Q) (normal : Q -> Q -> nat -> Q)
        (fuel : nat) (n : Z) (rate s sigma dura dt : Q)
        (draws : nat) (log : list string) :
  ~ (0 <= s /\ s <= 1) ->
  sync_inp exponential normal fuel n rate s sigma dura dt (mkWorld draws log)
  = sync_inp exponential normal fuel n rate 1 sigma dura dt
      (mkWorld draws
         (log ++ ["Synchrony should be between 0 and 1. Setting to 1."%string]))
  /\ configure_generators n rate s sigma dt (mkWorld draws log)
     = configure_generators n rate 0 sigma dt
         (mkWorld draws
            (log ++ ["Synchrony should be between 0 and 1. Setting to 0"%string]))
  /\ configure_generators n rate s sigma dt (mkWorld draws log)
     = (mkWorld draws
          (log ++ ["Synchrony should be between 0 and 1. Setting to 0"%string]),
        Ok (append_independent (Z.to_nat n) rate dt
              (mkGroup [sync_inp_gen 0 rate sigma dt] []))).
Proof.
  intro Hs. pose proof (in_unit_interval_false s Hs) as Hout.
  assert (Hfloor : Qfloor (inject_Z n * 0) = 0%Z).
  { unfold Qfloor, inject_Z, Qmult. simpl. rewrite Z.mul_0_r. reflexivity. }
  split; [|split].
  - unfold sync_inp. rewrite Hout. reflexivity.
  - unfold configure_generators. rewrite Hout. reflexivity.
  - unfold configure_generators. rewrite Hout.
    cbn [negb]. unfold bind, warn, ret. cbn [drawn warnings].
    rewrite Hfloor. unfold range_count. rewrite Z.sub_0_r. reflexivity.
Qed.

Lemma synchrony_out_of_range_witness :
  configure_generators 3 1 2 0 (1 # 10) (mkWorld 0 [])
  = (mkWorld 0 ["Synchrony should be between 0 and 1. Setting to 0"%string],
     Ok (append_independent 3 1 (1 # 10)
           (mkGroup [sync_inp_gen 0 1 0 (1 # 10)] []))).
Proof.
  apply (synchrony_out_of_range (fun _ _ => 1) (fun _ _ _ => 0) O 3 1 2 0 1
                                (1 # 10) O []).
  intros [_ H]. vm_compute in H. apply H. reflexivity.
Defined.

(** C1 as stated fails in both composers.  With the fraction 2,
    [configure_generators] returns three generators of their own, as for
    the fraction 0, where the fraction 1 makes the three entries share one
    generator; and [sync_inp] returns two copies of one template train, as
    for the fraction 1, where the fraction 0 gives two independent
    trains. *)
Lemma synchrony_correction_is_swapped :
  let exponential := fun (_ : Q) (i : nat) =>
                       if Nat.even i then 3 # 10 else 4 # 10 in
  let normal := fun (_ _ : Q) (_ : nat) => 0 in
  let w := mkWorld 0 [] in
  snd (configure_generators 3 1 2 0 (1 # 10) w)
  = snd (configure_generators 3 1 0 0 (1 # 10) w)
  /\ snd (configure_generators 3 1 2 0 (1 # 10) w)
     <> snd (configure_generators 3 1 1 0 (1 # 10) w)
  /\ snd (sync_inp exponential normal 10 2 1 2 0 1 (1 # 10) w)
     = snd (sync_inp exponential normal 10 2 1 1 0 1 (1 # 10) w)
  /\ snd (sync_inp exponential normal 10 2 1 2 0 1 (1 # 10) w)
     <> snd (sync_inp exponential normal 10 2 1 0 0 1 (1 # 10) w).
Proof.
  cbv zeta. split; [vm_compute; reflexivity|].
  split; [vm_compute; discriminate|].
  split; [vm_compute; reflexivity|].
  vm_compute. discriminate.
Qed.


(** ** Flattening *)

Lemma flat_map_concat {A B} (f : A -> list B) (xss : list (list A)) :
  flat_map f (concat xss) = flat_map (flat_map f) xss.
Proof.
  induction xss as [|xs tl IH]; [reflexivity|].
  cbn [concat flat_map]. now rewrite flat_map_app, IH.
Qed.

(** [recursiveflat] returns all the numbers of its argument in order,
    however deep they lie. *)
Lemma recursiveflat_leaves (depth : nat) (items : list (nd depth)) :
  recursiveflat depth items = flat_map (leaves depth) items.
Proof.
  induction depth as [|d IH].
  - cbn [recursiveflat leaves]. induction items as [|x tl IHl]; [reflexivity|].
    cbn [flat_map app]. now rewrite <- IHl.
  - cbn [recursiveflat]. destruct items as [|row rows]; [reflexivity|].
    rewrite IH. apply (flat_map_concat (leaves d)).
Qed.

Lemma fold_max_spec (tl : list Q) (acc : Q) :
  let m := fold_left (fun m y => if Qltb m y then y else m) tl acc in
  (m = acc \/ In m tl) /\ acc <= m /\ Forall (fun y => y <= m) tl.
Proof.
  revert acc. induction tl as [|y tl IH]; intro acc; cbn [fold_left].
  - cbv zeta. split; [now left|]. split; [lra | constructor].
  - specialize (IH (if Qltb acc y then y else acc)). cbv zeta in *.
    destruct IH as [Hin [Hle Hall]].
    set (m := fold_left _ tl _) in *.
    destruct (Qltb acc y) eqn:E.
    + apply Qltb_lt in E. split; [|split].
      * destruct Hin as [->|Hin]; right; [now left | now right].
      * lra.
      * constructor; [exact Hle | exact Hall].
    + apply Qltb_ge in E. split; [|split].
      * destruct Hin as [->|Hin]; [now left | right; now right].
      * exact Hle.
      * constructor; [lra | exact Hall].
Qed.

Lemma py_max_spec (xs : list Q) :
  xs <> [] ->
  exists m, py_max xs = Ok m /\ In m xs /\ Forall (fun y => y <= m) xs.
Proof.
  destruct xs as [|x tl]; [contradiction|]. intros _.
  destruct (fold_max_spec tl x) as [Hin [Hle Hall]]. cbv zeta in *.
  eexists. split; [reflexivity|]. split.
  - destruct Hin as [->|Hin]; [now left | now right].
  - constructor; assumption.
Qed.

(** ** PSTH *)

Lemma psth_loop (g : nat -> Q) (m : nat) :
  forall (k : nat) (psth : list Q),
    (k + m <= length psth)%nat ->
    let out := fold_left (fun psth b => set_nth b (g b) psth) (seq k m) psth in
    length out = length psth
    /\ forall b, (b < length psth)%nat ->
         nth b out 0
         = if ((k <=? b) && (b <? k + m))%nat then g b else nth b psth 0.
Proof.
  induction m as [|m IH]; intros k psth Hlen; cbv zeta.
  - cbn [seq fold_left]. split; [reflexivity|]. intros b Hb.
    destruct (Nat.leb_spec k b), (Nat.ltb_spec b (k + 0)); simpl; auto; lia.
  - cbn [seq fold_left].
    destruct (IH (S k) (set_nth k (g k) psth)) as [Hl Hn].
    { rewrite set_nth_length. lia. }
    cbv zeta in Hl, Hn. rewrite set_nth_length in Hl, Hn.
    split; [exact Hl|]. intros b Hb. rewrite (Hn b Hb).
    rewrite nth_set_nth by lia.
    destruct (Nat.leb_spec (S k) b), (Nat.ltb_spec b (S k + m)),
             (Nat.leb_spec k b), (Nat.ltb_spec b (k + S m)),
             (Nat.eqb_spec b k); simpl; subst; auto; lia.
Qed.

Lemma duration_defined_nonneg (flatspikes : list Q) (duration : option Q) (dt : Q) :
  0 < dt ->
  duration_defined flatspikes duration ->
  exists d,
    match duration with
    | None => let* m := py_max flatspikes in Ok (m + dt)
    | Some d => Ok d
    end = Ok d
    /\ 0 <= d
    /\ (duration = None -> Forall (fun t => t + dt <= d) flatspikes).
Proof.
  intros Hdt Hdef. destruct duration as [d|].
  - exists d. split; [reflexivity|]. split; [exact Hdef | discriminate].
  - destruct Hdef as [Hne Hpos].
    destruct (py_max_spec flatspikes Hne) as [m [Hmax [Hin Hall]]].
    exists (m + dt). rewrite Hmax. split; [reflexivity|]. split.
    + rewrite Forall_forall in Hpos. pose proof (Hpos m Hin). lra.
    + intros _. eapply Forall_impl; [|exact Hall].
      intros t Ht; cbv beta in Ht; lra.
Qed.

(** ** Mapping over the trains *)

Lemma map_result_ok {A B} (f : A -> result B) (xs : list A) :
  Forall (fun x => exists y, f x = Ok y) xs ->
  exists ys, map_result f xs = Ok ys /\ length ys = length xs.
Proof.
  induction 1 as [|x tl [y Hy] _ [ys [Hys Hlen]]].
  - now exists [].
  - exists (y :: ys). cbn [map_result]. rewrite Hy, Hys.
    split; [reflexivity | simpl; now rewrite Hlen].
Qed.

Lemma last_in (t : list Q) : t <> [] -> In (last t 0) t.
Proof.
  intro H. rewrite (app_removelast_last 0 H) at 2.
  apply in_or_app. right. now left.
Qed.


(** ** Sums over adjacent ISI pairs *)

(** The index loop of [CV2] and [LV] adds up one term per adjacent pair. *)
Lemma pair_loop (g : Q -> Q -> npfloat) (term : Q -> Q -> Q) (l : list Q) :
  (forall a b, 0 < a -> 0 < b -> g a b = Some (term a b)) ->
  Forall (fun d => 0 < d) l ->
  forall (pre : list Q) (acc : Q),
    fold_left
      (fun mi_total i =>
         fadd mi_total (g (nth i (pre ++ l) 0) (nth (i + 1) (pre ++ l) 0)))
      (seq (length pre) (length l - 1)) (Some acc)
    = Some (pair_fold term acc l).
Proof.
  intros Hg. induction l as [|a [|b tl] IH]; intros Hpos pre acc;
    try reflexivity.
  inversion Hpos as [|? ? Ha Hrest]; subst.
  inversion Hrest as [|? ? Hb _]; subst.
  replace (length (a :: b :: tl) - 1)%nat with (S (length (b :: tl) - 1))
    by (simpl; lia).
  cbn [seq fold_left].
  change (pair_fold term acc (a :: b :: tl))
    with (pair_fold term (acc + term a b) (b :: tl)).
  specialize (IH Hrest (pre ++ [a]) (acc + term a b)).
  rewrite <- app_assoc in IH. cbn [app] in IH.
  rewrite length_app in IH. cbn [length] in IH.
  replace (length pre + 1)%nat with (S (length pre)) in IH by lia.
  rewrite <- IH. f_equal.
  replace (length pre + 1)%nat with (S (length pre)) by lia.
  rewrite !(app_nth2 pre) by lia.
  replace (length pre - length pre)%nat with O by lia.
  replace (S (length pre) - length pre)%nat with 1%nat by lia.
  cbn [nth]. now rewrite (Hg a b Ha Hb).
Qed.

Lemma pair_fold_bounds (term : Q -> Q -> Q) (c : Q) (l : list Q) :
  (forall a b, 0 < a -> 0 < b -> 0 <= term a b /\ term a b <= c) ->
  Forall (fun d => 0 < d) l ->
  forall acc,
    acc <= pair_fold term acc l
    /\ pair_fold term acc l
       <= acc + c * inject_Z (Z.of_nat (length l - 1)).
Proof.
  intros Hterm. induction l as [|a [|b tl] IH]; intros Hpos acc;
    try (simpl; change (inject_Z 0) with 0; split; lra).
  inversion Hpos as [|? ? Ha Hrest]; subst.
  inversion Hrest as [|? ? Hb _]; subst.
  destruct (Hterm a b Ha Hb) as [H0 Hc].
  destruct (IH Hrest (acc + term a b)) as [Hlo Hhi].
  change (pair_fold term acc (a :: b :: tl))
    with (pair_fold term (acc + term a b) (b :: tl)).
  split; [lra|].
  replace (length (a :: b :: tl) - 1)%nat with (S (length (b :: tl) - 1))
    by (simpl; lia).
  rewrite Nat2Z.inj_succ, <- Z.add_1_r, inject_Z_plus.
  change (inject_Z 1) with 1.
  set (n := inject_Z (Z.of_nat (length (b :: tl) - 1))) in *.
  setoid_replace (c * (n + 1)) with (c * n + c) by ring. lra.
Qed.

Lemma pair_fold_regular (term : Q -> Q -> Q) (d : Q) (l : list Q) :
  (forall a b, a == d -> b == d -> term a b == 0) ->
  Forall (fun x => x == d) l ->
  forall acc, pair_fold term acc l == acc.
Proof.
  intros Hterm. induction l as [|a [|b tl] IH]; intros Hreg acc;
    try reflexivity.
  inversion Hreg as [|? ? Ha Hrest]; subst.
  inversion Hrest as [|? ? Hb _]; subst.
  change (pair_fold term acc (a :: b :: tl))
    with (pair_fold term (acc + term a b) (b :: tl)).
  rewrite (IH Hrest). rewrite (Hterm a b Ha Hb). lra.
Qed.

Lemma CV2_term_bounds (a b : Q) :
  0 < a -> 0 < b -> 0 <= Qabs (a - b) / (a + b) /\ Qabs (a - b) / (a + b) <= 1.
Proof.
  intros Ha Hb. split.
  - apply Qle_shift_div_l; [lra|]. pose proof (Qabs_nonneg (a - b)). lra.
  - apply Qle_shift_div_r; [lra|].
    apply Qabs_case; intros; lra.
Qed.

Lemma LV_term_bounds (a b : Q) :
  0 < a -> 0 < b ->
  0 <= (a - b) / (a + b) * ((a - b) / (a + b))
  /\ (a - b) / (a + b) * ((a - b) / (a + b)) <= 1.
Proof.
  intros Ha Hb.
  assert (Hlo : - (1) <= (a - b) / (a + b)).
  { apply Qle_shift_div_l; lra. }
  assert (Hhi : (a - b) / (a + b) <= 1).
  { apply Qle_shift_div_r; lra. }
  set (r := (a - b) / (a + b)) in *. split; nra.
Qed.

Lemma CV2_total (st : list Q) :
  increasing st ->
  (1 <= length (diff st))%nat ->
  CV2 st
  = Some (pair_fold (fun a b => Qabs (a - b) / (a + b)) 0 (diff st) * 2
          / inject_Z (Z.of_nat (length (diff st)))).
Proof.
  intros Hinc HN. unfold CV2.
  destruct (Nat.eqb_spec (length (diff st)) 0) as [E|_]; [lia|].
  pose proof (pair_loop (fun a b => fdiv (Qabs (a - b)) (a + b))
                        (fun a b => Qabs (a - b) / (a + b)) (diff st)
                        ltac:(intros a b Ha Hb; apply fdiv_nonzero; lra)
                        (increasing_diff_positive st Hinc) [] 0) as Hloop.
  cbn [app length] in Hloop. rewrite Hloop.
  cbn [fmul fdivf flift2].
  now rewrite (fdiv_nonzero _ _ (inject_nat_nonzero _ HN)).
Qed.

Lemma LV_total (st : list Q) :
  increasing st ->
  (1 <= length (diff st))%nat ->
  LV st
  = Some (pair_fold (fun a b => (a - b) / (a + b) * ((a - b) / (a + b)))
                    0 (diff st) * 3
          / inject_Z (Z.of_nat (length (diff st)))).
Proof.
  intros Hinc HN. unfold LV.
  destruct (Nat.eqb_spec (length (diff st)) 0) as [E|_]; [lia|].
  pose proof (pair_loop
                (fun a b => option_map (fun r => r * r) (fdiv (a - b) (a + b)))
                (fun a b => (a - b) / (a + b) * ((a - b) / (a + b))) (diff st)
                ltac:(intros a b Ha Hb; cbv beta; rewrite fdiv_nonzero by lra; reflexivity)
                (increasing_diff_positive st Hinc) [] 0) as Hloop.
  cbn [app length] in Hloop. rewrite Hloop.
  cbn [fmul fdivf flift2].
  now rewrite (fdiv_nonzero _ _ (inject_nat_nonzero _ HN)).
Qed.

Lemma scaled_mean_below (total k : Q) (N : nat) :
  (1 <= N)%nat -> 0 < k ->
  0 <= total -> total <= 0 + 1 * inject_Z (Z.of_nat (N - 1)) ->
  0 <= total * k / inject_Z (Z.of_nat N)
  /\ total * k / inject_Z (Z.of_nat N) < k.
Proof.
  intros HN Hk H0 Hc.
  assert (HNpos : 0 < inject_Z (Z.of_nat N)).
  { change 0 with (inject_Z 0). rewrite <- Zlt_Qlt. lia. }
  assert (Hpred : inject_Z (Z.of_nat (N - 1)) == inject_Z (Z.of_nat N) - 1).
  { replace (Z.of_nat (N - 1)) with (Z.of_nat N + - 1)%Z by lia.
    rewrite inject_Z_plus. change (inject_Z (-1)) with (- (1)). lra. }
  rewrite Hpred in Hc. set (n := inject_Z (Z.of_nat N)) in *.
  split.
  - apply Qle_shift_div_l; [exact HNpos|]. nra.
  - apply Qlt_shift_div_r; [exact HNpos|]. nra.
Qed.

(** X1: for a strictly increasing train with at least one ISI, [CV2]
    returns a number that is at least 0 and below 2. *)
Theorem CV2_range (st : list Q) :
  increasing st ->
  (1 <= length (diff st))%nat ->
  exists r, CV2 st = Some r /\ 0 <= r /\ r < 2.
Proof.
  intros Hinc HN. rewrite (CV2_total st Hinc HN). eexists. split; [reflexivity|].
  destruct (pair_fold_bounds (fun a b => Qabs (a - b) / (a + b)) 1 (diff st)
              CV2_term_bounds (increasing_diff_positive st Hinc) 0)
    as [Hlo Hhi].
  assert (Hk : 0 < 2) by reflexivity.
  exact (scaled_mean_below _ 2 _ HN Hk Hlo Hhi).
Qed.

Lemma CV2_range_witness :
  exists r, CV2 [0; 1; 4; 5] = Some r /\ 0 <= r /\ r < 2.
Proof.
  apply (CV2_range [0; 1; 4; 5]).
  - simpl. repeat split; reflexivity.
  - simpl. lia.
Defined.

(** X2: for a strictly increasing train with at least one ISI, [LV] returns
    a number that is at least 0 and below 3. *)
Theorem LV_range (st : list Q) :
  increasing st ->
  (1 <= length (diff st))%nat ->
  exists r, LV st = Some r /\ 0 <= r /\ r < 3.
Proof.
  intros Hinc HN. rewrite (LV_total st Hinc HN). eexists. split; [reflexivity|].
  destruct (pair_fold_bounds
              (fun a b => (a - b) / (a + b) * ((a - b) / (a + b))) 1 (diff st)
              LV_term_bounds (increasing_diff_positive st Hinc) 0)
    as [Hlo Hhi].
  assert (Hk : 0 < 3) by reflexivity.
  exact (scaled_mean_below _ 3 _ HN Hk Hlo Hhi).
Qed.

Lemma LV_range_witness :
  exists r, LV [0; 1; 4; 5] = Some r /\ 0 <= r /\ r < 3.
Proof.
  apply (LV_range [0; 1; 4; 5]).
  - simpl. repeat split; reflexivity.
  - simpl. lia.
Defined.

Lemma regular_increasing (d : Q) (st : list Q) :
  0 < d -> regular d st -> increasing st.
Proof.
  intros Hd Hreg. unfold regular in Hreg.
  induction st as [|x [|y tl] IH]; try exact I.
  inversion Hreg as [|? ? Hxy Hrest]; subst.
  split; [lra | apply IH, Hrest].
Qed.

(** X3: for a regular train, one whose ISIs all equal some [d > 0], with at
    least one ISI, both [CV2] and [LV] return 0. *)
Theorem regular_train_has_no_variability (d : Q) (st : list Q) :
  0 < d -> regular d st ->
  (1 <= length (diff st))%nat ->
  (exists r, CV2 st = Some r /\ r == 0)
  /\ (exists r, LV st = Some r /\ r == 0).
Proof.
  intros Hd Hreg HN.
  pose proof (regular_increasing d st Hd Hreg) as Hinc.
  split.
  - rewrite (CV2_total st Hinc HN). eexists. split; [reflexivity|].
    rewrite (pair_fold_regular (fun a b => Qabs (a - b) / (a + b)) d (diff st)).
    + field. now apply inject_nat_nonzero.
    + intros a b Ha Hb. rewrite Ha, Hb.
      setoid_replace (d - d) with 0 by ring. change (Qabs 0) with 0.
      field. lra.
    + exact Hreg.
  - rewrite (LV_total st Hinc HN). eexists. split; [reflexivity|].
    rewrite (pair_fold_regular
               (fun a b => (a - b) / (a + b) * ((a - b) / (a + b))) d (diff st)).
    + field. now apply inject_nat_nonzero.
    + intros a b Ha Hb. rewrite Ha, Hb. field. lra.
    + exact Hreg.
Qed.

Lemma regular_train_has_no_variability_witness :
  (exists r, CV2 [1 # 100; 2 # 100; 3 # 100; 4 # 100] = Some r /\ r == 0)
  /\ (exists r, LV [1 # 100; 2 # 100; 3 # 100; 4 # 100] = Some r /\ r == 0).
Proof.
  apply (regular_train_has_no_variability
           (1 # 100) [1 # 100; 2 # 100; 3 # 100; 4 # 100]).
  - reflexivity.
  - repeat constructor.
  - simpl. lia.
Defined.


(** ** Counting the set bins *)

Lemma count_ones_set_nth (k : nat) (a : list Q) :
  (count_ones (set_nth k 1%Q a) <= S (count_ones a))%nat.
Proof.
  unfold count_ones. revert k. induction a as [|x tl IH]; intros [|k];
    cbn [set_nth filter length]; try lia.
  - change (Qeq_bool 1 1) with true. destruct (Qeq_bool x 1); simpl; lia.
  - specialize (IH k). destruct (Qeq_bool x 1); simpl; lia.
Qed.

Lemma set_nth_binary (k : nat) (a : list Q) :
  Forall (fun x => x = 0 \/ x = 1) a ->
  Forall (fun x => x = 0 \/ x = 1) (set_nth k 1 a).
Proof.
  intro H. revert k. induction H as [|x tl Hx Htl IH]; intros [|k];
    cbn [set_nth].
  - constructor.
  - constructor.
  - constructor; [now right | exact Htl].
  - constructor; [exact Hx | apply IH].
Qed.

Lemma setitems_count (idx : list Z) :
  forall a a',
    setitems a idx 1 = Ok a' ->
    (count_ones a' <= count_ones a + length idx)%nat
    /\ (Forall (fun x => x = 0 \/ x = 1) a ->
        Forall (fun x => x = 0 \/ x = 1) a').
Proof.
  induction idx as [|i rest IH]; intros a a' H.
  - inversion H; subst. split; [lia | auto].
  - cbn [setitems] in H. destruct (np_index (length a) i) as [k|]; [|discriminate].
    destruct (IH _ _ H) as [Hc Hb].
    pose proof (count_ones_set_nth k a). split.
    + simpl. lia.
    + intro Ha. apply Hb, set_nth_binary, Ha.
Qed.

Lemma zeros_count (n : Z) (a : list Q) :
  zeros n = Ok a ->
  count_ones a = O /\ Forall (fun x => x = 0 \/ x = 1) a.
Proof.
  unfold zeros. destruct (n <? 0)%Z; [discriminate|].
  intro H. inversion H; subst. clear H. split.
  - unfold count_ones. induction (Z.to_nat n) as [|m IH]; [reflexivity|].
    cbn [repeat filter]. change (Qeq_bool 0 1) with false. exact IH.
  - apply Forall_forall. intros x Hx. apply repeat_spec in Hx. now left.
Qed.

(** X4: whatever the train, the step and the duration, a bin vector that
    [times_to_bin] returns holds only 0 and 1, and the number of bins set
    is at most the number of spikes. *)
Theorem times_to_bin_never_adds_spikes
        (spikes : list Q) (dt : Q) (duration : option Q) (bintimes : list Q) :
  times_to_bin spikes dt duration = Ok bintimes ->
  Forall (fun x => x = 0 \/ x = 1) bintimes
  /\ (count_ones bintimes <= length spikes)%nat.
Proof.
  intro H. destruct spikes as [|s rest].
  - cbn [times_to_bin] in H. destruct duration as [d|].
    + destruct (Qeq_bool dt 0); [discriminate|].
      destruct (zeros_count _ _ H) as [Hc Hb]. split; [exact Hb | lia].
    + inversion H; subst. split; [apply Forall_nil | unfold count_ones; simpl; lia].
  - unfold times_to_bin in H. destruct (Qeq_bool dt 0); [discriminate|].
    set (st := to_grid dt (s :: rest)) in *.
    assert (Hst : length st = length (s :: rest))
      by (subst st; unfold to_grid; apply length_map).
    destruct (match duration with
              | Some d => Ok (py_int (d / dt))
              | None => let* m := zmax st in Ok (m + 1)%Z
              end) as [binlength| | |]; try discriminate.
    cbn [rbind] in H.
    destruct (zeros binlength) as [zs| | |] eqn:Ez; try discriminate.
    cbn [rbind] in H. destruct (zeros_count _ _ Ez) as [Hc Hb].
    destruct st as [|i0 st'] eqn:Est; [discriminate|].
    apply setitems_count in H. destruct H as [Hcount Hbin].
    split; [apply Hbin, Hb|].
    destruct (last (i0 :: st') 0 >? binlength)%Z.
    + pose proof (filter_length_le (fun i => (i <? binlength)%Z) (i0 :: st')).
      lia.
    + lia.
Qed.

Lemma times_to_bin_never_adds_spikes_witness :
  Forall (fun x => x = 0 \/ x = 1) [0; 1; 0; 1]
  /\ (count_ones [0%Q; 1%Q; 0%Q; 1%Q]
      <= length [(11 # 10)%Q; (12 # 10)%Q; 3%Q; 9%Q])%nat.
Proof.
  apply (times_to_bin_never_adds_spikes [11 # 10; 12 # 10; 3; 9] 1 (Some 4)).
  reflexivity.
Defined.

Lemma count_ones_indicator (P : nat -> bool) (l : list Q) :
  forall k,
    (forall b, (b < length l)%nat ->
       nth b l 0 = if P (k + b)%nat then 1 else 0) ->
    count_ones l = length (filter P (seq k (length l))).
Proof.
  unfold count_ones. induction l as [|x tl IH]; intros k H; [reflexivity|].
  cbn [length seq filter].
  pose proof (H O ltac:(simpl; lia)) as H0. cbn [nth] in H0.
  rewrite Nat.add_0_r in H0.
  assert (IH' := IH (S k)). rewrite H0.
  destruct (P k);
    [change (Qeq_bool 1 1) with true | change (Qeq_bool 0 1) with false];
    cbn [length]; rewrite IH'; try reflexivity;
    intros b Hb; specialize (H (S b) ltac:(simpl; lia)); cbn [nth] in H;
    now replace (S k + b)%nat with (k + S b)%nat by lia.
Qed.

Lemma filter_or_disjoint {A} (p q : A -> bool) (l : list A) :
  (forall x, In x l -> p x = true -> q x = false) ->
  length (filter (fun x => p x || q x) l)
  = (length (filter p l) + length (filter q l))%nat.
Proof.
  induction l as [|x tl IH]; intro H; [reflexivity|].
  cbn [filter].
  assert (IH' := IH (fun y Hy => H y (or_intror Hy))).
  pose proof (H x (or_introl eq_refl)) as Hx.
  destruct (p x) eqn:Ep.
  - rewrite (Hx eq_refl). cbn [orb length]. lia.
  - cbn [orb]. destruct (q x); cbn [length]; lia.
Qed.

Lemma index_hits (x : Z) (L : nat) :
  forall k,
    length (filter (fun b => (x =? Z.of_nat b)%Z) (seq k L))
    = if ((Z.of_nat k <=? x) && (x <? Z.of_nat (k + L)))%Z then 1%nat else O.
Proof.
  induction L as [|L IH]; intro k.
  - cbn [seq filter length].
    destruct (Z.leb_spec (Z.of_nat k) x), (Z.ltb_spec x (Z.of_nat (k + 0)));
      simpl; auto; lia.
  - cbn [seq filter]. specialize (IH (S k)).
    destruct (Z.eqb_spec x (Z.of_nat k)); cbn [length]; rewrite IH;
      destruct (Z.leb_spec (Z.of_nat (S k)) x),
               (Z.ltb_spec x (Z.of_nat (S k + L))),
               (Z.leb_spec (Z.of_nat k) x),
               (Z.ltb_spec x (Z.of_nat (k + S L)));
      simpl; auto; lia.
Qed.

Lemma hits_nodup (idx : list Z) (L : nat) :
  NoDup idx ->
  Forall (fun i => (0 <= i < Z.of_nat L)%Z) idx ->
  length (filter (fun b => existsb (fun i => (i =? Z.of_nat b)%Z) idx) (seq 0 L))
  = length idx.
Proof.
  induction 1 as [|x rest Hnotin _ IH]; intro Hall.
  - cbn [existsb]. induction (seq 0 L) as [|b tl IHt]; [reflexivity | exact IHt].
  - inversion Hall as [|? ? Hx Hrest]; subst.
    cbn [existsb length].
    rewrite (filter_or_disjoint (fun b => (x =? Z.of_nat b)%Z)
               (fun b => existsb (fun i => (i =? Z.of_nat b)%Z) rest)).
    + rewrite index_hits, (IH Hrest).
      destruct (Z.leb_spec (Z.of_nat 0) x), (Z.ltb_spec x (Z.of_nat (0 + L)));
        simpl; simpl in *; lia.
    + intros b _ Hb. apply Z.eqb_eq in Hb. subst x.
      destruct (existsb _ rest) eqn:E; [|reflexivity].
      apply existsb_exists in E. destruct E as [i [Hi Heq]].
      apply Z.eqb_eq in Heq. subst i. contradiction.
Qed.

Lemma fold_zmax_spec (tl : list Z) (x : Z) :
  let m := fold_left Z.max tl x in
  (x <= m)%Z /\ Forall (fun y => (y <= m)%Z) tl /\ (m = x \/ In m tl).
Proof.
  revert x. induction tl as [|y tl IH]; intro x; cbn [fold_left]; cbv zeta.
  - split; [lia|]. split; [constructor | now left].
  - specialize (IH (Z.max x y)). cbv zeta in IH.
    destruct IH as [H1 [H2 H3]]. set (m := fold_left Z.max tl (Z.max x y)) in *.
    split; [lia|]. split.
    + constructor; [lia | exact H2].
    + destruct H3 as [H3|H3]; [|right; now right].
      destruct (Z.max_spec x y) as [[_ E]|[_ E]]; rewrite E in H3.
      * right. now left.
      * now left.
Qed.

(** X5: when no duration is given, for a step dt > 0 and a non-empty,
    strictly increasing train of non-negative times, [times_to_bin] returns
    a vector that ends at the bin of the last spike: it has one bin more
    than the last grid index, a bin is 1 exactly when a spike has its grid
    index, the last bin is 1, and if no two spikes share a grid index the
    number of bins set is the number of spikes. *)
Theorem times_to_bin_inferred_duration (spikes : list Q) (dt : Q) :
  0 < dt ->
  spikes <> [] ->
  Forall (fun t => 0 <= t) spikes ->
  increasing spikes ->
  exists bintimes,
    times_to_bin spikes dt None = Ok bintimes
    /\ length bintimes = S (Z.to_nat (py_int (last spikes 0 / dt)))
    /\ (forall b, (b < length bintimes)%nat ->
          nth b bintimes 0 =
          if existsb (fun t => (py_int (t / dt) =? Z.of_nat b)%Z) spikes
          then 1 else 0)
    /\ nth (Z.to_nat (py_int (last spikes 0 / dt))) bintimes 0 = 1
    /\ (NoDup (to_grid dt spikes) -> count_ones bintimes = length spikes).
Proof.
  intros Hdt Hne Hpos Hinc.
  destruct spikes as [|s rest]; [contradiction|].
  pose proof (increasing_le_last _ Hinc) as Hle.
  pose proof (last_in _ Hne) as Hlast_in.
  set (top := py_int (last (s :: rest) 0 / dt)) in *.
  assert (Htop0 : (0 <= top)%Z).
  { apply grid_index_nonneg; [exact Hdt|].
    rewrite Forall_forall in Hpos. now apply Hpos. }
  assert (Hidx : Forall (fun i => (0 <= i <= top)%Z) (to_grid dt (s :: rest))).
  { apply Forall_forall. intros i Hi. unfold to_grid in Hi.
    apply in_map_iff in Hi. destruct Hi as [t [<- Ht]].
    rewrite Forall_forall in Hpos, Hle. split.
    - apply grid_index_nonneg; auto.
    - apply grid_index_mono; auto. }
  assert (Hmax : zmax (to_grid dt (s :: rest)) = Ok top).
  { pose proof (last_to_grid dt s rest) as Hl. fold top in Hl.
    assert (Hin : In top (to_grid dt (s :: rest))).
    { rewrite <- Hl. clear. unfold to_grid. cbn [map].
      set (l := map _ rest). generalize (py_int (s / dt)) as i.
      induction l as [|j tl IH]; intro i; [now left|].
      change (last (i :: j :: tl) 0%Z) with (last (j :: tl) 0%Z).
      right. apply IH. }
    unfold to_grid in *. cbn [map zmax] in *.
    destruct (fold_zmax_spec (map (fun t => py_int (t / dt)) rest)
                (py_int (s / dt))) as [H1 [H2 H3]].
    cbv zeta in *. set (m := fold_left Z.max _ _) in *.
    f_equal. inversion Hidx as [|? ? Hs Hrest]; subst.
    assert (m <= top)%Z.
    { destruct H3 as [->|H3]; [lia|].
      rewrite Forall_forall in Hrest. apply Hrest in H3. lia. }
    assert (top <= m)%Z.
    { destruct Hin as [<-|Hin]; [lia|].
      rewrite Forall_forall in H2. now apply H2. }
    lia. }
  destruct (setitems_in_range (to_grid dt (s :: rest))
              (repeat 0 (Z.to_nat (top + 1))) 1)
    as [bintimes [Hset [Hlength Hnth]]].
  { rewrite repeat_length. rewrite Z2Nat.id by lia.
    eapply Forall_impl; [|exact Hidx]. intros i Hi; cbv beta in Hi; lia. }
  rewrite repeat_length in Hlength, Hnth.
  assert (Hchar : forall b, (b < length bintimes)%nat ->
            nth b bintimes 0 =
            if existsb (fun t => (py_int (t / dt) =? Z.of_nat b)%Z) (s :: rest)
            then 1 else 0).
  { intros b Hb. rewrite Hlength in Hb. rewrite (Hnth b Hb).
    rewrite nth_repeat, existsb_to_grid. reflexivity. }
  exists bintimes. split; [|split; [|split; [|split]]].
  - unfold times_to_bin.
    rewrite (Qeq_bool_false_of_neq dt 0) by lra.
    rewrite Hmax. cbn [rbind]. unfold zeros.
    destruct (Z.ltb_spec (top + 1) 0); [lia|]. cbn [rbind].
    assert (Hno : (last (to_grid dt (s :: rest)) 0 >? top + 1)%Z = false).
    { rewrite last_to_grid. fold top.
      destruct (Z.gtb_spec top (top + 1)); [lia | reflexivity]. }
    rewrite Hno. unfold to_grid at 1. cbn [map]. exact Hset.
  - rewrite Hlength. lia.
  - exact Hchar.
  - rewrite Hchar by (rewrite Hlength; lia).
    replace (existsb _ (s :: rest)) with true; [reflexivity|].
    symmetry. apply existsb_exists. exists (last (s :: rest) 0).
    split; [exact Hlast_in|]. fold top. apply Z.eqb_eq. lia.
  - intro Hnd.
    rewrite (count_ones_indicator
               (fun b => existsb (fun t => (py_int (t / dt) =? Z.of_nat b)%Z)
                                 (s :: rest)) bintimes O Hchar).
    rewrite <- (length_map (fun t => py_int (t / dt)) (s :: rest)).
    fold (to_grid dt (s :: rest)).
    rewrite <- (hits_nodup (to_grid dt (s :: rest)) (length bintimes) Hnd).
    + f_equal. apply filter_ext. intro b. symmetry. apply existsb_to_grid.
    + rewrite Hlength. eapply Forall_impl; [|exact Hidx].
      intros i Hi; cbv beta in Hi; lia.
Qed.

Lemma times_to_bin_inferred_duration_witness :
  exists bintimes,
    times_to_bin [3 # 2; 5 # 2; 9 # 2] 1 None = Ok bintimes
    /\ length bintimes = 5%nat.
Proof.
  destruct (times_to_bin_inferred_duration [3 # 2; 5 # 2; 9 # 2] 1)
    as [bintimes [Hcall [Hlen _]]].
  - reflexivity.
  - discriminate.
  - repeat constructor; unfold Qle; simpl; lia.
  - simpl. repeat split; reflexivity.
  - exists bintimes. split; [exact Hcall | exact Hlen].
Defined.


(** ** Rows of a mapped result *)

Lemma map_result_nth {A B} (f : A -> result B) (xs : list A) (ys : list B)
      (d : A) (d' : B) :
  map_result f xs = Ok ys ->
  length ys = length xs
  /\ forall i, (i < length xs)%nat -> f (nth i xs d) = Ok (nth i ys d').
Proof.
  revert ys. induction xs as [|x tl IH]; intros ys H.
  - inversion H; subst. split; [reflexivity | simpl; intros; lia].
  - cbn [map_result] in H. destruct (f x) as [y| | |] eqn:Ey; try discriminate.
    cbn [rbind] in H.
    destruct (map_result f tl) as [ys'| | |]; try discriminate.
    cbn [rbind] in H. inversion H; subst.
    destruct (IH ys' eq_refl) as [Hlen Hnth].
    split; [simpl; now rewrite Hlen|].
    intros [|i] Hi; [exact Ey|]. simpl in Hi. simpl. apply Hnth. lia.
Qed.

(** ** recursiveflat *)

(** X7: [recursiveflat] returns all the numbers of a sequence nested to any
    one depth, in their order, none lost and none repeated; a sequence of
    trains is turned into their concatenation, and a flat sequence is
    returned as it is. *)
Theorem recursiveflat_flattens :
  (forall depth (items : list (nd depth)),
      recursiveflat depth items = flat_map (leaves depth) items)
  /\ (forall trains : list (list Q), recursiveflat 1 trains = concat trains)
  /\ (forall depth (items : list (nd depth)),
        recursiveflat 0 (recursiveflat depth items) = recursiveflat depth items).
Proof.
  split; [exact recursiveflat_leaves|]. split; [|reflexivity].
  intro trains. rewrite recursiveflat_leaves.
  induction trains as [|t tl IH]; [reflexivity|].
  cbn [flat_map concat]. rewrite IH. f_equal.
  cbn [leaves]. induction t as [|x t IHt]; [reflexivity|].
  cbn [flat_map app]. now rewrite IHt.
Qed.


(** ** Totals of PSTH *)

Lemma PSTH_value (depth : nat) (items : list (nd depth)) (spikes : pyobject)
      (bin dt : Q) (duration : option Q) :
  spikes = PyList depth items \/ spikes = PyDict depth items ->
  0 < dt ->
  duration_defined (flat_map (leaves depth) items) duration ->
  exists d psth,
    0 <= d
    /\ (duration = None ->
        Forall (fun t => t + dt <= d) (flat_map (leaves depth) items))
    /\ (forall d', duration = Some d' -> d = d')
    /\ PSTH spikes bin dt duration = Ok (arange d (max2 bin dt), psth)
    /\ length psth = Z.to_nat (py_int (d / max2 bin dt))
    /\ forall b, (b < length psth)%nat ->
         nth b psth 0
         = inject_Z (Z.of_nat
             (count_between (inject_Z (Z.of_nat b) * max2 bin dt)
                            (inject_Z (Z.of_nat b + 1) * max2 bin dt)
                            (flat_map (leaves depth) items))).
Proof.
  intros Hshape Hdt Hdef.
  assert (Hitems : container_items spikes = Ok (mkNd depth items))
    by (destruct Hshape as [-> | ->]; reflexivity).
  destruct (duration_defined_nonneg _ _ dt Hdt Hdef) as [d [Hd [Hd0 Hall]]].
  assert (Hbin : 0 < max2 bin dt).
  { unfold max2. destruct (Qltb bin dt) eqn:E; [exact Hdt|].
    apply Qltb_ge in E. lra. }
  pose proof (grid_index_nonneg (max2 bin dt) d Hbin Hd0) as Hn.
  set (nbins := py_int (d / max2 bin dt)) in *.
  set (g := fun b : nat =>
              inject_Z (Z.of_nat
                (count_between (inject_Z (Z.of_nat b) * max2 bin dt)
                               (inject_Z (Z.of_nat b + 1) * max2 bin dt)
                               (flat_map (leaves depth) items)))).
  destruct (psth_loop g (Z.to_nat nbins) O (repeat 0 (Z.to_nat nbins)))
    as [Hl Hnth].
  { rewrite repeat_length. lia. }
  cbv zeta in Hl, Hnth. rewrite repeat_length in Hl, Hnth.
  exists d, (fold_left (fun psth b => set_nth b (g b) psth)
                       (seq 0 (Z.to_nat nbins)) (repeat 0 (Z.to_nat nbins))).
  split; [exact Hd0|]. split; [exact Hall|]. split.
  { intros d' E. subst duration. now inversion Hd. }
  split; [|split; [exact Hl|]].
  - unfold PSTH. fold (max2 bin dt). rewrite Hitems. cbn [rbind nd_depth nd_items].
    rewrite recursiveflat_leaves. rewrite Hd. cbn [rbind].
    rewrite (Qeq_bool_false_of_neq (max2 bin dt) 0) by lra.
    fold nbins. unfold zeros.
    destruct (Z.ltb_spec nbins 0); [lia|]. cbn [rbind]. reflexivity.
  - intros b Hb. rewrite Hl in Hb. rewrite (Hnth b Hb).
    cbn [Nat.add]. destruct (Nat.ltb_spec b (Z.to_nat nbins)); [|lia].
    reflexivity.
Qed.

Lemma count_between_split (lo mid hi : Q) (xs : list Q) :
  lo <= mid -> mid <= hi ->
  count_between lo hi xs
  = (count_between lo mid xs + count_between mid hi xs)%nat.
Proof.
  intros H1 H2. unfold count_between.
  induction xs as [|x tl IH]; [reflexivity|]. cbn [filter].
  destruct (Qle_bool lo x) eqn:Elo, (Qltb x hi) eqn:Ehi,
           (Qltb x mid) eqn:Emid, (Qle_bool mid x) eqn:Emx;
    cbn [andb length]; try lia;
    exfalso;
    repeat match goal with
           | H : Qle_bool _ _ = true |- _ => apply Qle_bool_iff in H
           | H : Qle_bool ?a ?b = false |- _ =>
               assert (~ a <= b) by (intro Hc; apply Qle_bool_iff in Hc; congruence);
               clear H
           | H : Qltb _ _ = true |- _ => apply Qltb_lt in H
           | H : Qltb _ _ = false |- _ => apply Qltb_ge in H
           end; lra.
Qed.

Lemma count_between_le (lo hi : Q) (xs : list Q) :
  (count_between lo hi xs <= length xs)%nat.
Proof. apply filter_length_le. Qed.

Lemma qsum_snoc (xs : list Q) (x : Q) : qsum (xs ++ [x]) = qsum xs + x.
Proof. unfold qsum. now rewrite fold_left_app. Qed.

(** The bins of a histogram of width [w] tile [[0, n w)]: their counts add
    up to the number of values in that interval. *)
Lemma psth_partition (w : Q) (xs : list Q) (psth : list Q) :
  0 < w ->
  (forall b, (b < length psth)%nat ->
     nth b psth 0
     = inject_Z (Z.of_nat (count_between (inject_Z (Z.of_nat b) * w)
                                         (inject_Z (Z.of_nat b + 1) * w) xs))) ->
  qsum psth
  == inject_Z (Z.of_nat
       (count_between 0 (inject_Z (Z.of_nat (length psth)) * w) xs)).
Proof.
  intro Hw. induction psth as [|c psth IH] using rev_ind; intro H.
  - cbn [length]. change (inject_Z (Z.of_nat 0)) with 0.
    unfold qsum. cbn [fold_left].
    replace (count_between 0 (0 * w) xs) with O; [reflexivity|].
    symmetry. unfold count_between. apply length_zero_iff_nil. clear H.
    induction xs as [|x tl IHx]; [reflexivity|]. cbn [filter].
    destruct (Qle_bool 0 x) eqn:E0, (Qltb x (0 * w)) eqn:E1; cbn [andb];
      try exact IHx.
    apply Qle_bool_iff in E0. apply Qltb_lt in E1. lra.
  - rewrite qsum_snoc. rewrite length_app. cbn [length].
    rewrite IH.
    + pose proof (H (length psth) ltac:(rewrite length_app; simpl; lia)) as Hc.
      rewrite app_nth2 in Hc by lia. rewrite Nat.sub_diag in Hc. cbn [nth] in Hc.
      rewrite Hc.
      assert (Hn0 : 0 <= inject_Z (Z.of_nat (length psth))).
      { change 0 with (inject_Z 0). rewrite <- Zle_Qle. lia. }
      replace (Z.of_nat (length psth + 1)) with (Z.of_nat (length psth) + 1)%Z
        by lia.
      rewrite (count_between_split 0 (inject_Z (Z.of_nat (length psth)) * w)
                 (inject_Z (Z.of_nat (length psth) + 1) * w)).
      * rewrite Nat2Z.inj_add. now rewrite (inject_Z_plus (Z.of_nat _) (Z.of_nat _)).
      * nra.
      * rewrite inject_Z_plus. change (inject_Z 1) with 1. nra.
    + intros b Hb. specialize (H b ltac:(rewrite length_app; simpl; lia)).
      rewrite app_nth1 in H by exact Hb. exact H.
Qed.

(** X8: on a list or a dict (nested to any one depth) for which the
    duration is defined, [PSTH] returns counts that add up to the number of
    flattened spike times in [[0, nbins * bin)], where [bin] is the bin
    width raised to [dt] and [nbins] the number of bins; so the counts
    never add up to more than the number of spikes. *)
Theorem PSTH_total (depth : nat) (items : list (nd depth)) (spikes : pyobject)
        (bin dt : Q) (duration : option Q) :
  spikes = PyList depth items \/ spikes = PyDict depth items ->
  0 < dt ->
  duration_defined (flat_map (leaves depth) items) duration ->
  exists times psth,
    PSTH spikes bin dt duration = Ok (times, psth)
    /\ qsum psth
       == inject_Z (Z.of_nat
            (count_between 0 (inject_Z (Z.of_nat (length psth)) * max2 bin dt)
                           (flat_map (leaves depth) items)))
    /\ qsum psth <= inject_Z (Z.of_nat (length (flat_map (leaves depth) items))).
Proof.
  intros Hshape Hdt Hdef.
  destruct (PSTH_value depth items spikes bin dt duration Hshape Hdt Hdef)
    as [d [psth [_ [_ [_ [Hcall [_ Hnth]]]]]]].
  assert (Hbin : 0 < max2 bin dt).
  { unfold max2. destruct (Qltb bin dt) eqn:E; [exact Hdt|].
    apply Qltb_ge in E. lra. }
  pose proof (psth_partition _ _ _ Hbin Hnth) as Hsum.
  exists (arange d (max2 bin dt)), psth.
  split; [exact Hcall|]. split; [exact Hsum|].
  rewrite Hsum. rewrite <- Zle_Qle. apply Nat2Z.inj_le, count_between_le.
Qed.

Lemma PSTH_total_witness :
  exists times psth,
    PSTH (PyList 1 [[1 # 2; 3 # 2]; [3 # 2]]) 1 1 (Some 1) = Ok (times, psth)
    /\ qsum psth <= 3.
Proof.
  destruct (PSTH_total 1 [[1 # 2; 3 # 2]; [3 # 2]]
                       (PyList 1 [[1 # 2; 3 # 2]; [3 # 2]]) 1 1 (Some 1))
    as [times [psth [Hcall [_ Hle]]]].
  - now left.
  - reflexivity.
  - unfold duration_defined, Qle; simpl; lia.
  - exists times, psth. split; [exact Hcall | exact Hle].
Defined.


(** ** Floor and ceiling *)

Lemma floor_ceiling_gap (x : Q) :
  (Qfloor x <= Qceiling x <= Qfloor x + 1)%Z
  /\ (Qceiling x = Qfloor x <-> exists k : Z, x == inject_Z k).
Proof.
  pose proof (Qfloor_le x) as H1. pose proof (Qlt_floor x) as H2.
  pose proof (Qle_ceiling x) as H3. pose proof (Qceiling_lt x) as H4.
  assert (A : inject_Z (Qceiling x - 1) < inject_Z (Qfloor x + 1)) by lra.
  rewrite <- Zlt_Qlt in A.
  pose proof (Qle_floor_ceiling x) as B. rewrite <- Zle_Qle in B.
  split; [lia|]. split.
  - intro E. exists (Qfloor x). rewrite E in H3. lra.
  - intros [k Hk]. rewrite (Qfloor_comp _ _ Hk), Qfloor_Z.
    unfold Qceiling. assert (Hn : - x == inject_Z (- k)).
    { rewrite Hk. unfold inject_Z, Qopp, Qeq. simpl. lia. }
    rewrite (Qfloor_comp _ _ Hn), Qfloor_Z. lia.
Qed.

(** ** A duration too short for poisson_spikes *)

Section PoissonTooShort.

Variable exponential : Q -> nat -> Q.

Lemma poisson_first_never_exits (dura rate dt : Q) :
  0 < rate -> dura <= dt ->
  forall fuel s,
    snd (poisson_first exponential fuel dura rate dt [] s) = OutOfFuel.
Proof.
  intros Hrate Hshort. induction fuel as [|fuel IH]; intro s; [reflexivity|].
  cbn [poisson_first]. unfold bind.
  rewrite (new_interval_run exponential rate dt s Hrate).
  set (c := if Qltb (exponential (1 / rate) (drawn s)) dt then dt
            else exponential (1 / rate) (drawn s)).
  assert (Hc : Qltb c dura = false).
  { apply Qltb_ge. pose proof (clamped_interval_ge
                                 (exponential (1 / rate) (drawn s)) dt).
    fold c in H. lra. }
  rewrite Hc. apply IH.
Qed.

(** X11: when the duration is not above [dt], [poisson_spikes] never
    returns: every interval is raised to at least [dt], so none is below
    the duration and the first loop runs on, whatever is drawn and however
    many passes it is given. *)
Theorem poisson_spikes_short_duration_never_returns
        (dura rate dt : Q) (fuel : nat) (s : world) :
  0 < rate -> dura <= dt ->
  snd (poisson_spikes exponential fuel dura rate dt s) = OutOfFuel.
Proof.
  intros Hrate Hshort. unfold poisson_spikes, bind.
  pose proof (poisson_first_never_exits dura rate dt Hrate Hshort fuel s) as H.
  destruct (poisson_first exponential fuel dura rate dt [] s) as [s1 r].
  cbn [snd] in H. subst r. reflexivity.
Qed.

End PoissonTooShort.

Lemma poisson_spikes_short_duration_never_returns_witness :
  snd (poisson_spikes (fun _ _ => 1 # 1000) 50 (1 # 10000) 20 (1 # 10000)
                      (mkWorld 0 []))
  = OutOfFuel.
Proof.
  apply (poisson_spikes_short_duration_never_returns (fun _ _ => 1 # 1000)).
  - reflexivity.
  - unfold Qle; simpl; lia.
Defined.


(** ** The unbounded generators *)

Section GeneratorReads.

Variable exponential : Q -> nat -> Q.
Variable normal : Q -> Q -> nat -> Q.

(** A read that starts a new interval, without jitter. *)
Lemma generator_next_new_interval (g : generator) (s : world) :
  0 < gen_rate g -> gen_jitter g <= 0 ->
  gen_iter g = gen_n g ->
  let c := if Qltb (exponential (1 / gen_rate g) (drawn s)) (gen_dt g)
           then gen_dt g else exponential (1 / gen_rate g) (drawn s) in
  generator_next exponential normal g s
  = (mkWorld (S (drawn s)) (warnings s),
     Ok (gen_t g + c + 0,
         mkGenerator (gen_n g) (gen_rate g) (gen_jitter g) (gen_dt g)
                     (gen_t g + c) (gen_t g) 1)).
Proof.
  intros Hrate Hj Hiter. cbv zeta. unfold generator_next.
  rewrite Hiter, Z.eqb_refl. unfold bind at 1. unfold bind at 1.
  rewrite (new_interval_run exponential (gen_rate g) (gen_dt g) s Hrate).
  unfold ret at 1. cbv beta iota.
  replace (Qltb 0 (gen_jitter g)) with false by (symmetry; now apply Qltb_ge).
  reflexivity.
Qed.

(** A read that repeats the current base time, without jitter. *)
Lemma generator_next_repeat (g : generator) (s : world) :
  gen_jitter g <= 0 ->
  gen_iter g <> gen_n g ->
  generator_next exponential normal g s
  = (s, Ok (gen_t g + 0,
            mkGenerator (gen_n g) (gen_rate g) (gen_jitter g) (gen_dt g)
                        (gen_t g) (gen_prev_t g) (gen_iter g + 1))).
Proof.
  intros Hj Hiter. unfold generator_next.
  replace (gen_iter g =? gen_n g)%Z with false
    by (symmetry; now apply Z.eqb_neq).
  unfold bind, ret.
  replace (Qltb 0 (gen_jitter g)) with false by (symmetry; now apply Qltb_ge).
  reflexivity.
Qed.

End GeneratorReads.


(** ** The group of generators *)

Lemma append_independent_spec (count : nat) (rate dt : Q) :
  forall (objs : list generator) (refs : list nat),
    append_independent count rate dt (mkGroup objs refs)
    = mkGroup (objs ++ repeat (sync_inp_gen 1 rate 0 dt) count)
              (refs ++ seq (length objs) count).
Proof.
  induction count as [|c IH]; intros objs refs.
  - cbn [append_independent repeat seq]. now rewrite !app_nil_r.
  - cbn [append_independent objects spiketrains]. rewrite IH.
    rewrite <- !app_assoc. cbn [app repeat seq].
    rewrite length_app. cbn [length].
    now replace (length objs + 1)%nat with (S (length objs)) by lia.
Qed.

Lemma linked_count_bounds (n : Z) (sync : Q) :
  (0 <= n)%Z -> 0 <= sync -> sync <= 1 ->
  (0 <= Qfloor (inject_Z n * sync) <= n)%Z.
Proof.
  intros Hn H0 H1.
  assert (Hq : 0 <= inject_Z n).
  { change 0 with (inject_Z 0). now rewrite <- Zle_Qle. }
  split.
  - change 0%Z with (Qfloor 0). apply Qfloor_resp_le. nra.
  - rewrite <- (Qfloor_Z n) at 2. apply Qfloor_resp_le. nra.
Qed.

Lemma configure_generators_value
      (n : Z) (rate sync jitter dt : Q) (s : world) :
  (0 <= n)%Z -> 0 <= sync -> sync <= 1 ->
  let k := Qfloor (inject_Z n * sync) in
  configure_generators n rate sync jitter dt s
  = (s, Ok (mkGroup
              (sync_inp_gen k rate jitter dt
               :: repeat (sync_inp_gen 1 rate 0 dt) (Z.to_nat (n - k)))
              (repeat O (Z.to_nat k) ++ seq 1 (Z.to_nat (n - k)))))
  /\ (0 <= k <= n)%Z.
Proof.
  intros Hn H0 H1 k.
  pose proof (linked_count_bounds n sync Hn H0 H1) as Hk. fold k in Hk.
  split; [|exact Hk].
  unfold configure_generators.
  assert (Hin : in_unit_interval sync = true).
  { unfold in_unit_interval. apply andb_true_iff.
    split; now apply Qle_bool_iff. }
  rewrite Hin. cbn [negb]. unfold bind, ret. fold k.
  rewrite append_independent_spec. unfold range_count.
  rewrite Z.sub_0_r. reflexivity.
Qed.

(** X14: for [n >= 0] and a synchrony fraction in [0, 1],
    [configure_generators] draws nothing and warns of nothing, and returns
    [n] entries: the first [k = floor(n * sync)] all refer to one and the
    same generator object, made for [k] linked trains with the jitter, and
    each of the other [n - k] refers to a generator of its own, made for one
    train without jitter. *)
Theorem configure_generators_structure
        (n : Z) (rate sync jitter dt : Q) (s : world) :
  (0 <= n)%Z -> 0 <= sync -> sync <= 1 ->
  let k := Qfloor (inject_Z n * sync) in
  configure_generators n rate sync jitter dt s
  = (s, Ok (mkGroup
              (sync_inp_gen k rate jitter dt
               :: repeat (sync_inp_gen 1 rate 0 dt) (Z.to_nat (n - k)))
              (repeat O (Z.to_nat k) ++ seq 1 (Z.to_nat (n - k)))))
  /\ (length (repeat O (Z.to_nat k) ++ seq 1 (Z.to_nat (n - k))) = Z.to_nat n)%nat
  /\ NoDup (seq 1 (Z.to_nat (n - k))).
Proof.
  intros Hn H0 H1 k.
  destruct (configure_generators_value n rate sync jitter dt s Hn H0 H1)
    as [Hcfg Hk].
  fold k in Hcfg, Hk. split; [exact Hcfg|]. split.
  - rewrite length_app, repeat_length, length_seq. lia.
  - apply seq_NoDup.
Qed.

Lemma configure_generators_structure_witness :
  configure_generators 4 20 (1 # 2) (1 # 1000) (1 # 10000) (mkWorld 0 [])
  = (mkWorld 0 [],
     Ok (mkGroup
           (sync_inp_gen 2 20 (1 # 1000) (1 # 10000)
            :: repeat (sync_inp_gen 1 20 0 (1 # 10000)) 2)
           [O; O; 1%nat; 2%nat])).
Proof.
  apply (configure_generators_structure 4 20 (1 # 2) (1 # 1000) (1 # 10000)
                                        (mkWorld 0 [])).
  - lia.
  - unfold Qle; simpl; lia.
  - unfold Qle; simpl; lia.
Defined.

Section SharedGenerator.

Variable exponential : Q -> nat -> Q.
Variable normal : Q -> Q -> nat -> Q.

(** X15: entries of the group that are linked read from one generator.
    Without jitter and with at least 2 linked entries, reading any linked
    entry and then any linked entry (the same one or another) returns the
    same time twice, at least [dt], and draws a single variate: the second
    read takes up the repetition that the first left. *)
Theorem linked_entries_share_reads
        (n : Z) (rate sync jitter dt : Q) (s : world) (i j : nat) :
  (0 <= n)%Z -> 0 <= sync -> sync <= 1 ->
  0 < rate -> jitter <= 0 ->
  let k := Qfloor (inject_Z n * sync) in
  (2 <= k)%Z -> (Z.of_nat i < k)%Z -> (Z.of_nat j < k)%Z ->
  exists grp x grp1 grp2,
    configure_generators n rate sync jitter dt s = (s, Ok grp)
    /\ read_spike exponential normal grp i s
       = (mkWorld (S (drawn s)) (warnings s), Ok (x, grp1))
    /\ read_spike exponential normal grp1 j (mkWorld (S (drawn s)) (warnings s))
       = (mkWorld (S (drawn s)) (warnings s), Ok (x, grp2))
    /\ dt <= x.
Proof.
  intros Hn H0 H1 Hrate Hj k Hk Hi Hjk.
  destruct (configure_generators_value n rate sync jitter dt s Hn H0 H1)
    as [Hcfg _].
  fold k in Hcfg.
  set (others := repeat (sync_inp_gen 1 rate 0 dt) (Z.to_nat (n - k))) in *.
  set (refs := repeat O (Z.to_nat k) ++ seq 1 (Z.to_nat (n - k))) in *.
  assert (Hrefs : forall m, (Z.of_nat m < k)%Z -> nth_error refs m = Some O).
  { intros m Hm. subst refs. rewrite nth_error_app1 by (rewrite repeat_length; lia).
    apply nth_error_repeat. lia. }
  set (c := if Qltb (exponential (1 / rate) (drawn s)) dt then dt
            else exponential (1 / rate) (drawn s)).
  pose proof (clamped_interval_ge (exponential (1 / rate) (drawn s)) dt) as Hc.
  fold c in Hc.
  set (g0 := sync_inp_gen k rate jitter dt) in *.
  set (g1 := mkGenerator k rate jitter dt (0 + c) 0 1).
  set (g2 := mkGenerator k rate jitter dt (0 + c) 0 (1 + 1)).
  exists (mkGroup (g0 :: others) refs), (0 + c + 0),
         (mkGroup (g1 :: others) refs), (mkGroup (g2 :: others) refs).
  split; [exact Hcfg|]. split; [|split; [|lra]].
  - unfold read_spike. cbn [spiketrains objects]. rewrite (Hrefs i Hi).
    cbn [nth_error]. unfold bind.
    rewrite (generator_next_new_interval exponential normal g0 s Hrate Hj eq_refl).
    reflexivity.
  - unfold read_spike. cbn [spiketrains objects]. rewrite (Hrefs j Hjk).
    cbn [nth_error]. unfold bind.
    rewrite (generator_next_repeat exponential normal g1 _ Hj);
      [reflexivity | cbn [g1 gen_iter gen_n]; lia].
Qed.

End SharedGenerator.

Lemma linked_entries_share_reads_witness :
  exists grp x grp1 grp2,
    configure_generators 4 20 (3 # 4) 0 (1 # 10000) (mkWorld 0 []) = (mkWorld 0 [], Ok grp)
    /\ read_spike (fun _ _ => 1 # 20) (fun _ _ _ => 0) grp 2 (mkWorld 0 [])
       = (mkWorld 1 [], Ok (x, grp1))
    /\ read_spike (fun _ _ => 1 # 20) (fun _ _ _ => 0) grp1 0 (mkWorld 1 [])
       = (mkWorld 1 [], Ok (x, grp2))
    /\ 1 # 10000 <= x.
Proof.
  apply (linked_entries_share_reads
           (fun _ _ => 1 # 20) (fun _ _ _ => 0)
           4 20 (3 # 4) 0 (1 # 10000) (mkWorld 0 []) 2 0).
  - lia.
  - unfold Qle; simpl; lia.
  - unfold Qle; simpl; lia.
  - reflexivity.
  - unfold Qle; simpl; lia.
  - vm_compute. discriminate.
  - vm_compute. reflexivity.
  - vm_compute. reflexivity.
Defined.

(** ** The bounded composer *)

Lemma replicateM_ok {A} (P : A -> Prop) (body : M A) (count : nat) :
  (forall s s' x, body s = (s', Ok x) -> P x) ->
  forall s s' xs,
    replicateM count body s = (s', Ok xs) ->
    length xs = count /\ Forall P xs.
Proof.
  intro Hbody. induction count as [|c IH]; intros s s' xs H.
  - cbn [replicateM] in H. unfold ret in H. inversion H; subst.
    split; [reflexivity | constructor].
  - cbn [replicateM] in H. unfold bind at 1 in H.
    destruct (body s) as [s1 [x| | |]] eqn:Ex; try discriminate.
    unfold bind at 1 in H.
    destruct (replicateM c body s1) as [s2 [xs'| | |]] eqn:Exs; try discriminate.
    unfold ret in H. inversion H; subst.
    destruct (IH _ _ _ Exs) as [Hlen Hall].
    split; [simpl; now rewrite Hlen|].
    constructor; [exact (Hbody _ _ _ Ex) | exact Hall].
Qed.

Section BoundedComposer.

Variable exponential : Q -> nat -> Q.
Variable normal : Q -> Q -> nat -> Q.

(** X16: whenever [sync_inp] returns, for [n >= 0] it returns exactly [n]
    trains, whatever the synchrony fraction (in range or corrected), the
    jitter and the draws. *)
Theorem sync_inp_returns_n_trains
        (fuel : nat) (n : Z) (rate s sigma dura dt : Q) (w w' : world)
        (trains : list (list Q)) :
  (0 <= n)%Z ->
  sync_inp exponential normal fuel n rate s sigma dura dt w = (w', Ok trains) ->
  length trains = Z.to_nat n.
Proof.
  intros Hn Hrun. unfold sync_inp in Hrun. unfold bind at 1 in Hrun.
  assert (Hcases :
            exists s1 w1,
              (if negb (in_unit_interval s)
               then _ <- warn "Synchrony should be between 0 and 1. Setting to 1." ;;
                    ret 1
               else ret s) w = (w1, Ok s1)
              /\ 0 <= s1 /\ s1 <= 1).
  { destruct (in_unit_interval s) eqn:E; cbn [negb].
    - exists s, w. split; [reflexivity|].
      unfold in_unit_interval in E. apply andb_true_iff in E.
      destruct E as [E0 E1]. apply Qle_bool_iff in E0, E1. now split.
    - eexists 1, _. split; [reflexivity|]. split; unfold Qle; simpl; lia. }
  destruct Hcases as [s1 [w1 [Hs [H0 H1]]]]. rewrite Hs in Hrun.
  pose proof (linked_count_bounds n s1 Hn H0 H1) as Hk.
  set (k := Qfloor (inject_Z n * s1)) in *.
  unfold bind at 1 in Hrun.
  destruct (poisson_spikes exponential fuel dura rate dt w1)
    as [w2 [st_ident| | |]]; try discriminate.
  unfold bind at 1 in Hrun.
  destruct (replicateM (range_count 0 k) _ w2) as [w3 [linked| | |]] eqn:El;
    try discriminate.
  unfold bind at 1 in Hrun.
  destruct (replicateM (range_count k n) _ w3) as [w4 [indep| | |]] eqn:Ei;
    try discriminate.
  unfold ret in Hrun. inversion Hrun; subst.
  destruct (replicateM_ok (fun _ => True) _ _ (fun _ _ _ _ => I) _ _ _ El) as [L1 _].
  destruct (replicateM_ok (fun _ => True) _ _ (fun _ _ _ _ => I) _ _ _ Ei) as [L2 _].
  rewrite length_app, L1, L2. unfold range_count. lia.
Qed.

End BoundedComposer.

Lemma sync_inp_returns_n_trains_witness :
  exists w' trains,
    sync_inp (fun _ i => if Nat.even i then 3 # 10 else 4 # 10)
             (fun _ _ i => if Nat.even i then 1 # 100 else - (1 # 100))
             10 3 1 (7 # 10) (1 # 100) 1 (1 # 10) (mkWorld 0 [])
    = (w', Ok trains)
    /\ length trains = 3%nat.
Proof.
  eexists. eexists. split.
  - vm_compute. reflexivity.
  - refine (sync_inp_returns_n_trains
              (fun _ i => if Nat.even i then 3 # 10 else 4 # 10)
              (fun _ _ i => if Nat.even i then 1 # 100 else - (1 # 100))
              10 3 1 (7 # 10) (1 # 100) 1 (1 # 10) (mkWorld 0 []) _ _ _ _).
    + lia.
    + vm_compute. reflexivity.
Defined.


(** ** norm_firing_slope with too few spikes left *)

(** X19: when a train of at least 2 spikes has no spike later than the
    window [max(w, dt)], [norm_firing_slope] does not return the neutral
    result it returns for fewer than 2 spikes: discarding the early spikes
    leaves none, and reading the first of them raises [IndexError],
    whatever the trace and the other parameters. *)
Theorem norm_firing_slope_all_spikes_early
        (exp : Q -> Q) (mem st : list Q) (th tau dt w : Q) :
  (2 <= length st)%nat ->
  Forall (fun t => t <= (if Qltb w dt then dt else w)) st ->
  norm_firing_slope exp mem st th tau dt w = Raise IndexError.
Proof.
  intros Hlen Hearly. unfold norm_firing_slope.
  replace (length st <? 2)%nat with false by (symmetry; apply Nat.ltb_ge; lia).
  set (w' := if Qltb w dt then dt else w) in *.
  assert (Hnone : filter (fun t => Qltb w' t) st = []).
  { clear Hlen. induction Hearly as [|t tl Ht _ IH]; [reflexivity|].
    cbn [filter]. replace (Qltb w' t) with false; [exact IH|].
    symmetry. now apply Qltb_ge. }
  rewrite Hnone. reflexivity.
Qed.

Lemma norm_firing_slope_all_spikes_early_witness :
  norm_firing_slope (fun x => x) [0; 1; 2; 3] [1 # 2; 1] 10 5 1 (1 # 2)
  = Raise IndexError.
Proof.
  apply (norm_firing_slope_all_spikes_early (fun x => x)).
  - simpl. lia.
  - repeat constructor; vm_compute; discriminate.
Defined.

(** X20: when exactly one spike of a train of at least 2 is later than the
    window, and the trace has a sample after that spike, [norm_firing_slope]
    returns an empty vector of slopes and, as their mean, the mean of an
    empty array, which is not a number. *)
Theorem norm_firing_slope_one_spike_left
        (exp : Q -> Q) (mem st : list Q) (th tau dt w : Q) (spike reset : Q) :
  (2 <= length st)%nat ->
  ~ dt == 0 ->
  filter (fun t => Qltb (if Qltb w dt then dt else w) t) st = [spike] ->
  getitem mem (py_int (spike / dt) + 1) = Ok reset ->
  norm_firing_slope exp mem st th tau dt w = Ok (None, []).
Proof.
  intros Hlen Hdt Hone Hreset. unfold norm_firing_slope.
  replace (length st <? 2)%nat with false by (symmetry; apply Nat.ltb_ge; lia).
  rewrite Hone. cbn [firing_slope length Nat.ltb Nat.leb rbind].
  rewrite (Qeq_bool_false_of_neq _ _ Hdt), Hreset. reflexivity.
Qed.

Lemma norm_firing_slope_one_spike_left_witness :
  norm_firing_slope (fun x => x) [0; 1; 2; 3; 4; 5] [1 # 2; 3] 10 5 1 (1 # 2)
  = Ok (None, []).
Proof.
  apply (norm_firing_slope_one_spike_left
           (fun x => x) [0; 1; 2; 3; 4; 5] [1 # 2; 3] 10 5 1 (1 # 2) 3 4).
  - simpl. lia.
  - vm_compute. discriminate.
  - reflexivity.
  - reflexivity.
Defined.

(** ** unitrange *)

Lemma unitrange_loop_unfold (fuel : nat) (x stop step : Q) (retlist : list Q) :
  unitrange_loop fuel x stop step retlist
  = if Qltb x stop then
      match fuel with
      | O => OutOfFuel
      | S fuel' => unitrange_loop fuel' (x + step) stop step (retlist ++ [x])
      end
    else Ok retlist.
Proof. destruct fuel; reflexivity. Qed.

(** X22: with a step that is not above 0 and a start below the stop,
    [unitrange] never returns: the loop variable never reaches the stop,
    however many passes the loop is given. *)
Theorem unitrange_nonpositive_step_never_returns
        (a b c : Q) (d : dimension) (fuel : nat) :
  c <= 0 -> a < b ->
  unitrange fuel (Quantity a d) (Quantity b d) (Quantity c d) = OutOfFuel.
Proof.
  intros Hc Hab.
  assert (Hdim : has_same_dimensions d d = true).
  { unfold has_same_dimensions. destruct (list_eq_dec Z.eq_dec d d); congruence. }
  unfold unitrange. rewrite Hdim. cbn [negb orb].
  assert (Hloop : forall x retlist,
            x < b -> unitrange_loop fuel x b c retlist = OutOfFuel).
  { induction fuel as [|f IH]; intros x retlist Hx;
      rewrite unitrange_loop_unfold;
      replace (Qltb x b) with true by (symmetry; now apply Qltb_lt).
    - reflexivity.
    - apply IH. lra. }
  now rewrite Hloop.
Qed.

Lemma unitrange_nonpositive_step_never_returns_witness :
  unitrange 100 (Quantity 0 [1%Z]) (Quantity 1 [1%Z]) (Quantity 0 [1%Z])
  = OutOfFuel.
Proof.
  apply (unitrange_nonpositive_step_never_returns 0 1 0 [1%Z] 100).
  - unfold Qle; simpl; lia.
  - reflexivity.
Defined.

(** X23: [unitrange] raises [TypeError] as soon as one of its three
    arguments is a plain number, or two of them differ in dimension; no
    value of the arguments and no number of passes makes such a call
    return a list. *)
Theorem unitrange_type_errors
        (fuel : nat) (start stop step : pyscalar) :
  (forall a b c d, ~ (start = Quantity a d /\ stop = Quantity b d
                      /\ step = Quantity c d)) ->
  unitrange fuel start stop step = Raise TypeError.
Proof.
  intro H. unfold unitrange.
  destruct start as [x|a da]; [reflexivity|].
  destruct stop as [x|b db]; [reflexivity|].
  destruct step as [x|c dc]; [reflexivity|].
  unfold has_same_dimensions.
  destruct (list_eq_dec Z.eq_dec da db) as [E1|E1]; [|reflexivity].
  destruct (list_eq_dec Z.eq_dec da dc) as [E2|E2]; [|reflexivity].
  subst. exfalso. apply (H a b c dc). auto.
Qed.

Lemma unitrange_type_errors_witness :
  unitrange 10 (Quantity 0 [1%Z]) (Quantity 1 [0%Z; 1%Z]) (Quantity 1 [1%Z])
  = Raise TypeError.
Proof.
  apply (unitrange_type_errors 10).
  intros a b c d [H1 [H2 H3]]. inversion H1; subst. discriminate.
Defined.


(** ** Slope distributions of a trace without slopes *)

(** X24: [slope_distribution] with [rem_zero] raises [ValueError] on a
    trace that never changes (and on one of fewer than 2 samples): no
    slope is left to take the maximum of.  [positive_slope_distribution]
    raises it on a trace that never rises.  Neither reaches the
    histogram. *)
Theorem slope_distributions_without_slopes
        (Histogram : Type) (histogram : list Q -> Z -> result Histogram)
        (v : list Q) (w : Q) :
  (Forall (fun d => d == 0) (diff v) ->
   slope_distribution Histogram histogram v w true = Raise ValueError)
  /\ (Forall (fun d => d <= 0) (diff v) ->
      positive_slope_distribution Histogram histogram v w = Raise ValueError).
Proof.
  split; intro H.
  - unfold slope_distribution.
    assert (E : filter (fun d => negb (Qeq_bool d 0)) (diff v) = []).
    { induction H as [|d tl Hd _ IH]; [reflexivity|].
      cbn [filter]. apply Qeq_bool_iff in Hd. rewrite Hd. exact IH. }
    rewrite E. reflexivity.
  - unfold positive_slope_distribution.
    assert (E : filter (fun d => Qltb 0 d) (diff v) = []).
    { induction H as [|d tl Hd _ IH]; [reflexivity|].
      cbn [filter]. replace (Qltb 0 d) with false; [exact IH|].
      symmetry. now apply Qltb_ge. }
    rewrite E. reflexivity.
Qed.

Lemma slope_distributions_without_slopes_witness :
  slope_distribution unit (fun _ _ => Ok tt) [3; 3; 3] 1 true = Raise ValueError
  /\ positive_slope_distribution unit (fun _ _ => Ok tt) [3; 2; 2] 1
     = Raise ValueError.
Proof.
  destruct (slope_distributions_without_slopes unit (fun _ _ => Ok tt)
                                               [3; 3; 3] 1) as [H1 _].
  destruct (slope_distributions_without_slopes unit (fun _ _ => Ok tt)
                                               [3; 2; 2] 1) as [_ H2].
  split.
  - apply H1. repeat constructor.
  - apply H2. repeat constructor; unfold Qle; simpl; lia.
Defined.

(** ** npss *)

Lemma assign_row_length (wins : list (list Q)) (i : nat) (x : list Q)
      (wins' : list (list Q)) :
  assign_row wins i x = Ok wins' -> length wins' = length wins.
Proof.
  unfold assign_row. intro H.
  destruct (length x =? length (nth i wins []))%nat;
    [|destruct (length x =? 1)%nat; [|discriminate]];
    inversion H; apply set_nth_length.
Qed.

Lemma sta_fill_length (v : list Q) (dt : Q) (w_d : Z) (spikes : list Q) :
  forall (i : nat) (wins wins' : list (list Q)),
    sta_fill v dt w_d spikes i wins = Ok wins' -> length wins' = length wins.
Proof.
  induction spikes as [|st rest IH]; intros i wins wins' H.
  - now inversion H.
  - cbn [sta_fill] in H. cbv zeta in H.
    destruct (w_d <? py_int (st / dt))%Z.
    + destruct (assign_row wins i _) as [wins1| | |] eqn:E; try discriminate.
      cbn [rbind] in H. rewrite (IH _ _ _ H). exact (assign_row_length _ _ _ _ E).
    + destruct (zeros (w_d - py_int (st / dt))) as [pad| | |]; try discriminate.
      cbn [rbind] in H.
      destruct (assign_row wins i _) as [wins1| | |] eqn:E; try discriminate.
      cbn [rbind] in H. rewrite (IH _ _ _ H). exact (assign_row_length _ _ _ _ E).
Qed.

Lemma sta_rows (sqrt : Q -> Q) (v st : list Q) (w dt : Q)
      (avg std : list Q) (wins : list (list Q)) :
  (2 <= length st)%nat ->
  sta sqrt v st w dt = Ok (avg, std, wins) -> length wins = length st.
Proof.
  intros Hlen H. unfold sta in H.
  replace (length st <=? 1)%nat with false in H
    by (symmetry; apply Nat.leb_gt; lia).
  destruct (Qeq_bool dt 0); [discriminate|].
  unfold zeros2, zeros in H.
  destruct (py_int (w / dt) <? 0)%Z; [discriminate|]. cbn [rbind] in H.
  destruct (sta_fill _ _ _ _ _ _) as [wins1| | |] eqn:E; try discriminate.
  cbn [rbind] in H. inversion H; subst.
  rewrite (sta_fill_length _ _ _ _ _ _ _ E). apply repeat_length.
Qed.

Lemma clamp_negative_nonneg (x : npfloat) (r : Q) :
  clamp_negative x = Some r -> 0 <= r.
Proof.
  destruct x as [q|]; [|discriminate]. cbn. intro H. inversion H.
  destruct (Qltb q 0) eqn:E; [lra | now apply Qltb_ge in E].
Qed.

(** X25: [npss] always issues its deprecation warning and draws nothing,
    whatever it is given and whether it returns or raises.  For a train of
    fewer than 2 spikes it returns [0, [0]].  Whenever it returns for a
    train of at least 2 spikes, the vector of normalised slopes has one
    entry per ISI (the first window is dropped), no entry that is a number
    is below 0 (negative values are set to 0; nothing bounds them from
    above), and the mean returned is the mean of the vector. *)
Theorem npss_result
        (sqrt : Q -> Q) (v st : list Q) (v_th w dt : Q) (s : world) :
  fst (npss sqrt v st v_th w dt s)
  = mkWorld (drawn s) (warnings s ++ ["Using deprecated function npss()"%string])
  /\ ((length st <= 1)%nat ->
      snd (npss sqrt v st v_th w dt s) = Ok (Some 0, [Some 0]))
  /\ (forall (mean_slope : npfloat) (slopes_norm : list npfloat),
        (2 <= length st)%nat ->
        snd (npss sqrt v st v_th w dt s) = Ok (mean_slope, slopes_norm) ->
        length slopes_norm = (length st - 1)%nat
        /\ Forall (fun x => forall r, x = Some r -> 0 <= r) slopes_norm
        /\ mean_slope = np_mean slopes_norm).
Proof.
  unfold npss, bind, warn, lift_result, ret.
  split; [|split].
  - destruct (length st <=? 1)%nat; reflexivity.
  - intro Hlen.
    replace (length st <=? 1)%nat with true
      by (symmetry; apply Nat.leb_le; lia).
    reflexivity.
  - intros mean_slope slopes_norm Hlen Hbody.
    replace (length st <=? 1)%nat with false in Hbody
      by (symmetry; apply Nat.leb_gt; lia).
    cbn [snd] in Hbody. unfold npss_body in Hbody.
    destruct (sta sqrt v st w dt) as [[[avg std] wins]| | |] eqn:Esta;
      try discriminate.
    cbn [rbind] in Hbody.
    pose proof (sta_rows _ _ _ _ _ _ _ _ Hlen Esta) as Hrows.
    unfold set_last_column in Hbody.
    destruct (existsb _ wins); [discriminate|]. cbn [rbind] in Hbody.
    destruct (Qeq_bool dt 0); [discriminate|].
    destruct (getitem v _) as [v_reset| | |]; try discriminate.
    cbn [rbind] in Hbody.
    match type of Hbody with
    | Ok (np_mean ?X, _) = _ => remember X as sn eqn:Esn
    end.
    injection Hbody as Hm Hv. subst mean_slope slopes_norm.
    split; [|split; [|reflexivity]].
    + rewrite Esn, length_map, zip_with_length. unfold npss_slopes.
      rewrite !length_map, diff_length.
      assert (length (tl (map (fun row => removelast row ++ [v_th]) wins))
              = (length st - 1)%nat).
      { rewrite <- Hrows. destruct wins; simpl; rewrite ?length_map; lia. }
      lia.
    + rewrite Esn. apply Forall_forall. intros x Hx r Hr.
      apply in_map_iff in Hx. destruct Hx as [y [<- _]].
      exact (clamp_negative_nonneg _ _ Hr).
Qed.

Lemma npss_result_witness :
  exists mean_slope slopes_norm,
    snd (npss (fun x => x) [0; 1; 2; 3; 4; 5; 6; 7; 8; 9; 10] [3; 6; 9] 5 2 1
              (mkWorld 0 []))
    = Ok (mean_slope, slopes_norm)
    /\ length slopes_norm = 2%nat.
Proof.
  eexists. eexists. split.
  - vm_compute. reflexivity.
  - refine (proj1 (proj2 (proj2 (npss_result
                                   (fun x => x)
                                   [0; 1; 2; 3; 4; 5; 6; 7; 8; 9; 10]
                                   [3; 6; 9] 5 2 1 (mkWorld 0 [])))
                         _ _ _ _)).
    + simpl. lia.
    + vm_compute. reflexivity.
Defined.

Lemma fsum_of_numbers (l : list Q) (acc : Q) :
  fold_left fadd (map Some l) (Some acc) = Some (fold_left Qplus l acc).
Proof.
  revert acc. induction l as [|x tl IH]; intro acc; [reflexivity|].
  cbn [map fold_left]. apply IH.
Qed.

(** The differences of consecutive samples add up to the last sample less
    the first. *)
Lemma diff_telescopes (l : list Q) (acc : Q) :
  l <> [] ->
  fold_left Qplus (diff l) acc == acc + last l 0 - hd 0 l.
Proof.
  revert acc. induction l as [|x [|y tl] IH]; intros acc Hne.
  - contradiction.
  - simpl. ring.
  - change (diff (x :: y :: tl)) with ((y - x) :: diff (y :: tl)).
    cbn [fold_left]. rewrite IH by discriminate.
    change (last (x :: y :: tl) 0) with (last (y :: tl) 0).
    cbn [hd]. ring.
Qed.

(** X26: the raw slope [npss] takes of a window of at least 2 samples,
    after it has put the threshold in the last place, is the threshold less
    the first sample of the window, divided by the number of steps in the
    window: the samples in between cancel.  A matrix of windows without
    columns makes the assignment of the threshold an [IndexError]. *)
Theorem npss_slope_is_end_to_end (v_th : Q) (wins : list (list Q)) :
  (Forall (fun row => (2 <= length row)%nat) wins ->
   exists wins',
     set_last_column v_th wins = Ok wins'
     /\ length (npss_slopes wins') = length wins
     /\ forall i, (i < length wins)%nat ->
          exists r,
            nth i (npss_slopes wins') None = Some r
            /\ r == (v_th - hd 0 (nth i wins []))
                    / inject_Z (Z.of_nat (length (nth i wins []) - 1)))
  /\ (wins <> [] -> Forall (fun row => row = []) wins ->
      set_last_column v_th wins = Raise IndexError).
Proof.
  split.
  - intro Hrows.
    assert (Hno : existsb (fun row : list Q => (length row =? 0)%nat) wins = false).
    { induction Hrows as [|row tl Hrow _ IH]; [reflexivity|].
      cbn [existsb]. rewrite IH.
      destruct (Nat.eqb_spec (length row) 0); [lia | reflexivity]. }
    exists (map (fun row => removelast row ++ [v_th]) wins).
    split; [unfold set_last_column; now rewrite Hno|].
    split; [unfold npss_slopes; now rewrite !length_map|].
    intros i Hi. unfold npss_slopes. rewrite map_map.
    rewrite (nth_map_in _ _ _ []) by exact Hi.
    rewrite Forall_forall in Hrows.
    pose proof (Hrows _ (nth_In wins [] Hi)) as Hrow.
    set (row := nth i wins []) in *.
    set (row' := removelast row ++ [v_th]).
    assert (Hlen' : length row' = length row).
    { subst row'. rewrite length_app. cbn [length].
      destruct row as [|x tl]; [simpl in Hrow; lia|].
      rewrite (app_removelast_last 0 (l := x :: tl)) at 2 by discriminate.
      rewrite length_app. reflexivity. }
    assert (Hhd : hd 0 row' = hd 0 row).
    { subst row'. destruct row as [|x [|y tl]]; simpl in Hrow; try lia.
      reflexivity. }
    assert (Hlast : last row' 0 = v_th) by (subst row'; apply last_last).
    assert (Hdl : length (diff row') = (length row - 1)%nat)
      by (rewrite diff_length; lia).
    unfold np_mean.
    destruct (map Some (diff row')) as [|d0 ds] eqn:Emap.
    { apply (f_equal (@length npfloat)) in Emap.
      rewrite length_map in Emap. simpl in Emap. lia. }
    rewrite <- Emap. unfold fsum. rewrite fsum_of_numbers, length_map, Hdl.
    cbn [fdivf flift2].
    assert (Hn : ~ inject_Z (Z.of_nat (length row - 1)) == 0)
      by (apply inject_nat_nonzero; lia).
    rewrite (fdiv_nonzero _ _ Hn). eexists. split; [reflexivity|].
    rewrite diff_telescopes.
    + rewrite Hhd, Hlast. field. exact Hn.
    + intro E. rewrite E in Hlen'. simpl in Hlen'. lia.
  - intros Hne Hall. unfold set_last_column.
    destruct wins as [|row tl]; [contradiction|].
    inversion Hall; subst. reflexivity.
Qed.

Lemma npss_slope_is_end_to_end_witness :
  exists wins',
    set_last_column 5 [[1; 7; 2]; [2; 9; 3]] = Ok wins'
    /\ length (npss_slopes wins') = 2%nat.
Proof.
  destruct (proj1 (npss_slope_is_end_to_end 5 [[1; 7; 2]; [2; 9; 3]]))
    as [wins' [Hset [Hlen _]]].
  - repeat constructor; simpl; lia.
  - exists wins'. split; [exact Hset | exact Hlen].
Defined.


(** ** Spikes at or beyond the end of the grid *)

Lemma setitems_out_of_range (v : Q) (idx : list Z) :
  forall (a : list Q) (i : Z),
    In i idx -> np_index (length a) i = None ->
    setitems a idx v = Raise IndexError.
Proof.
  induction idx as [|j rest IH]; intros a i Hin Hnone; [contradiction|].
  cbn [setitems].
  destruct (np_index (length a) j) as [k|] eqn:Ej; [|reflexivity].
  destruct Hin as [->|Hin]; [congruence|].
  apply (IH _ i Hin). now rewrite set_nth_length.
Qed.

(** X27: [times_to_bin] only compares the index of the last spike with the
    grid length, and with [>].  So for a duration that is given and a grid
    length [int(duration/dt) >= 0], when the last spike's index is not
    above the grid length and some spike (the last one or, in a train that
    is not sorted, any other) has an index at or above it, the call raises
    [IndexError] instead of dropping that spike. *)
Theorem times_to_bin_spike_at_grid_end (spikes : list Q) (dt d t : Q) :
  ~ dt == 0 ->
  In t spikes ->
  (0 <= py_int (d / dt))%Z ->
  (py_int (last spikes 0%Q / dt) <= py_int (d / dt))%Z ->
  (py_int (d / dt) <= py_int (t / dt))%Z ->
  times_to_bin spikes dt (Some d) = Raise IndexError.
Proof.
  intros Hdt Hin Hn Hlast Ht.
  destruct spikes as [|s tl]; [contradiction|].
  unfold times_to_bin. rewrite (Qeq_bool_false_of_neq _ _ Hdt).
  cbn [rbind]. unfold zeros.
  destruct (Z.ltb_spec (py_int (d / dt)) 0) as [|_]; [lia|].
  cbn [rbind]. rewrite last_to_grid.
  replace (py_int (last (s :: tl) 0%Q / dt) >? py_int (d / dt))%Z with false
    by (symmetry; rewrite Z.gtb_ltb; apply Z.ltb_ge; lia).
  unfold to_grid at 1. cbn [map].
  apply (setitems_out_of_range _ _ _ (py_int (t / dt))).
  - unfold to_grid. now apply (in_map (fun t => py_int (t / dt))).
  - rewrite repeat_length. unfold np_index.
    destruct (Z.ltb_spec (py_int (t / dt)) (Z.of_nat (Z.to_nat (py_int (d / dt)))));
      [lia|].
    rewrite andb_false_r.
    destruct (Z.ltb_spec (py_int (t / dt)) 0); [lia|].
    now rewrite andb_false_r.
Qed.

Lemma times_to_bin_spike_at_grid_end_witness :
  times_to_bin [1 # 1000; 4 # 1000] (1 # 1000) (Some (4 # 1000))
  = Raise IndexError.
Proof.
  apply (times_to_bin_spike_at_grid_end _ _ _ (4 # 1000)).
  - vm_compute. discriminate.
  - simpl. right. left. reflexivity.
  - vm_compute. discriminate.
  - vm_compute. discriminate.
  - vm_compute. discriminate.
Defined.

(** ** Jitter on trains without an interval *)

(** X28: with a jitter other than 0, [add_gauss_jitter] raises
    [ValueError] on every train of fewer than 2 spikes (there is no
    interval to take the minimum of) and for every negative jitter (the
    normal distribution refuses the scale), whatever is drawn. *)
Theorem add_gauss_jitter_value_errors
        (normal : Q -> Q -> nat -> Q) (fuel : nat) (st : list Q)
        (jitter dt : Q) (s : world) :
  ~ jitter == 0 ->
  (length st <= 1)%nat \/ jitter < 0 ->
  snd (add_gauss_jitter normal fuel st jitter dt s) = Raise ValueError.
Proof.
  intros Hj Hcase. unfold add_gauss_jitter.
  rewrite (Qeq_bool_false_of_neq _ _ Hj).
  unfold bind, random_normal_n.
  destruct (Qltb jitter 0) eqn:Eneg; [reflexivity|].
  destruct Hcase as [Hlen|Hneg];
    [|apply Qltb_ge in Eneg; lra].
  assert (E : diff (sort (zip_with Qplus st
                            (map (normal 0 jitter) (seq (drawn s) (length st)))))
              = []).
  { apply length_zero_iff_nil.
    rewrite diff_length, sort_length, zip_with_length. lia. }
  rewrite E. destruct fuel; reflexivity.
Qed.

Lemma add_gauss_jitter_value_errors_witness :
  snd (add_gauss_jitter (fun _ _ _ => 1 # 100) 3 [1] (1 # 10) (1 # 10)
                        (mkWorld 0 []))
  = Raise ValueError.
Proof.
  apply add_gauss_jitter_value_errors.
  - vm_compute. discriminate.
  - left. simpl. lia.
Defined.

(** ** Histograms of nothing *)

(** X29: on a list or dict that holds no spike at all (empty, or only empty
    trains, at any depth), with no duration given, both [PSTH] and
    [times_to_bin_multi] raise [ValueError]: the duration is inferred from
    the maximum of the flattened times, and there is none. *)
Theorem no_spikes_no_duration (spikes : pyobject) (items : ndobject) (bin dt : Q) :
  container_items spikes = Ok items ->
  flat_map (leaves (nd_depth items)) (nd_items items) = [] ->
  PSTH spikes bin dt None = Raise ValueError
  /\ times_to_bin_multi spikes dt None = Raise ValueError.
Proof.
  intros Hitems Hempty. split.
  - unfold PSTH. rewrite Hitems. cbn [rbind].
    rewrite recursiveflat_leaves, Hempty. reflexivity.
  - unfold times_to_bin_multi. rewrite Hitems. cbn [rbind].
    rewrite recursiveflat_leaves, Hempty. reflexivity.
Qed.

Lemma no_spikes_no_duration_witness :
  PSTH (PyList 1 [[]; []]) (1 # 100) (1 # 1000) None = Raise ValueError
  /\ times_to_bin_multi (PyList 1 [[]; []]) (1 # 1000) None = Raise ValueError.
Proof.
  apply (no_spikes_no_duration (PyList 1 [[]; []]) (mkNd 1 [[]; []])).
  - reflexivity.
  - reflexivity.
Defined.


(** ** Spikes beyond the end of the trace *)

Lemma set_nth_beyond {A} (k : nat) (v : A) (a : list A) :
  (length a <= k)%nat -> set_nth k v a = a.
Proof.
  revert k. induction a as [|x tl IH]; intros k Hk; [now destruct k|].
  destruct k as [|k]; simpl in Hk; [lia|].
  cbn [set_nth]. now rewrite IH by lia.
Qed.

Lemma assign_row_rows (c : nat) (wins : list (list Q)) (i : nat) (x : list Q)
      (wins' : list (list Q)) :
  Forall (fun row => length row = c) wins ->
  assign_row wins i x = Ok wins' ->
  Forall (fun row => length row = c) wins'.
Proof.
  intros Hrows H. unfold assign_row in H.
  assert (Hset : forall y, length y = length (nth i wins []) ->
                           Forall (fun row => length row = c) (set_nth i y wins)).
  { intros y Hy.
    destruct (Nat.lt_ge_cases i (length wins)) as [Hi|Hi];
      [|now rewrite set_nth_beyond].
    apply Forall_forall. intros row Hin.
    apply (In_nth _ _ []) in Hin. destruct Hin as [k [Hk <-]].
    rewrite set_nth_length in Hk. rewrite nth_set_nth by lia.
    rewrite Forall_forall in Hrows.
    destruct (Nat.eqb_spec k i) as [->|_].
    - rewrite Hy. now apply Hrows, nth_In.
    - now apply Hrows, nth_In. }
  destruct (Nat.eqb_spec (length x) (length (nth i wins []))) as [E|_].
  - inversion H; subst. now apply Hset.
  - destruct (length x =? 1)%nat; [|discriminate].
    inversion H; subst. apply Hset, repeat_length.
Qed.

(** A spike whose window neither fits the trace nor holds exactly one
    sample of it stops the loop of [sta], whatever the spikes before it
    did. *)
Lemma sta_fill_beyond_trace (v : list Q) (dt : Q) (w_d : Z) (spikes : list Q) :
  (0 < w_d)%Z ->
  Exists (fun t => (w_d < py_int (t / dt))%Z
                   /\ (Z.of_nat (length v) < py_int (t / dt))%Z
                   /\ Z.of_nat (length v) <> (py_int (t / dt) - w_d + 1)%Z)
         spikes ->
  forall (i : nat) (wins : list (list Q)),
    (i + length spikes <= length wins)%nat ->
    Forall (fun row => length row = Z.to_nat w_d) wins ->
    sta_fill v dt w_d spikes i wins = Raise ValueError.
Proof.
  intros Hw Hex.
  induction spikes as [|st rest IH]; intros i wins Hlen Hrows;
    [inversion Hex|].
  cbn [length] in Hlen.
  assert (Hrow : length (nth i wins []) = Z.to_nat w_d).
  { rewrite Forall_forall in Hrows. apply Hrows, nth_In. lia. }
  cbn [sta_fill]. cbv zeta.
  inversion Hex as [? ? [Hlt [Hshort Hone]]|? ? Hlater]; subst.
  - replace (w_d <? py_int (st / dt))%Z with true
      by (symmetry; apply Z.ltb_lt; lia).
    unfold assign_row. rewrite Hrow.
    assert (Hslice : length (slice v (py_int (st / dt) - w_d) (py_int (st / dt)))
                     = (length v
                        - Nat.min (Z.to_nat (py_int (st / dt) - w_d)) (length v))%nat).
    { unfold slice, slice_bound.
      destruct (Z.ltb_spec (py_int (st / dt) - w_d) 0); [lia|].
      destruct (Z.ltb_spec (py_int (st / dt)) 0); [lia|].
      rewrite length_firstn, length_skipn. lia. }
    rewrite Hslice.
    destruct (Nat.eqb_spec
                (length v - Nat.min (Z.to_nat (py_int (st / dt) - w_d)) (length v))
                (Z.to_nat w_d)); [lia|].
    destruct (Nat.eqb_spec
                (length v - Nat.min (Z.to_nat (py_int (st / dt) - w_d)) (length v))
                1); [lia|].
    reflexivity.
  - assert (Hstep :
              forall x, match assign_row wins i x with
                        | Ok wins1 =>
                            length wins1 = length wins
                            /\ Forall (fun row => length row = Z.to_nat w_d) wins1
                        | Raise e => e = ValueError
                        | _ => False
                        end).
    { intro x. destruct (assign_row wins i x) as [wins1|e| |] eqn:E.
      - split; [exact (assign_row_length _ _ _ _ E)
               | exact (assign_row_rows _ _ _ _ _ Hrows E)].
      - unfold assign_row in E.
        destruct (length x =? length (nth i wins []))%nat; [discriminate|].
        destruct (length x =? 1)%nat; [discriminate|]. now inversion E.
      - unfold assign_row in E.
        destruct (length x =? length (nth i wins []))%nat; [discriminate|].
        destruct (length x =? 1)%nat; discriminate.
      - unfold assign_row in E.
        destruct (length x =? length (nth i wins []))%nat; [discriminate|].
        destruct (length x =? 1)%nat; discriminate. }
    destruct (Z.ltb_spec w_d (py_int (st / dt))) as [Hlt|Hge].
    + specialize (Hstep (slice v (py_int (st / dt) - w_d) (py_int (st / dt)))).
      destruct (assign_row wins i _) as [wins1|e| |]; try contradiction.
      * cbn [rbind]. destruct Hstep as [L R]. apply IH; [exact Hlater| lia |exact R].
      * now subst e.
    + unfold zeros. destruct (Z.ltb_spec (w_d - py_int (st / dt)) 0); [lia|].
      cbn [rbind].
      specialize (Hstep (repeat 0 (Z.to_nat (w_d - py_int (st / dt)))
                           ++ slice v 0 (py_int (st / dt)))).
      destruct (assign_row wins i _) as [wins1|e| |]; try contradiction.
      * cbn [rbind]. destruct Hstep as [L R]. apply IH; [exact Hlater| lia |exact R].
      * now subst e.
Qed.

(** X30: [sta] does not check the spikes against the trace.  For a train of
    at least 2 spikes and a window of [w_d = int(w/dt) > 0] samples, a spike
    at a grid index [t_d > w_d] beyond the end of the trace makes the call a
    [ValueError] (the clipped slice does not fit the row), provided the
    trace does not have exactly [t_d - w_d + 1] samples, the case in which
    the clipped slice holds a single sample. *)
Theorem sta_spike_beyond_trace
        (sqrt : Q -> Q) (v spiketrain : list Q) (w dt t : Q) :
  (2 <= length spiketrain)%nat ->
  ~ dt == 0 ->
  (0 < py_int (w / dt))%Z ->
  In t spiketrain ->
  (py_int (w / dt) < py_int (t / dt))%Z ->
  (Z.of_nat (length v) < py_int (t / dt))%Z ->
  Z.of_nat (length v) <> (py_int (t / dt) - py_int (w / dt) + 1)%Z ->
  sta sqrt v spiketrain w dt = Raise ValueError.
Proof.
  intros Hlen Hdt Hw Hin Hlt Hshort Hone. unfold sta.
  replace (length spiketrain <=? 1)%nat with false
    by (symmetry; apply Nat.leb_gt; lia).
  rewrite (Qeq_bool_false_of_neq _ _ Hdt). unfold zeros2, zeros.
  destruct (Z.ltb_spec (py_int (w / dt)) 0); [lia|]. cbn [rbind].
  rewrite (sta_fill_beyond_trace v dt (py_int (w / dt)) spiketrain Hw).
  - reflexivity.
  - apply Exists_exists. exists t. auto.
  - rewrite repeat_length. lia.
  - apply Forall_forall. intros row Hrow.
    apply repeat_spec in Hrow. subst row. apply repeat_length.
Qed.

Lemma sta_spike_beyond_trace_witness :
  sta (fun x => x) [0; 1; 2; 3; 4; 5] [3; 9] 2 1 = Raise ValueError.
Proof.
  apply (sta_spike_beyond_trace (fun x => x) _ _ _ _ 9).
  - simpl. lia.
  - vm_compute. discriminate.
  - vm_compute. reflexivity.
  - simpl. right. left. reflexivity.
  - vm_compute. reflexivity.
  - vm_compute. reflexivity.
  - vm_compute. discriminate.
Defined.


(** * Properties in rounded arithmetic *)

(** ** The rounding to binary64 *)

Lemma round_half_even_cases (q : Q) :
  (round_half_even q = Qfloor q /\ q - inject_Z (Qfloor q) <= 1 # 2)
  \/ (round_half_even q = (Qfloor q + 1)%Z /\ 1 # 2 <= q - inject_Z (Qfloor q)).
Proof.
  unfold round_half_even. cbv zeta.
  destruct (Qcompare_spec (q - inject_Z (Qfloor q)) (1 # 2)) as [E|E|E].
  - destruct (Z.even (Qfloor q)); [left | right]; split; auto; rewrite E; lra.
  - left. split; [reflexivity | lra].
  - right. split; [reflexivity | lra].
Qed.

Lemma Qfloor_bounds (q : Q) :
  inject_Z (Qfloor q) <= q /\ q < inject_Z (Qfloor q) + 1.
Proof.
  split; [apply Qfloor_le|].
  pose proof (Qlt_floor q) as H. rewrite inject_Z_plus in H. exact H.
Qed.

Lemma round_half_even_near (q : Q) :
  inject_Z (round_half_even q) - (1 # 2) <= q
  /\ q <= inject_Z (round_half_even q) + (1 # 2).
Proof.
  pose proof (Qfloor_bounds q) as [Hlo Hhi].
  destruct (round_half_even_cases q) as [[-> H]|[-> H]].
  - lra.
  - rewrite inject_Z_plus. change (inject_Z 1) with 1. lra.
Qed.

Lemma round_half_even_comp (p q : Q) :
  p == q -> round_half_even p = round_half_even q.
Proof.
  intro E. unfold round_half_even. cbv zeta.
  rewrite (Qfloor_comp _ _ E).
  assert (E' : p - inject_Z (Qfloor q) == q - inject_Z (Qfloor q))
    by (rewrite E; reflexivity).
  now rewrite (Qcompare_comp _ _ E' _ _ (Qeq_refl (1 # 2))).
Qed.

Lemma round_half_even_Z (n : Z) : round_half_even (inject_Z n) = n.
Proof.
  unfold round_half_even. cbv zeta. rewrite Qfloor_Z.
  destruct (Qcompare_spec (inject_Z n - inject_Z n) (1 # 2)) as [E|E|E];
    try reflexivity; exfalso; lra.
Qed.

Lemma round_half_even_mono (p q : Q) :
  p <= q -> (round_half_even p <= round_half_even q)%Z.
Proof.
  intro Hpq. pose proof (Qfloor_resp_le _ _ Hpq) as Hf.
  destruct (Z.eq_dec (Qfloor p) (Qfloor q)) as [E|N].
  - unfold round_half_even. cbv zeta. rewrite E.
    destruct (Qcompare_spec (p - inject_Z (Qfloor q)) (1 # 2)) as [Ep|Ep|Ep];
      destruct (Qcompare_spec (q - inject_Z (Qfloor q)) (1 # 2)) as [Eq|Eq|Eq];
      try lia; try (exfalso; lra);
      destruct (Z.even (Qfloor q)); lia.
  - destruct (round_half_even_cases p) as [[-> _]|[-> _]];
      destruct (round_half_even_cases q) as [[-> _]|[-> _]]; lia.
Qed.

Lemma pow2_pos (e : Z) : 0 < 2 ^ e.
Proof. apply Qpower_0_lt. reflexivity. Qed.

Lemma pow2_succ (e : Z) : 2 ^ (e + 1) == 2 * 2 ^ e.
Proof.
  rewrite Qpower_plus by (intro H; discriminate H).
  rewrite Qpower_1_r. ring.
Qed.

Lemma pow2_le (a b : Z) : (a <= b)%Z -> 2 ^ a <= 2 ^ b.
Proof. intro H. apply Qpower_le_compat_l; [exact H | unfold Qle; simpl; lia]. Qed.

Lemma pow2_lt_inv (a b : Z) : 2 ^ a < 2 ^ b -> (a < b)%Z.
Proof. intro H. apply (Qpower_lt_compat_l_inv 2); [exact H | reflexivity]. Qed.

Lemma pow2_Z (n : Z) : (0 <= n)%Z -> inject_Z (2 ^ n) == 2 ^ n.
Proof. intro H. now rewrite Zpower_Qpower. Qed.

Lemma frac_lt (a b c d : Q) :
  0 < a -> a <= c -> 0 < d -> d < b -> a / b < c / d.
Proof.
  intros Ha Hac Hd Hdb.
  apply Qlt_shift_div_l; [exact Hd|].
  assert (E : a / b * b == a) by (field; lra).
  assert (P : 0 < a / b) by (apply Qlt_shift_div_l; lra).
  nra.
Qed.

Lemma frac_lt' (a b c d : Q) :
  0 < a -> a < c -> 0 < d -> d <= b -> a / b < c / d.
Proof.
  intros Ha Hac Hd Hdb.
  apply Qlt_shift_div_l; [exact Hd|].
  assert (E : a / b * b == a) by (field; lra).
  assert (P : 0 < a / b) by (apply Qlt_shift_div_l; lra).
  nra.
Qed.

Lemma binade_window (q : Q) :
  0 < q ->
  let k := (Z.log2 (Qnum q) - Z.log2 (Zpos (Qden q)))%Z in
  2 ^ (k - 1) <= q /\ q < 2 ^ (k + 1).
Proof.
  intros Hq k. destruct q as [n d]. cbn [Qnum Qden] in k.
  assert (Hn : (0 < n)%Z) by (unfold Qlt in Hq; simpl in Hq; lia).
  destruct (Z.log2_spec n Hn) as [Hn1 Hn2].
  destruct (Z.log2_spec (Zpos d) (Pos2Z.is_pos d)) as [Hd1 Hd2].
  pose proof (Z.log2_nonneg n) as Ln. pose proof (Z.log2_nonneg (Zpos d)) as Ld.
  set (ln := Z.log2 n) in *. set (ld := Z.log2 (Zpos d)) in *.
  assert (Qn1 : 2 ^ ln <= inject_Z n)
    by (rewrite <- pow2_Z by lia; now rewrite <- Zle_Qle).
  assert (Qn2 : inject_Z n < 2 ^ (ln + 1)).
  { rewrite <- pow2_Z by lia. rewrite <- Zlt_Qlt.
    now replace (ln + 1)%Z with (Z.succ ln) by lia. }
  assert (Qd1 : 2 ^ ld <= inject_Z (Zpos d))
    by (rewrite <- pow2_Z by lia; now rewrite <- Zle_Qle).
  assert (Qd2 : inject_Z (Zpos d) < 2 ^ (ld + 1)).
  { rewrite <- pow2_Z by lia. rewrite <- Zlt_Qlt.
    now replace (ld + 1)%Z with (Z.succ ld) by lia. }
  assert (Hq' : n # d == inject_Z n / inject_Z (Zpos d)) by apply Qmake_Qdiv.
  pose proof (pow2_pos ld) as Pld. pose proof (pow2_pos ln) as Pln.
  pose proof (pow2_pos (ld + 1)) as Pld1.
  assert (Dpos : 0 < inject_Z (Zpos d)) by (rewrite <- (Zlt_Qlt 0); lia).
  split.
  - replace (k - 1)%Z with (ln - (ld + 1))%Z by (subst k; lia).
    rewrite Qpower_minus by (intro H; discriminate H). rewrite Hq'.
    apply Qlt_le_weak, frac_lt; lra.
  - replace (k + 1)%Z with ((ln + 1) - ld)%Z by (subst k; lia).
    rewrite Qpower_minus by (intro H; discriminate H). rewrite Hq'.
    assert (Npos : 0 < inject_Z n) by (rewrite <- (Zlt_Qlt 0); lia).
    apply frac_lt'; lra.
Qed.

Lemma binade_spec (q : Q) :
  0 < q -> 2 ^ binade q <= q /\ q < 2 ^ (binade q + 1).
Proof.
  intro Hq. destruct (binade_window q Hq) as [Hlo Hhi]. unfold binade.
  cbv zeta in *.
  set (k := (Z.log2 (Qnum q) - Z.log2 (Zpos (Qden q)))%Z) in *.
  destruct (Qle_bool (2 ^ k) q) eqn:E.
  - apply Qle_bool_iff in E. split; assumption.
  - split; [exact Hlo|].
    replace (k - 1 + 1)%Z with k by lia.
    apply Qnot_le_lt. intro H. apply Qle_bool_iff in H. congruence.
Qed.

Lemma binade_unique (q : Q) (e : Z) :
  2 ^ e <= q -> q < 2 ^ (e + 1) -> binade q = e.
Proof.
  intros Hlo Hhi.
  assert (Hq : 0 < q) by (pose proof (pow2_pos e); lra).
  destruct (binade_spec q Hq) as [Blo Bhi].
  assert (binade q < e + 1)%Z by (apply pow2_lt_inv; lra).
  assert (e < binade q + 1)%Z by (apply pow2_lt_inv; lra).
  lia.
Qed.

Lemma binade_comp (p q : Q) : 0 < p -> p == q -> binade p = binade q.
Proof.
  intros Hp E. destruct (binade_spec p Hp) as [Blo Bhi].
  symmetry. apply binade_unique; rewrite <- E; assumption.
Qed.

Lemma binade_mono (p q : Q) : 0 < p -> p <= q -> (binade p <= binade q)%Z.
Proof.
  intros Hp Hpq.
  destruct (binade_spec p Hp) as [Plo Phi].
  destruct (binade_spec q ltac:(lra)) as [Qlo Qhi].
  assert (binade p < binade q + 1)%Z by (apply pow2_lt_inv; lra).
  lia.
Qed.

Lemma ulp_pos (q : Q) : 0 < ulp q.
Proof. apply pow2_pos. Qed.

Lemma ulp_comp (p q : Q) : 0 < p -> p == q -> ulp p = ulp q.
Proof. intros Hp E. unfold ulp. now rewrite (binade_comp p q Hp E). Qed.

Lemma round_positive_comp (p q : Q) :
  0 < p -> p == q -> round_positive p == round_positive q.
Proof.
  intros Hp E. unfold round_positive. rewrite (ulp_comp p q Hp E).
  assert (E' : p / ulp q == q / ulp q) by (rewrite E; reflexivity).
  rewrite (round_half_even_comp _ _ E'). reflexivity.
Qed.

Lemma round_positive_nonneg (q : Q) : 0 < q -> 0 <= round_positive q.
Proof.
  intro Hq. unfold round_positive. pose proof (ulp_pos q) as Hu.
  assert (H : (round_half_even 0 <= round_half_even (q / ulp q))%Z).
  { apply round_half_even_mono. apply Qle_shift_div_l; [exact Hu | lra]. }
  change 0 with (inject_Z 0) in H at 1. rewrite round_half_even_Z in H.
  apply Qmult_le_0_compat; [|lra].
  change 0 with (inject_Z 0). now rewrite <- Zle_Qle.
Qed.

(** The scaled significand lies below [2^53], and at or above [2^52] for a
    number in the normal range. *)
Lemma scaled_below (q : Q) : 0 < q -> q / ulp q < 2 ^ 53.
Proof.
  intro Hq. pose proof (ulp_pos q) as Hu.
  destruct (binade_spec q Hq) as [_ Hhi].
  apply Qlt_shift_div_r; [exact Hu|]. unfold ulp.
  rewrite <- Qpower_plus by (intro H; discriminate H).
  apply Qlt_le_trans with (2 ^ (binade q + 1)); [exact Hhi|].
  apply pow2_le. lia.
Qed.

Lemma scaled_above (q : Q) :
  0 < q -> (-1022 <= binade q)%Z -> 2 ^ 52 <= q / ulp q.
Proof.
  intros Hq Hn. pose proof (ulp_pos q) as Hu.
  destruct (binade_spec q Hq) as [Hlo _].
  apply Qle_shift_div_l; [exact Hu|]. unfold ulp.
  rewrite <- Qpower_plus by (intro H; discriminate H).
  apply Qle_trans with (2 ^ binade q); [|exact Hlo].
  apply pow2_le. lia.
Qed.

Lemma significand_below (q : Q) :
  0 < q -> (round_half_even (q / ulp q) <= 2 ^ 53)%Z.
Proof.
  intro Hq. rewrite <- (round_half_even_Z (2 ^ 53)).
  apply round_half_even_mono. rewrite pow2_Z by lia.
  apply Qlt_le_weak, scaled_below, Hq.
Qed.

Lemma significand_above (q : Q) :
  0 < q -> (-1022 <= binade q)%Z -> (2 ^ 52 <= round_half_even (q / ulp q))%Z.
Proof.
  intros Hq Hn. rewrite <- (round_half_even_Z (2 ^ 52)).
  apply round_half_even_mono. rewrite pow2_Z by lia.
  now apply scaled_above.
Qed.

Lemma round_positive_mono (p q : Q) :
  0 < p -> p <= q -> round_positive p <= round_positive q.
Proof.
  intros Hp Hpq. assert (Hq : 0 < q) by lra.
  pose proof (binade_mono p q Hp Hpq) as Hb.
  destruct (Z.eq_dec (Z.max (binade p) (-1022)) (Z.max (binade q) (-1022)))
    as [E|N].
  - unfold round_positive.
    assert (Eu : ulp p = ulp q) by (unfold ulp; now rewrite E).
    rewrite Eu. pose proof (ulp_pos q) as Hu.
    apply Qmult_le_compat_r; [|lra].
    rewrite <- Zle_Qle. apply round_half_even_mono.
    apply Qle_shift_div_l; [exact Hu|].
    setoid_replace (p / ulp q * ulp q) with p by (field; lra). exact Hpq.
  - assert (Hq1 : (-1022 <= binade q)%Z) by lia.
    assert (Hlt : (Z.max (binade p) (-1022) + 1 <= binade q)%Z) by lia.
    apply Qle_trans with (2 ^ binade q).
    + unfold round_positive.
      apply Qle_trans with (inject_Z (2 ^ 53) * ulp p).
      * apply Qmult_le_compat_r; [|pose proof (ulp_pos p); lra].
        rewrite <- Zle_Qle. now apply significand_below.
      * rewrite pow2_Z by lia. unfold ulp.
        rewrite <- Qpower_plus by (intro H; discriminate H).
        apply pow2_le. lia.
    + unfold round_positive.
      apply Qle_trans with (inject_Z (2 ^ 52) * ulp q).
      * rewrite pow2_Z by lia. unfold ulp.
        rewrite <- Qpower_plus by (intro H; discriminate H).
        apply pow2_le. lia.
      * apply Qmult_le_compat_r; [|pose proof (ulp_pos q); lra].
        rewrite <- Zle_Qle. now apply significand_above.
Qed.

Lemma round_binary64_pos (q : Q) : 0 < q -> round_binary64 q = round_positive q.
Proof.
  intro H. unfold round_binary64.
  destruct (Qcompare_spec q 0) as [E|E|E]; [lra | lra | reflexivity].
Qed.

Lemma round_binary64_neg (q : Q) :
  q < 0 -> round_binary64 q = - round_positive (- q).
Proof.
  intro H. unfold round_binary64.
  destruct (Qcompare_spec q 0) as [E|E|E]; [lra | reflexivity | lra].
Qed.

Lemma round_binary64_zero (q : Q) : q == 0 -> round_binary64 q = 0.
Proof.
  intro H. unfold round_binary64.
  destruct (Qcompare_spec q 0) as [E|E|E]; [reflexivity | lra | lra].
Qed.

Lemma round_binary64_comp (p q : Q) :
  p == q -> round_binary64 p == round_binary64 q.
Proof.
  intro E. destruct (Q_dec p 0) as [[H|H]|H].
  - rewrite (round_binary64_neg p H), (round_binary64_neg q) by lra.
    apply Qopp_comp. apply round_positive_comp; [lra | now rewrite E].
  - rewrite (round_binary64_pos p H), (round_binary64_pos q) by lra.
    now apply round_positive_comp.
  - rewrite (round_binary64_zero p H), (round_binary64_zero q) by lra.
    reflexivity.
Qed.

Lemma round_binary64_mono (p q : Q) :
  p <= q -> round_binary64 p <= round_binary64 q.
Proof.
  intro Hpq.
  destruct (Q_dec p 0) as [[Hp|Hp]|Hp]; destruct (Q_dec q 0) as [[Hq|Hq]|Hq];
    try (exfalso; lra);
    rewrite ?(round_binary64_neg p), ?(round_binary64_pos p),
            ?(round_binary64_zero p), ?(round_binary64_neg q),
            ?(round_binary64_pos q), ?(round_binary64_zero q) by assumption.
  - apply Qopp_le_compat. apply round_positive_mono; lra.
  - pose proof (round_positive_nonneg (- p)). pose proof (round_positive_nonneg q).
    lra.
  - pose proof (round_positive_nonneg (- p)). lra.
  - now apply round_positive_mono.
  - pose proof (round_positive_nonneg q). lra.
  - lra.
Qed.

Lemma round_positive_fixed (r : Q) (m e : Z) :
  (-1022 <= e)%Z -> (0 < m <= 2 ^ 53)%Z ->
  (2 ^ 52 <= m)%Z \/ e = (-1022)%Z ->
  r == inject_Z m * 2 ^ (e - 52) ->
  round_positive r == r.
Proof.
  intros He [Hm0 Hm] Hnorm Er.
  pose proof (pow2_pos (e - 52)) as Hu.
  assert (Hm0' : 0 < inject_Z m) by (rewrite <- (Zlt_Qlt 0); lia).
  assert (Hr : 0 < r) by (rewrite Er; nra).
  assert (E53 : 2 ^ 53 * 2 ^ (e - 52) == 2 ^ (e + 1)).
  { rewrite <- Qpower_plus by (intro H; discriminate H).
    now replace (53 + (e - 52))%Z with (e + 1)%Z by lia. }
  assert (E52 : 2 ^ 52 * 2 ^ (e - 52) == 2 ^ e).
  { rewrite <- Qpower_plus by (intro H; discriminate H).
    now replace (52 + (e - 52))%Z with e by lia. }
  assert (Hfix : forall m' e',
             Z.max (binade r) (-1022) = e' ->
             r == inject_Z m' * 2 ^ (e' - 52) -> round_positive r == r).
  { intros m' e' Hmax Er'. unfold round_positive, ulp. rewrite Hmax.
    assert (Es : r / 2 ^ (e' - 52) == inject_Z m').
    { rewrite Er'. field. pose proof (pow2_pos (e' - 52)). lra. }
    rewrite (round_half_even_comp _ _ Es), round_half_even_Z.
    now rewrite Er'. }
  destruct (Z.eq_dec m (2 ^ 53)) as [Em|Nm].
  - assert (Er2 : r == 2 ^ (e + 1)).
    { rewrite Er, Em, pow2_Z by lia. exact E53. }
    apply (Hfix (2 ^ 52)%Z (e + 1)%Z).
    + rewrite (binade_unique r (e + 1)); [lia | rewrite Er2; lra |].
      rewrite Er2. rewrite (pow2_succ (e + 1)).
      pose proof (pow2_pos (e + 1)). lra.
    + rewrite Er2, pow2_Z by lia.
      rewrite <- Qpower_plus by (intro H; discriminate H).
      now replace (52 + (e + 1 - 52))%Z with (e + 1)%Z by lia.
  - assert (Hlt : r < 2 ^ (e + 1)).
    { rewrite <- E53, Er. apply Qmult_lt_compat_r; [exact Hu|].
      rewrite <- pow2_Z by lia. rewrite <- Zlt_Qlt. lia. }
    apply (Hfix m e); [|exact Er].
    destruct (binade_spec r Hr) as [Blo Bhi].
    assert (binade r < e + 1)%Z by (apply pow2_lt_inv; lra).
    destruct Hnorm as [H52|He'].
    + assert (Hge : 2 ^ e <= r).
      { rewrite <- E52, Er. apply Qmult_le_compat_r; [|lra].
        rewrite <- pow2_Z by lia. now rewrite <- Zle_Qle. }
      rewrite (binade_unique r e Hge Hlt). lia.
    + lia.
Qed.

Lemma round_positive_idem (a : Q) :
  0 < a -> 0 < round_positive a ->
  round_positive (round_positive a) == round_positive a.
Proof.
  intros Ha Hr.
  apply (round_positive_fixed _ (round_half_even (a / ulp a))
                              (Z.max (binade a) (-1022))).
  - lia.
  - split; [|now apply significand_below].
    unfold round_positive in Hr. pose proof (ulp_pos a) as Hu.
    destruct (Z_lt_le_dec 0 (round_half_even (a / ulp a))) as [H|H]; [exact H|].
    exfalso. rewrite (Zle_Qle _ 0) in H. change (inject_Z 0) with 0 in H. nra.
  - destruct (Z_le_gt_dec (-1022) (binade a)) as [H|H].
    + left. now apply significand_above.
    + right. lia.
  - reflexivity.
Qed.

(** Rounding twice is rounding once. *)
Lemma round_binary64_idem (q : Q) :
  round_binary64 (round_binary64 q) == round_binary64 q.
Proof.
  destruct (Q_dec q 0) as [[H|H]|H].
  - rewrite (round_binary64_neg q H).
    pose proof (round_positive_nonneg (- q) ltac:(lra)) as Hr.
    destruct (Qle_lt_or_eq _ _ Hr) as [Hpos|Hzero].
    + rewrite round_binary64_neg by lra.
      apply Qopp_comp.
      rewrite (round_positive_comp (- - round_positive (- q))
                                   (round_positive (- q)))
        by (try lra; ring).
      apply round_positive_idem; lra.
    + rewrite round_binary64_zero by lra. lra.
  - rewrite (round_binary64_pos q H).
    pose proof (round_positive_nonneg q H) as Hr.
    destruct (Qle_lt_or_eq _ _ Hr) as [Hpos|Hzero].
    + rewrite round_binary64_pos by exact Hpos.
      now apply round_positive_idem.
    + rewrite round_binary64_zero by lra. lra.
  - rewrite (round_binary64_zero q H). reflexivity.
Qed.

(** The rounding error is at most half a unit in the last place. *)
Lemma round_positive_near (a : Q) :
  0 < a ->
  a - (1 # 2) * ulp a <= round_positive a
  /\ round_positive a <= a + (1 # 2) * ulp a.
Proof.
  intro Ha. pose proof (ulp_pos a) as Hu. unfold round_positive.
  destruct (round_half_even_near (a / ulp a)) as [Hlo Hhi].
  assert (E : a / ulp a * ulp a == a) by (field; lra).
  set (m := inject_Z (round_half_even (a / ulp a))) in *.
  set (x := a / ulp a) in *. set (u := ulp a) in *.
  assert (P1 : 0 <= (x - (m - (1 # 2))) * u) by (apply Qmult_le_0_compat; lra).
  assert (P2 : 0 <= (m + (1 # 2) - x) * u) by (apply Qmult_le_0_compat; lra).
  split; lra.
Qed.

Lemma ulp_below (a : Q) (e : Z) :
  0 < a -> a < 2 ^ (e + 1) -> (-1022 <= e)%Z -> ulp a <= 2 ^ (e - 52).
Proof.
  intros Ha Hlt He. destruct (binade_spec a Ha) as [Blo _].
  assert (binade a < e + 1)%Z by (apply pow2_lt_inv; lra).
  unfold ulp. apply pow2_le. lia.
Qed.

(** Rounding to binary64 is a rounding in the sense used below. *)
Lemma round_binary64_rounding : rounding round_binary64.
Proof.
  constructor.
  - exact round_binary64_mono.
  - exact round_binary64_idem.
  - now rewrite round_binary64_zero.
Qed.

(** ** Roundings *)

Lemma rounding_comp (fl : Q -> Q) (x y : Q) :
  rounding fl -> x == y -> fl x == fl y.
Proof.
  intros Hfl E. apply Qle_antisym; apply (fl_monotone fl Hfl); rewrite E; lra.
Qed.

Lemma rounding_nonneg (fl : Q -> Q) (x : Q) : rounding fl -> 0 <= x -> 0 <= fl x.
Proof.
  intros Hfl Hx. rewrite <- (fl_zero fl Hfl). now apply (fl_monotone fl Hfl).
Qed.

(** ** poisson_spikes in rounded arithmetic *)

Lemma rounded_spaced_snoc (fl : Q -> Q) (dt : Q) (l : list Q) (x : Q) :
  Rounded.spaced fl dt l -> l <> [] -> fl (last l 0 + dt) <= x ->
  Rounded.spaced fl dt (l ++ [x]).
Proof.
  induction l as [|a [|b tl] IH]; intros Hsp Hne Hx.
  - contradiction.
  - simpl in *. split; [exact Hx | exact I].
  - destruct Hsp as [Hab Htl].
    change ((a :: b :: tl) ++ [x]) with (a :: b :: (tl ++ [x])).
    split; [exact Hab|].
    change (b :: tl ++ [x]) with ((b :: tl) ++ [x]).
    apply IH; [exact Htl | discriminate | exact Hx].
Qed.

Lemma rounded_spaced_removelast (fl : Q -> Q) (dt : Q) (l : list Q) :
  Rounded.spaced fl dt l -> Rounded.spaced fl dt (removelast l).
Proof.
  induction l as [|x [|x' [|x'' tl]] IH]; intro Hsp; try exact I.
  destruct Hsp as [Hxx' Htl]. specialize (IH Htl).
  change (removelast (x :: x' :: x'' :: tl))
    with (x :: x' :: removelast (x'' :: tl)).
  change (removelast (x' :: x'' :: tl))
    with (x' :: removelast (x'' :: tl)) in IH.
  split; assumption.
Qed.

Lemma nondecreasing_snoc (l : list Q) (x : Q) :
  nondecreasing l -> l <> [] -> last l 0 <= x -> nondecreasing (l ++ [x]).
Proof.
  induction l as [|a [|b tl] IH]; intros Hnd Hne Hx.
  - contradiction.
  - simpl in *. split; [exact Hx | exact I].
  - destruct Hnd as [Hab Htl].
    change ((a :: b :: tl) ++ [x]) with (a :: b :: (tl ++ [x])).
    split; [exact Hab|].
    change (b :: tl ++ [x]) with ((b :: tl) ++ [x]).
    apply IH; [exact Htl | discriminate | exact Hx].
Qed.

Lemma nondecreasing_removelast (l : list Q) :
  nondecreasing l -> nondecreasing (removelast l).
Proof.
  induction l as [|x [|x' [|x'' tl]] IH]; intro Hnd; try exact I.
  destruct Hnd as [Hxx' Htl]. specialize (IH Htl).
  change (removelast (x :: x' :: x'' :: tl))
    with (x :: x' :: removelast (x'' :: tl)).
  change (removelast (x' :: x'' :: tl))
    with (x' :: removelast (x'' :: tl)) in IH.
  split; assumption.
Qed.

(** A train in which every rounded sum advances by at least [g] has gaps
    of at least [g]. *)
Lemma rounded_spaced_gaps (fl : Q -> Q) (dt g dura : Q) (l : list Q) :
  (forall t, 0 <= t -> t < dura -> t + g <= fl (t + dt)) ->
  Forall (fun t => 0 <= t) l ->
  Forall (fun t => t < dura) (removelast l) ->
  Rounded.spaced fl dt l -> spaced g l.
Proof.
  intro Hadv. induction l as [|x [|y tl] IH]; intros Hpos Hbelow Hsp;
    try exact I.
  destruct Hsp as [Hxy Htl].
  change (removelast (x :: y :: tl)) with (x :: removelast (y :: tl)) in Hbelow.
  inversion Hpos as [|? ? Hx Hpos']; subst.
  inversion Hbelow as [|? ? Hxd Hbelow']; subst.
  split.
  - pose proof (Hadv x Hx Hxd). lra.
  - apply IH; assumption.
Qed.

Section RoundedPoisson.

Variable fl : Q -> Q.
Variable exponential : Q -> nat -> Q.

Hypothesis Hfl : rounding fl.
Hypothesis Hdraws : forall scale k, fl (exponential scale k) == exponential scale k.

Lemma rounded_new_interval_run (rate dt : Q) (s : world) :
  0 < rate ->
  Rounded.new_interval fl exponential rate dt s
  = (mkWorld (S (drawn s)) (warnings s),
     Ok (if Qltb (exponential (fl (1 / rate)) (drawn s)) dt then dt
         else exponential (fl (1 / rate)) (drawn s))).
Proof.
  intro Hrate. unfold Rounded.new_interval.
  rewrite (Qeq_bool_false_of_neq rate 0) by lra.
  unfold bind, random_exponential.
  assert (H : Qltb (fl (1 / rate)) 0 = false).
  { apply Qltb_ge. apply (rounding_nonneg fl _ Hfl).
    apply Qle_shift_div_l; lra. }
  rewrite H. reflexivity.
Qed.

Lemma clamped_interval_double (e dt : Q) :
  fl dt == dt -> fl e == e ->
  fl (if Qltb e dt then dt else e) == (if Qltb e dt then dt else e).
Proof. intros Hdt He. destruct (Qltb e dt); assumption. Qed.

Lemma rounded_poisson_first_nonempty
      (fuel : nat) (dura rate dt x : Q) (l : list Q) :
  Rounded.poisson_first fl exponential fuel dura rate dt (x :: l) = ret (x :: l).
Proof. destruct fuel; reflexivity. Qed.

Lemma rounded_poisson_rest_unfold (fuel : nat) (dura rate dt : Q) (l : list Q) :
  Rounded.poisson_rest fl exponential fuel dura rate dt l
  = if Qltb (last l 0) dura then
      match fuel with
      | O => fail OutOfFuel
      | S fuel' =>
          newinterval <- Rounded.new_interval fl exponential rate dt ;;
          Rounded.poisson_rest fl exponential fuel' dura rate dt
            (l ++ [fl (last l 0 + newinterval)])
      end
    else ret l.
Proof. destruct fuel; reflexivity. Qed.

Lemma rounded_poisson_first_ok (dura rate dt : Q) (fuel : nat) :
  0 < rate -> fl dt == dt ->
  forall (s s' : world) (l : list Q),
    Rounded.poisson_first fl exponential fuel dura rate dt [] s = (s', Ok l) ->
    exists x, l = [x] /\ dt <= x /\ x < dura /\ fl x == x.
Proof.
  intros Hrate Hdt. induction fuel as [|fuel IH]; intros s s' l Hrun.
  - discriminate.
  - cbn [Rounded.poisson_first] in Hrun. unfold bind in Hrun.
    rewrite (rounded_new_interval_run rate dt s Hrate) in Hrun.
    pose proof (clamped_interval_double
                  (exponential (fl (1 / rate)) (drawn s)) dt Hdt (Hdraws _ _))
      as Hc.
    set (c := if Qltb (exponential (fl (1 / rate)) (drawn s)) dt then dt
              else exponential (fl (1 / rate)) (drawn s)) in *.
    destruct (Qltb c dura) eqn:Ec.
    + rewrite rounded_poisson_first_nonempty in Hrun. inversion Hrun; subst.
      exists c. split; [reflexivity|]. split; [|split].
      * apply clamped_interval_ge.
      * now apply Qltb_lt.
      * exact Hc.
    + exact (IH _ _ _ Hrun).
Qed.

Lemma rounded_poisson_first_returns (dura rate dt : Q) :
  0 < rate -> dt < dura ->
  forall (n : nat) (s : world),
    exponential (fl (1 / rate)) (drawn s + n) < dura ->
    forall fuel, (n < fuel)%nat ->
      exists s' l,
        Rounded.poisson_first fl exponential fuel dura rate dt [] s = (s', Ok l).
Proof.
  intros Hrate Hdt. induction n as [|n IH]; intros s He fuel Hfuel;
    (destruct fuel as [|fuel]; [lia|]);
    cbn [Rounded.poisson_first]; unfold bind;
    rewrite (rounded_new_interval_run rate dt s Hrate);
    set (c := if Qltb (exponential (fl (1 / rate)) (drawn s)) dt then dt
              else exponential (fl (1 / rate)) (drawn s)).
  - rewrite Nat.add_0_r in He.
    assert (Hc : Qltb c dura = true).
    { apply Qltb_lt. subst c. destruct (Qltb _ dt); lra. }
    rewrite Hc, rounded_poisson_first_nonempty. unfold ret. eauto.
  - destruct (Qltb c dura).
    + rewrite rounded_poisson_first_nonempty. unfold ret. eauto.
    + apply IH; [|lia]. cbn [drawn].
      now replace (S (drawn s) + n)%nat with (drawn s + S n)%nat by lia.
Qed.

Lemma last_in_list (x : Q) (l : list Q) : In (last (x :: l) 0) (x :: l).
Proof.
  revert x. induction l as [|y tl IH]; intro x; [now left|].
  change (last (x :: y :: tl) 0) with (last (y :: tl) 0). right. apply IH.
Qed.

(** A rounded sum of a double and an interval of at least [dt] is neither
    below the double nor below its rounded sum with [dt]. *)
Lemma rounded_step (t c dt : Q) :
  fl t == t -> 0 < dt -> dt <= c ->
  t <= fl (t + c) /\ fl (t + dt) <= fl (t + c).
Proof.
  intros Ht Hdt Hc. split.
  - rewrite <- Ht at 1. apply (fl_monotone fl Hfl). lra.
  - apply (fl_monotone fl Hfl). lra.
Qed.

Lemma rounded_poisson_rest_ok (dura rate dt : Q) (fuel : nat) :
  0 < rate -> 0 < dt ->
  forall (l : list Q) (s s' : world) (out : list Q),
    Rounded.poisson_invariant fl dt dura l ->
    Rounded.poisson_rest fl exponential fuel dura rate dt l s = (s', Ok out) ->
    Rounded.poisson_invariant fl dt dura out /\ dura <= last out 0.
Proof.
  intros Hrate Hdt. induction fuel as [|fuel IH]; intros l s s' out Hinv Hrun;
    rewrite rounded_poisson_rest_unfold in Hrun;
    destruct (Qltb (last l 0) dura) eqn:Elast;
    try discriminate;
    try (inversion Hrun; subst; split; [exact Hinv | now apply Qltb_ge]).
  unfold bind in Hrun.
  rewrite (rounded_new_interval_run rate dt s Hrate) in Hrun.
  pose proof (clamped_interval_ge (exponential (fl (1 / rate)) (drawn s)) dt)
    as Hc.
  set (c := if Qltb (exponential (fl (1 / rate)) (drawn s)) dt then dt
            else exponential (fl (1 / rate)) (drawn s)) in *.
  apply (IH _ _ _ _) in Hrun; [exact Hrun|].
  destruct Hinv as [first [rest [El [Hf1 [Hf2 [Hsp [Hnd [Hdbl Hbelow]]]]]]]].
  subst l.
  assert (Hlast : fl (last (first :: rest) 0) == last (first :: rest) 0).
  { rewrite Forall_forall in Hdbl. apply Hdbl, last_in_list. }
  destruct (rounded_step _ c dt Hlast Hdt Hc) as [Hup Hgap].
  exists first, (rest ++ [fl (last (first :: rest) 0 + c)]).
  split; [reflexivity|]. split; [exact Hf1|]. split; [exact Hf2|].
  change (first :: rest ++ [fl (last (first :: rest) 0 + c)])
    with ((first :: rest) ++ [fl (last (first :: rest) 0 + c)]).
  split; [|split; [|split]].
  - apply rounded_spaced_snoc; [exact Hsp | discriminate | exact Hgap].
  - apply nondecreasing_snoc; [exact Hnd | discriminate | exact Hup].
  - apply Forall_app. split; [exact Hdbl|].
    constructor; [apply (fl_idempotent fl Hfl) | constructor].
  - rewrite removelast_last.
    rewrite (app_removelast_last 0 (l := first :: rest)) by discriminate.
    apply Forall_app. split; [exact Hbelow|].
    constructor; [now apply Qltb_lt | constructor].
Qed.

Lemma rounded_poisson_rest_returns (dura rate dt g : Q) :
  0 < rate -> 0 < dt -> 0 < g ->
  (forall t, 0 <= t -> t < dura -> t + g <= fl (t + dt)) ->
  forall (n : nat) (l : list Q) (s : world),
    0 <= last l 0 ->
    dura - last l 0 <= inject_Z (Z.of_nat n) * g ->
    forall fuel, (n <= fuel)%nat ->
      exists s' out,
        Rounded.poisson_rest fl exponential fuel dura rate dt l s = (s', Ok out).
Proof.
  intros Hrate Hdt Hg Hadv. induction n as [|n IH]; intros l s Hpos Hn fuel Hfuel;
    rewrite rounded_poisson_rest_unfold;
    destruct (Qltb (last l 0) dura) eqn:Elast;
    try (unfold ret; eauto; fail).
  - apply Qltb_lt in Elast. change (inject_Z (Z.of_nat 0)) with 0 in Hn. lra.
  - destruct fuel as [|fuel]; [lia|].
    unfold bind. rewrite (rounded_new_interval_run rate dt s Hrate).
    pose proof (clamped_interval_ge (exponential (fl (1 / rate)) (drawn s)) dt)
      as Hc.
    set (c := if Qltb (exponential (fl (1 / rate)) (drawn s)) dt then dt
              else exponential (fl (1 / rate)) (drawn s)) in *.
    apply Qltb_lt in Elast.
    pose proof (Hadv _ Hpos Elast) as Hstep.
    assert (Hmono : fl (last l 0 + dt) <= fl (last l 0 + c))
      by (apply (fl_monotone fl Hfl); lra).
    apply IH; [| |lia]; rewrite last_last; [lra|].
    rewrite Nat2Z.inj_succ, <- Z.add_1_r, inject_Z_plus in Hn.
    change (inject_Z 1) with 1 in Hn. lra.
Qed.

Lemma rounded_poisson_spikes_ok
      (fuel : nat) (dura rate dt : Q) (s s' : world) (train : list Q) :
  0 < rate -> 0 < dt -> fl dt == dt ->
  Rounded.poisson_spikes fl exponential fuel dura rate dt s = (s', Ok train) ->
  train <> [] /\ nondecreasing train /\ Rounded.spaced fl dt train
  /\ dt <= hd 0 train /\ Forall (fun t => t < dura) train.
Proof.
  intros Hrate Hdt Hdtd Hrun. unfold Rounded.poisson_spikes, bind in Hrun.
  destruct (Rounded.poisson_first fl exponential fuel dura rate dt [] s)
    as [s1 [l1| | |]] eqn:E1; try (inversion Hrun; fail).
  destruct (rounded_poisson_first_ok _ _ _ _ Hrate Hdtd _ _ _ E1)
    as [x [-> [Hx1 [Hx2 Hx3]]]].
  destruct (Rounded.poisson_rest fl exponential fuel dura rate dt [x] s1)
    as [s2 [l2| | |]] eqn:E2; try (inversion Hrun; fail).
  unfold ret in Hrun. inversion Hrun; subst s' train; clear Hrun.
  assert (Hinv : Rounded.poisson_invariant fl dt dura [x]).
  { exists x, []. repeat split; auto. }
  destruct (rounded_poisson_rest_ok _ _ _ _ Hrate Hdt _ _ _ _ Hinv E2)
    as [[first [rest [-> [Hf1 [Hf2 [Hsp [Hnd [_ Hbelow]]]]]]]] Hlast].
  destruct rest as [|second rest]; [simpl in Hlast; lra|].
  pose proof (rounded_spaced_removelast fl _ _ Hsp) as Hsp'.
  pose proof (nondecreasing_removelast _ Hnd) as Hnd'.
  change (removelast (first :: second :: rest))
    with (first :: removelast (second :: rest)) in *.
  split; [discriminate|]. split; [exact Hnd'|].
  split; [exact Hsp'|]. split; [exact Hf1 | exact Hbelow].
Qed.

Lemma nondecreasing_from (l : list Q) (x : Q) :
  nondecreasing l -> x <= hd x l -> Forall (fun t => x <= t) l.
Proof.
  induction l as [|a [|b tl] IH]; intros Hnd Hx.
  - constructor.
  - constructor; [exact Hx | constructor].
  - destruct Hnd as [Hab Htl]. cbn [hd] in Hx.
    constructor; [exact Hx|]. apply IH; [exact Htl|]. cbn [hd]. lra.
Qed.

(** C6 (as amended): for a rate > 0, a step dt > 0 given as a double and a
    duration above dt, in double arithmetic, whatever [poisson_spikes]
    returns is a non-empty train that never decreases, in which every time
    is at least the rounded sum of the time before it and [dt], whose
    first time is at least [dt] and whose times are all strictly below the
    duration.  When every such rounded sum advances by at least [g > 0]
    ([g = dt] in exact arithmetic), the train is strictly increasing with
    every gap at least [g], and whenever the exponential source holds a
    draw below the duration among those still to come the call returns:
    every large enough bound on the loops gives a result. *)
Theorem poisson_spikes_rounded_train (rate dt dura : Q) (s : world) :
  0 < rate -> 0 < dt -> dt < dura -> fl dt == dt ->
  (forall fuel s' train,
      Rounded.poisson_spikes fl exponential fuel dura rate dt s = (s', Ok train) ->
      train <> []
      /\ nondecreasing train
      /\ Rounded.spaced fl dt train
      /\ dt <= hd 0 train
      /\ Forall (fun t => t < dura) train)
  /\ (forall g,
        0 < g ->
        (forall t, 0 <= t -> t < dura -> t + g <= fl (t + dt)) ->
        (forall fuel s' train,
            Rounded.poisson_spikes fl exponential fuel dura rate dt s
            = (s', Ok train) ->
            increasing train /\ spaced g train)
        /\ ((exists k, (drawn s <= k)%nat
                       /\ exponential (fl (1 / rate)) k < dura) ->
            exists fuel0, forall fuel, (fuel0 <= fuel)%nat ->
              exists s' train,
                Rounded.poisson_spikes fl exponential fuel dura rate dt s
                = (s', Ok train))).
Proof.
  intros Hrate Hdt Hdura Hdtd. split.
  - intros fuel s' train Hrun.
    exact (rounded_poisson_spikes_ok _ _ _ _ _ _ _ Hrate Hdt Hdtd Hrun).
  - intros g Hg Hadv. split.
    + intros fuel s' train Hrun.
      destruct (rounded_poisson_spikes_ok _ _ _ _ _ _ _ Hrate Hdt Hdtd Hrun)
        as [Hne [Hnd [Hsp [Hhd Hbelow]]]].
      assert (Hgaps : spaced g train).
      { apply (rounded_spaced_gaps fl dt g dura); [exact Hadv | | |exact Hsp].
        - destruct train as [|x tl]; [contradiction|]. cbn [hd] in Hhd.
          eapply Forall_impl; [|apply (nondecreasing_from _ x Hnd); cbn [hd]; lra].
          intros t Ht. cbv beta in Ht. lra.
        - clear - Hbelow. induction Hbelow as [|x [|y tl] Hx Htl IH];
            try constructor; auto. }
      split; [now apply (spaced_increasing g) | exact Hgaps].
    + intros [k [Hk Hdraw]].
      exists (Nat.max (S (k - drawn s)) (Z.to_nat (Qceiling (dura / g)))).
      intros fuel Hfuel. unfold Rounded.poisson_spikes, bind.
      destruct (rounded_poisson_first_returns dura rate dt Hrate Hdura
                  (k - drawn s) s)
        with (fuel := fuel) as [s1 [l1 E1]].
      { now replace (drawn s + (k - drawn s))%nat with k by lia. }
      { lia. }
      rewrite E1.
      destruct (rounded_poisson_first_ok _ _ _ _ Hrate Hdtd _ _ _ E1)
        as [x [-> [Hx1 [Hx2 _]]]].
      destruct (rounded_poisson_rest_returns dura rate dt g Hrate Hdt Hg Hadv
                  (Z.to_nat (Qceiling (dura / g))) [x] s1)
        with (fuel := fuel) as [s2 [l2 E2]].
      { simpl. lra. }
      { pose proof (ceiling_steps dura g Hg). simpl. lra. }
      { lia. }
      rewrite E2. unfold ret. eauto.
Qed.

End RoundedPoisson.

(** A sum below [2^(e+1)] loses at most [2^(e-53)] to rounding. *)
Lemma round_binary64_advance (t dt g : Q) (e : Z) :
  0 <= t -> 0 < dt -> t + dt < 2 ^ (e + 1) -> (-1022 <= e)%Z ->
  g + 2 ^ (e - 53) <= dt ->
  t + g <= round_binary64 (t + dt).
Proof.
  intros Ht Hdt Hlt He Hg.
  rewrite round_binary64_pos by lra.
  destruct (round_positive_near (t + dt) ltac:(lra)) as [Hlo _].
  pose proof (ulp_below (t + dt) e ltac:(lra) Hlt He) as Hu.
  assert (E : 2 ^ (e - 52) == 2 * 2 ^ (e - 53)).
  { rewrite <- pow2_succ. now replace (e - 53 + 1)%Z with (e - 52)%Z by lia. }
  lra.
Qed.

Lemma poisson_spikes_rounded_train_witness :
  exists fuel0, forall fuel, (fuel0 <= fuel)%nat ->
    exists s' train,
      Rounded.poisson_spikes round_binary64
                             (fun _ _ => round_binary64 (3 # 10))
                             fuel 1 20 (round_binary64 (1 # 10000))
                             (mkWorld 0 [])
      = (s', Ok train).
Proof.
  destruct (poisson_spikes_rounded_train
              round_binary64 (fun _ _ => round_binary64 (3 # 10))
              round_binary64_rounding
              (fun _ _ => round_binary64_idem (3 # 10))
              20 (round_binary64 (1 # 10000)) 1 (mkWorld 0 []))
    as [_ Hadvancing].
  - reflexivity.
  - vm_compute. reflexivity.
  - vm_compute. reflexivity.
  - apply round_binary64_idem.
  - destruct (Hadvancing (1 # 20000)) as [_ Hreturns].
    + reflexivity.
    + intros t Ht0 Ht1.
      apply (round_binary64_advance t _ _ 0); try lra; try lia.
      * vm_compute. reflexivity.
      * assert (H : round_binary64 (1 # 10000) < 1) by (vm_compute; reflexivity).
        change (2 ^ (0 + 1)) with 2. lra.
      * unfold Qle. vm_compute. discriminate.
    + apply Hreturns. exists O. split; [simpl; lia | vm_compute; reflexivity].
Defined.

(** C6 as stated fails in double arithmetic: with the interval after 0.3
    raised to [dt = 0.0001], the sum [0.3 + 0.0001] is rounded to a double
    that is less than [dt] after 0.3. *)
Lemma poisson_spikes_gap_below_dt :
  exists s' x y,
    Rounded.poisson_spikes
      round_binary64
      (fun _ k => match k with
                  | O => round_binary64 (3 # 10)
                  | S O => 0
                  | _ => 1
                  end)
      3 1 20 (round_binary64 (1 # 10000)) (mkWorld 0 [])
    = (s', Ok [x; y])
    /\ x < y
    /\ y - x < round_binary64 (1 # 10000).
Proof.
  eexists. eexists. eexists. split; [vm_compute; reflexivity|].
  split; vm_compute; reflexivity.
Qed.

(** ** Binning in rounded arithmetic *)

Lemma map_result_raises {A B} (f : A -> result B) (e : exn) (xs : list A) :
  Forall (fun x => (exists y, f x = Ok y) \/ f x = Raise e) xs ->
  Exists (fun x => f x = Raise e) xs ->
  map_result f xs = Raise e.
Proof.
  intros Hall Hex. induction Hall as [|x tl Hx Htl IH]; [inversion Hex|].
  cbn [map_result]. destruct Hx as [[y Hy]|Hx].
  - rewrite Hy. cbn [rbind].
    inversion Hex as [? ? Hx|? ? Hlater]; subst; [congruence|].
    now rewrite (IH Hlater).
  - now rewrite Hx.
Qed.


Section RoundedBinning.

Variable fl : Q -> Q.
Hypothesis Hfl : rounding fl.

Lemma rounded_grid_index_nonneg (dt t : Q) :
  0 < dt -> 0 <= t -> (0 <= py_int (fl (t / dt)))%Z.
Proof.
  intros Hdt Ht. apply py_int_nonneg, (rounding_nonneg fl _ Hfl).
  now apply Qdiv_nonneg.
Qed.

Lemma rounded_grid_index_mono (dt s t : Q) :
  0 < dt -> 0 <= s -> s <= t ->
  (py_int (fl (s / dt)) <= py_int (fl (t / dt)))%Z.
Proof.
  intros Hdt Hs Hst. apply py_int_mono.
  - apply (rounding_nonneg fl _ Hfl). now apply Qdiv_nonneg.
  - apply (fl_monotone fl Hfl). now apply Qdiv_le_mono.
Qed.

Lemma rounded_last_to_grid (dt s : Q) (spikes : list Q) :
  last (Rounded.to_grid fl dt (s :: spikes)) 0%Z
  = py_int (fl (last (s :: spikes) 0 / dt)).
Proof.
  revert s. induction spikes as [|y tl IH]; intro s; [reflexivity|].
  change (last (Rounded.to_grid fl dt (s :: y :: tl)) 0%Z)
    with (last (Rounded.to_grid fl dt (y :: tl)) 0%Z).
  now rewrite IH.
Qed.

Lemma rounded_existsb_to_grid (dt : Q) (b : Z) (spikes : list Q) :
  existsb (fun i => (i =? b)%Z) (Rounded.to_grid fl dt spikes)
  = existsb (fun t => (py_int (fl (t / dt)) =? b)%Z) spikes.
Proof.
  unfold Rounded.to_grid. induction spikes as [|t tl IH]; [reflexivity|].
  cbn [map existsb]. now rewrite IH.
Qed.

(** A sorted train whose last grid index is not the grid length is binned:
    the spikes beyond the grid are dropped. *)
Lemma rounded_times_to_bin_in_grid (spikes : list Q) (dt duration : Q) :
  0 < dt -> 0 <= duration ->
  Forall (fun t => 0 <= t) spikes ->
  increasing spikes ->
  (spikes <> [] ->
   py_int (fl (last spikes 0 / dt)) <> py_int (fl (duration / dt))) ->
  exists bintimes,
    Rounded.times_to_bin fl spikes dt (Some duration) = Ok bintimes
    /\ length bintimes = Z.to_nat (py_int (fl (duration / dt)))
    /\ forall b, (b < length bintimes)%nat ->
         nth b bintimes 0 =
         if existsb (fun t => (py_int (fl (t / dt)) =? Z.of_nat b)%Z) spikes
         then 1 else 0.
Proof.
  intros Hdt Hdur Hpos Hinc Hlast.
  assert (Hdt0 : Qeq_bool dt 0 = false)
    by (apply Qeq_bool_false_of_neq; lra).
  pose proof (rounded_grid_index_nonneg dt duration Hdt Hdur) as Hlen.
  set (binlength := py_int (fl (duration / dt))) in *.
  assert (Hzeros : zeros binlength = Ok (repeat 0 (Z.to_nat binlength))).
  { unfold zeros. destruct (Z.ltb_spec binlength 0); [lia | reflexivity]. }
  destruct spikes as [|s rest].
  - exists (repeat 0 (Z.to_nat binlength)). cbn [Rounded.times_to_bin].
    rewrite Hdt0. fold binlength. rewrite Hzeros.
    split; [reflexivity|]. split; [apply repeat_length|].
    intros b _. cbn [existsb]. apply nth_repeat.
  - specialize (Hlast ltac:(discriminate)).
    pose proof (increasing_le_last _ Hinc) as Hle.
    set (st := Rounded.to_grid fl dt (s :: rest)).
    set (kept := if (last st 0 >? binlength)%Z
                 then filter (fun i => (i <? binlength)%Z) st else st).
    assert (Hkept : Forall (fun i => (0 <= i < binlength)%Z) kept).
    { subst kept. destruct (Z.gtb_spec (last st 0%Z) binlength) as [Hgt|Hngt].
      - apply Forall_forall. intros i Hi. apply filter_In in Hi.
        destruct Hi as [Hi Hlt]. apply Z.ltb_lt in Hlt. split; [|exact Hlt].
        subst st. unfold Rounded.to_grid in Hi. apply in_map_iff in Hi.
        destruct Hi as [t [<- Ht]].
        apply rounded_grid_index_nonneg; [exact Hdt|].
        rewrite Forall_forall in Hpos. now apply Hpos.
      - subst st. rewrite rounded_last_to_grid in Hngt.
        apply Forall_forall. intros i Hi. unfold Rounded.to_grid in Hi.
        apply in_map_iff in Hi. destruct Hi as [t [<- Ht]].
        rewrite Forall_forall in Hpos, Hle.
        pose proof (Hpos t Ht) as Ht0. pose proof (Hle t Ht) as Htl.
        pose proof (rounded_grid_index_mono dt t _ Hdt Ht0 Htl).
        split; [now apply rounded_grid_index_nonneg | lia]. }
    assert (Hexists : forall b, (Z.of_nat b < binlength)%Z ->
              existsb (fun i => (i =? Z.of_nat b)%Z) kept
              = existsb (fun t => (py_int (fl (t / dt)) =? Z.of_nat b)%Z)
                        (s :: rest)).
    { intros b Hb. subst kept.
      destruct (last st 0 >? binlength)%Z.
      - rewrite existsb_filter_below by exact Hb. apply rounded_existsb_to_grid.
      - apply rounded_existsb_to_grid. }
    destruct (setitems_in_range kept (repeat 0 (Z.to_nat binlength)) 1)
      as [bintimes [Hset [Hlength Hnth]]].
    { rewrite repeat_length. rewrite Z2Nat.id by lia. exact Hkept. }
    exists bintimes. rewrite repeat_length in Hlength, Hnth.
    split; [|split].
    + unfold Rounded.times_to_bin. rewrite Hdt0. cbn [rbind]. fold binlength.
      rewrite Hzeros. cbn [rbind]. fold st.
      destruct st as [|i0 st'] eqn:Est; [discriminate|].
      fold kept. exact Hset.
    + exact Hlength.
    + intros b Hb. rewrite Hlength in Hb. rewrite (Hnth b Hb).
      rewrite nth_repeat. rewrite Hexists by lia. reflexivity.
Qed.

(** A train whose last grid index is the grid length makes the assignment
    fail: the guard only drops spikes when the last index is above it. *)
Lemma rounded_times_to_bin_at_grid_end (spikes : list Q) (dt duration : Q) :
  0 < dt -> 0 <= duration ->
  spikes <> [] ->
  py_int (fl (last spikes 0 / dt)) = py_int (fl (duration / dt)) ->
  Rounded.times_to_bin fl spikes dt (Some duration) = Raise IndexError.
Proof.
  intros Hdt Hdur Hne Hlast.
  pose proof (rounded_grid_index_nonneg dt duration Hdt Hdur) as Hlen.
  destruct spikes as [|s tl]; [contradiction|].
  unfold Rounded.times_to_bin.
  rewrite (Qeq_bool_false_of_neq dt 0) by lra.
  cbn [rbind]. unfold zeros.
  destruct (Z.ltb_spec (py_int (fl (duration / dt))) 0) as [|_]; [lia|].
  cbn [rbind]. rewrite rounded_last_to_grid, Hlast.
  replace (py_int (fl (duration / dt)) >? py_int (fl (duration / dt)))%Z
    with false by (symmetry; rewrite Z.gtb_ltb; apply Z.ltb_ge; lia).
  unfold Rounded.to_grid at 1. cbn [map].
  apply (setitems_out_of_range _ _ _ (py_int (fl (last (s :: tl) 0 / dt)))).
  - unfold Rounded.to_grid.
    apply (in_map (fun t => py_int (fl (t / dt)))), last_in. discriminate.
  - rewrite repeat_length, Hlast. unfold np_index.
    destruct (Z.ltb_spec (py_int (fl (duration / dt)))
                         (Z.of_nat (Z.to_nat (py_int (fl (duration / dt))))));
      [lia|].
    rewrite andb_false_r.
    destruct (Z.ltb_spec (py_int (fl (duration / dt))) 0); [lia|].
    now rewrite andb_false_r.
Qed.

(** Every train of a list or dict is binned or raises [IndexError]. *)
Lemma rounded_times_to_bin_row (t : list Q) (dt duration : Q) :
  0 < dt -> 0 <= duration ->
  increasing t -> Forall (fun x => 0 <= x) t ->
  (exists y, Rounded.times_to_bin_entry fl 1 t dt (Some duration) = Ok y)
  \/ Rounded.times_to_bin_entry fl 1 t dt (Some duration) = Raise IndexError.
Proof.
  intros Hdt Hdur Hinc Hpos. cbn [Rounded.times_to_bin_entry].
  destruct t as [|x tl].
  - left. destruct (rounded_times_to_bin_in_grid
                      [] dt duration Hdt Hdur (Forall_nil _) I
                      (fun H => False_ind _ (H eq_refl)))
      as [b [Hb _]].
    eauto.
  - destruct (Z.eq_dec (py_int (fl (last (x :: tl) 0 / dt)))
                       (py_int (fl (duration / dt)))) as [E|N].
    + right. apply rounded_times_to_bin_at_grid_end; auto. discriminate.
    + left. destruct (rounded_times_to_bin_in_grid (x :: tl) dt duration
                        Hdt Hdur Hpos Hinc (fun _ => N)) as [b [Hb _]].
      eauto.
Qed.

Lemma rounded_times_to_bin_multi_unfold
      (trains : list (list Q)) (spikes : pyobject) (dt latest : Q) :
  spikes = PyList 1 trains \/ spikes = PyDict 1 trains ->
  py_max (concat trains) = Ok latest ->
  Rounded.times_to_bin_multi fl spikes dt None
  = map_result
      (fun st : nd 1 =>
         Rounded.times_to_bin_entry fl 1 st dt (Some (fl (latest + dt))))
      trains.
Proof.
  intros Hshape Hmax.
  assert (Hitems : container_items spikes = Ok (mkNd 1 trains))
    by (destruct Hshape as [-> | ->]; reflexivity).
  assert (Hflat : flat_map (leaves 1) trains = concat trains).
  { clear. induction trains as [|t tl IH]; [reflexivity|].
    cbn [flat_map concat]. rewrite IH. f_equal.
    cbn [leaves]. induction t as [|x t IHt]; [reflexivity|].
    cbn [flat_map app]. now rewrite IHt. }
  unfold Rounded.times_to_bin_multi. rewrite Hitems.
  cbn [rbind nd_depth nd_items].
  rewrite recursiveflat_leaves, Hflat, Hmax. reflexivity.
Qed.

Lemma latest_spike (trains : list (list Q)) :
  Forall (fun t => increasing t /\ Forall (fun x => 0 <= x) t) trains ->
  (exists t x, In t trains /\ In x t) ->
  exists latest,
    py_max (concat trains) = Ok latest
    /\ 0 <= latest
    /\ (exists t, In t trains /\ In latest t)
    /\ forall t x, In t trains -> In x t -> x <= latest.
Proof.
  intros Htrains [t0 [x0 [Ht0 Hx0]]].
  assert (Hne : concat trains <> []).
  { intro E. assert (Hx : In x0 (concat trains))
      by (apply in_concat; eauto).
    rewrite E in Hx. contradiction. }
  destruct (py_max_spec (concat trains) Hne) as [latest [Hmax [Hlin Hall]]].
  exists latest. split; [exact Hmax|].
  apply in_concat in Hlin. destruct Hlin as [t [Ht Hx]].
  split; [|split].
  - rewrite Forall_forall in Htrains. destruct (Htrains t Ht) as [_ Hpos].
    rewrite Forall_forall in Hpos. now apply Hpos.
  - eauto.
  - intros t' x Ht' Hx'. rewrite Forall_forall in Hall.
    apply Hall, in_concat. eauto.
Qed.

(** X6: in double arithmetic, for a step dt > 0 and a list or dict of
    strictly increasing trains of non-negative times with at least one spike
    among them, [times_to_bin_multi] without a duration takes
    [latest + dt] as the duration, [latest] being the latest spike of all
    trains, and [L = int((latest + dt) / dt)] as the grid length.  When
    the grid index of the latest spike is below [L], it returns one row
    per train, all of length [L], in which bin [b] of row [i] is 1 exactly
    when train [i] has a spike with grid index [b].  When the index of the
    latest spike is [L] itself, it raises [IndexError].  The index is never
    above [L] when the latest spike is a double. *)
Theorem times_to_bin_multi_rounded
        (trains : list (list Q)) (spikes : pyobject) (dt : Q) :
  spikes = PyList 1 trains \/ spikes = PyDict 1 trains ->
  0 < dt ->
  Forall (fun t => increasing t /\ Forall (fun x => 0 <= x) t) trains ->
  (exists t x, In t trains /\ In x t) ->
  exists latest,
    py_max (concat trains) = Ok latest
    /\ let L := py_int (fl (fl (latest + dt) / dt)) in
       ((py_int (fl (latest / dt)) < L)%Z ->
        exists rows,
          Rounded.times_to_bin_multi fl spikes dt None = Ok rows
          /\ length rows = length trains
          /\ forall i, (i < length trains)%nat ->
               length (nth i rows []) = Z.to_nat L
               /\ forall b, (b < length (nth i rows []))%nat ->
                    nth b (nth i rows []) 0 =
                    if existsb
                         (fun t => (py_int (fl (t / dt)) =? Z.of_nat b)%Z)
                         (nth i trains [])
                    then 1 else 0)
       /\ (py_int (fl (latest / dt)) = L ->
           Rounded.times_to_bin_multi fl spikes dt None = Raise IndexError)
       /\ (fl latest == latest -> (py_int (fl (latest / dt)) <= L)%Z).
Proof.
  intros Hshape Hdt Htrains Hsome.
  destruct (latest_spike trains Htrains Hsome)
    as [latest [Hmax [Hl0 [[tl [Htl Hlin]] Hall]]]].
  exists latest. split; [exact Hmax|]. cbv zeta.
  rewrite (rounded_times_to_bin_multi_unfold trains spikes dt latest Hshape Hmax).
  assert (Hd0 : 0 <= fl (latest + dt))
    by (apply (rounding_nonneg fl _ Hfl); lra).
  assert (Hidx : forall t, In t trains -> t <> [] ->
            (py_int (fl (last t 0%Q / dt)) <= py_int (fl (latest / dt)))%Z).
  { intros t Ht Hne. rewrite Forall_forall in Htrains.
    destruct (Htrains t Ht) as [_ Hpos]. rewrite Forall_forall in Hpos.
    pose proof (last_in t Hne) as Hin.
    apply rounded_grid_index_mono; [exact Hdt | now apply Hpos|].
    now apply (Hall t). }
  split; [|split].
  - intro Hbelow.
    assert (Hrow : forall t, In t trains ->
              exists bintimes,
                Rounded.times_to_bin fl t dt (Some (fl (latest + dt)))
                = Ok bintimes
                /\ length bintimes
                   = Z.to_nat (py_int (fl (fl (latest + dt) / dt)))
                /\ forall b, (b < length bintimes)%nat ->
                     nth b bintimes 0 =
                     if existsb
                          (fun x => (py_int (fl (x / dt)) =? Z.of_nat b)%Z) t
                     then 1 else 0).
    { intros t Ht. rewrite Forall_forall in Htrains.
      destruct (Htrains t Ht) as [Hinc Hpos].
      apply rounded_times_to_bin_in_grid; auto.
      intro Hne. pose proof (Hidx t Ht Hne). lia. }
    destruct (map_result_ok
                (fun st : nd 1 =>
                   Rounded.times_to_bin_entry fl 1 st dt
                                              (Some (fl (latest + dt))))
                trains) as [rows [Hrows Hlen]].
    { apply Forall_forall. intros t Ht.
      destruct (Hrow t Ht) as [b [Hb _]]. eauto. }
    exists rows. split; [exact Hrows|]. split; [exact Hlen|].
    intros i Hi.
    destruct (map_result_nth _ _ _ ([] : list Q) ([] : list Q) Hrows)
      as [_ Hnth].
    specialize (Hnth i Hi). cbn [Rounded.times_to_bin_entry] in Hnth.
    destruct (Hrow (nth i trains []) (nth_In trains [] Hi))
      as [bintimes [Hb [Hbl Hbn]]].
    rewrite Hb in Hnth. inversion Hnth as [E]. rewrite <- E.
    split; [exact Hbl | exact Hbn].
  - intro Hat. apply map_result_raises.
    + apply Forall_forall. intros t Ht. rewrite Forall_forall in Htrains.
      destruct (Htrains t Ht) as [Hinc Hpos].
      now apply rounded_times_to_bin_row.
    + apply Exists_exists. exists tl. split; [exact Htl|].
      cbn [Rounded.times_to_bin_entry].
      assert (Hne : tl <> []) by (intro E; rewrite E in Hlin; contradiction).
      apply rounded_times_to_bin_at_grid_end; auto.
      pose proof (Hidx tl Htl Hne) as Hup.
      rewrite Forall_forall in Htrains. destruct (Htrains tl Htl) as [Hinc Hpos].
      pose proof (increasing_le_last _ Hinc) as Hle.
      rewrite Forall_forall in Hle, Hpos.
      pose proof (rounded_grid_index_mono dt latest (last tl 0) Hdt Hl0
                                          (Hle _ Hlin)).
      lia.
  - intro Hdouble. apply py_int_mono.
    + apply (rounding_nonneg fl _ Hfl). now apply Qdiv_nonneg.
    + apply (fl_monotone fl Hfl). apply Qdiv_le_mono; [exact Hdt|].
      rewrite <- Hdouble at 1. apply (fl_monotone fl Hfl). lra.
Qed.


End RoundedBinning.

Lemma times_to_bin_multi_rounded_witness :
  Rounded.times_to_bin_multi round_binary64 (PyList 1 [[1]])
                             (round_binary64 (1 # 1000)) None
  = Raise IndexError
  /\ exists rows,
       Rounded.times_to_bin_multi round_binary64
                                  (PyList 1 [[1 # 4; 1 # 2]; [3 # 4]])
                                  (1 # 4) None
       = Ok rows
       /\ length rows = 2%nat.
Proof.
  split.
  - destruct (times_to_bin_multi_rounded
                round_binary64 round_binary64_rounding
                [[1]] (PyList 1 [[1]]) (round_binary64 (1 # 1000)))
      as [latest [Hmax [_ [Hat _]]]].
    + now left.
    + vm_compute. reflexivity.
    + repeat constructor; unfold Qle; simpl; lia.
    + exists [1], 1. split; now left.
    + apply Hat. vm_compute in Hmax. inversion Hmax; subst latest.
      vm_compute. reflexivity.
  - destruct (times_to_bin_multi_rounded
                round_binary64 round_binary64_rounding
                [[1 # 4; 1 # 2]; [3 # 4]]
                (PyList 1 [[1 # 4; 1 # 2]; [3 # 4]]) (1 # 4))
      as [latest [Hmax [Hbelow _]]].
    + now left.
    + reflexivity.
    + repeat constructor; unfold Qle, Qlt; simpl; lia.
    + exists [3 # 4], (3 # 4). split; [right; now left | now left].
    + destruct Hbelow as [rows [Hrows [Hlen _]]].
      * vm_compute in Hmax. inversion Hmax; subst latest.
        vm_compute. reflexivity.
      * exists rows. split; [exact Hrows | exact Hlen].
Defined.

(** ** PSTH in rounded arithmetic *)

Section RoundedPSTH.

Variable fl : Q -> Q.
Hypothesis Hfl : rounding fl.


(** X10: in double arithmetic, for a duration [d >= 0] that is given,
    [PSTH] returns [int(q)] counts but [ceil(q)] bin times, where [q] is
    the rounded quotient of the duration and the bin width (raised to
    [dt]): there are as many bin times as counts exactly when [q] is a
    whole number, and otherwise one bin time more. *)
Theorem PSTH_rounded_shapes
        (depth : nat) (items : list (nd depth)) (spikes : pyobject)
        (bin dt d : Q) :
  spikes = PyList depth items \/ spikes = PyDict depth items ->
  0 < dt -> 0 <= d ->
  let q := fl (d / max2 bin dt) in
  exists times psth,
    Rounded.PSTH fl spikes bin dt (Some d) = Ok (times, psth)
    /\ length psth = Z.to_nat (Qfloor q)
    /\ length times = Z.to_nat (Qceiling q)
    /\ (length psth <= length times <= S (length psth))%nat
    /\ (length times = length psth <-> exists k : Z, q == inject_Z k).
Proof.
  intros Hshape Hdt Hd q.
  assert (Hitems : container_items spikes = Ok (mkNd depth items))
    by (destruct Hshape as [-> | ->]; reflexivity).
  assert (Hbin : 0 < max2 bin dt).
  { unfold max2. destruct (Qltb bin dt) eqn:E; [exact Hdt|].
    apply Qltb_ge in E. lra. }
  assert (Hq : 0 <= q).
  { apply (rounding_nonneg fl _ Hfl). now apply Qdiv_nonneg. }
  assert (Hf0 : (0 <= Qfloor q)%Z).
  { change 0%Z with (Qfloor 0). now apply Qfloor_resp_le. }
  destruct (floor_ceiling_gap q) as [Hgap Heq].
  unfold Rounded.PSTH. fold (max2 bin dt). rewrite Hitems.
  cbn [rbind nd_depth nd_items].
  rewrite (Qeq_bool_false_of_neq (max2 bin dt) 0) by lra.
  fold q. rewrite (py_int_floor q Hq). unfold zeros.
  destruct (Z.ltb_spec (Qfloor q) 0) as [|_]; [lia|]. cbn [rbind].
  eexists. eexists. split; [reflexivity|].
  assert (Hlen : forall g : nat -> Q,
            length (fold_left (fun psth b => set_nth b (g b) psth)
                              (seq 0 (Z.to_nat (Qfloor q)))
                              (repeat 0 (Z.to_nat (Qfloor q))))
            = Z.to_nat (Qfloor q)).
  { intro g.
    destruct (psth_loop g (Z.to_nat (Qfloor q)) 0
                        (repeat 0 (Z.to_nat (Qfloor q)))) as [Hl _].
    - rewrite repeat_length. lia.
    - cbv zeta in Hl. now rewrite Hl, repeat_length. }
  rewrite Hlen. unfold Rounded.arange. rewrite length_map, length_seq.
  fold q. split; [reflexivity|]. split; [reflexivity|]. split; [lia|].
  split.
  - intro E. apply Heq. lia.
  - intro Hk. apply Heq in Hk. now rewrite Hk.
Qed.

End RoundedPSTH.

Lemma PSTH_rounded_shapes_witness :
  exists times psth,
    Rounded.PSTH round_binary64 (PyList 0 [round_binary64 (1 # 20)])
                 (round_binary64 (1 # 10)) (round_binary64 (1 # 10))
                 (Some (round_binary64 (3 # 10)))
    = Ok (times, psth)
    /\ length psth = 2%nat /\ length times = 3%nat.
Proof.
  destruct (PSTH_rounded_shapes
              round_binary64 round_binary64_rounding
              0 [round_binary64 (1 # 20)]
              (PyList 0 [round_binary64 (1 # 20)])
              (round_binary64 (1 # 10)) (round_binary64 (1 # 10))
              (round_binary64 (3 # 10)))
    as [times [psth [Hcall [Hcounts [Htimes _]]]]].
  - now left.
  - vm_compute. reflexivity.
  - unfold Qle. vm_compute. discriminate.
  - exists times, psth. split; [exact Hcall|]. split.
    + rewrite Hcounts. vm_compute. reflexivity.
    + rewrite Htimes. vm_compute. reflexivity.
Defined.

(** ** The unbounded generators in rounded arithmetic *)

Section RoundedGenerators.

Variable fl : Q -> Q.
Variable exponential : Q -> nat -> Q.
Variable normal : Q -> Q -> nat -> Q.

Hypothesis Hfl : rounding fl.
Hypothesis Hdraws : forall scale k, fl (exponential scale k) == exponential scale k.

(** A read that starts a new interval, without jitter. *)
Lemma rounded_generator_next_new_interval (g : generator) (s : world) :
  0 < gen_rate g -> gen_jitter g <= 0 ->
  gen_iter g = gen_n g ->
  let c := if Qltb (exponential (fl (1 / gen_rate g)) (drawn s)) (gen_dt g)
           then gen_dt g else exponential (fl (1 / gen_rate g)) (drawn s) in
  Rounded.generator_next fl exponential normal g s
  = (mkWorld (S (drawn s)) (warnings s),
     Ok (fl (fl (gen_t g + c) + 0),
         mkGenerator (gen_n g) (gen_rate g) (gen_jitter g) (gen_dt g)
                     (fl (gen_t g + c)) (gen_t g) 1)).
Proof.
  intros Hrate Hj Hiter. cbv zeta. unfold Rounded.generator_next.
  rewrite Hiter, Z.eqb_refl. unfold bind at 1. unfold bind at 1.
  rewrite (rounded_new_interval_run fl exponential Hfl
             (gen_rate g) (gen_dt g) s Hrate).
  unfold ret at 1. cbv beta iota.
  replace (Qltb 0 (gen_jitter g)) with false by (symmetry; now apply Qltb_ge).
  reflexivity.
Qed.

(** A read that repeats the current base time, without jitter. *)
Lemma rounded_generator_next_repeat (g : generator) (s : world) :
  gen_jitter g <= 0 ->
  gen_iter g <> gen_n g ->
  Rounded.generator_next fl exponential normal g s
  = (s, Ok (fl (gen_t g + 0),
            mkGenerator (gen_n g) (gen_rate g) (gen_jitter g) (gen_dt g)
                        (gen_t g) (gen_prev_t g) (gen_iter g + 1))).
Proof.
  intros Hj Hiter. unfold Rounded.generator_next.
  replace (gen_iter g =? gen_n g)%Z with false
    by (symmetry; now apply Z.eqb_neq).
  unfold bind, ret.
  replace (Qltb 0 (gen_jitter g)) with false by (symmetry; now apply Qltb_ge).
  reflexivity.
Qed.

Lemma rounded_generator_take_repeats (m : nat) :
  forall (g : generator) (s : world),
    gen_jitter g <= 0 ->
    (forall j, (j < m)%nat -> (gen_iter g + Z.of_nat j)%Z <> gen_n g) ->
    Rounded.generator_take fl exponential normal m g s
    = (s, Ok (repeat (fl (gen_t g + 0)) m,
              mkGenerator (gen_n g) (gen_rate g) (gen_jitter g) (gen_dt g)
                          (gen_t g) (gen_prev_t g)
                          (gen_iter g + Z.of_nat m))).
Proof.
  induction m as [|m IH]; intros g s Hj Hiter.
  - cbn [Rounded.generator_take repeat]. unfold ret.
    rewrite Z.add_0_r. destruct g; reflexivity.
  - cbn [Rounded.generator_take]. unfold bind at 1.
    rewrite (rounded_generator_next_repeat g s Hj).
    2:{ specialize (Hiter O ltac:(lia)). now rewrite Z.add_0_r in Hiter. }
    unfold bind.
    rewrite IH.
    + cbn [gen_n gen_rate gen_jitter gen_dt gen_t gen_prev_t gen_iter repeat].
      unfold ret.
      replace (gen_iter g + Z.of_nat (S m))%Z
        with (gen_iter g + 1 + Z.of_nat m)%Z by lia.
      reflexivity.
    + exact Hj.
    + intros j Hjm. cbn [gen_iter gen_n].
      specialize (Hiter (S j) ltac:(lia)). lia.
Qed.

Lemma rounded_generator_take_snoc (k : nat) :
  forall g0 s0 xs g1 s1 ys g2 s2,
    Rounded.generator_take fl exponential normal k g0 s0 = (s1, Ok (xs, g1)) ->
    Rounded.generator_take fl exponential normal 1 g1 s1 = (s2, Ok (ys, g2)) ->
    Rounded.generator_take fl exponential normal (S k) g0 s0
    = (s2, Ok (xs ++ ys, g2)).
Proof.
  induction k as [|k IH]; intros g0 s0 xs g1 s1 ys g2 s2 Hk H1.
  - cbn [Rounded.generator_take] in Hk. unfold ret in Hk.
    inversion Hk; subst. exact H1.
  - cbn [Rounded.generator_take] in Hk. unfold bind at 1 in Hk.
    destruct (Rounded.generator_next fl exponential normal g0 s0)
      as [sa [[xa ga]| | |]] eqn:Ea; try discriminate.
    unfold bind at 1 in Hk.
    destruct (Rounded.generator_take fl exponential normal k ga sa)
      as [sb [[xb gb]| | |]] eqn:Eb; try discriminate.
    unfold ret in Hk. inversion Hk; subst.
    specialize (IH _ _ _ _ _ _ _ _ Eb H1).
    change (Rounded.generator_take fl exponential normal (S (S k)) g0 s0)
      with (bind (Rounded.generator_next fl exponential normal g0)
              (fun r => let '(spike, g') := r in
                        bind (Rounded.generator_take fl exponential normal
                                                     (S k) g')
                          (fun r' => let '(spikes, g'') := r' in
                                     ret (spike :: spikes, g''))) s0).
    unfold bind at 1. rewrite Ea. unfold bind at 1. rewrite IH.
    reflexivity.
Qed.

Lemma rounded_plus_zero (x : Q) : fl (fl x + 0) == fl x.
Proof.
  rewrite (rounding_comp fl (fl x + 0) (fl x) Hfl) by ring.
  apply (fl_idempotent fl Hfl).
Qed.

(** X12: in double arithmetic, a generator made for [n >= 1] linked trains,
    without jitter, gives its first time [n] times over before it moves
    on.  From the fresh generator the first [n] reads all return one time
    [x >= dt], for which a single exponential variate is drawn, and the
    read after them returns a time that is not below [x] and is at least
    the rounded sum of [x] and [dt]. *)
Theorem generator_repeats_each_time_rounded
        (n : nat) (rate jitter dt : Q) (s : world) :
  (1 <= n)%nat -> 0 < rate -> jitter <= 0 -> 0 < dt -> fl dt == dt ->
  exists x y g',
    Rounded.generator_take fl exponential normal (S n)
                           (sync_inp_gen (Z.of_nat n) rate jitter dt) s
    = (mkWorld (S (S (drawn s))) (warnings s), Ok (repeat x n ++ [y], g'))
    /\ dt <= x /\ x <= y /\ fl (x + dt) <= y.
Proof.
  intros Hn Hrate Hj Hdt Hdtd.
  set (c1 := if Qltb (exponential (fl (1 / rate)) (drawn s)) dt then dt
             else exponential (fl (1 / rate)) (drawn s)).
  set (c2 := if Qltb (exponential (fl (1 / rate)) (S (drawn s))) dt then dt
             else exponential (fl (1 / rate)) (S (drawn s))).
  pose proof (clamped_interval_ge (exponential (fl (1 / rate)) (drawn s)) dt)
    as H1.
  pose proof (clamped_interval_ge (exponential (fl (1 / rate)) (S (drawn s))) dt)
    as H2.
  pose proof (clamped_interval_double fl
                (exponential (fl (1 / rate)) (drawn s)) dt Hdtd (Hdraws _ _))
    as D1.
  fold c1 in H1, D1. fold c2 in H2.
  destruct n as [|m]; [lia|].
  set (g0 := sync_inp_gen (Z.of_nat (S m)) rate jitter dt).
  set (s1 := mkWorld (S (drawn s)) (warnings s)).
  set (t1 := fl (0 + c1)).
  set (t2 := fl (t1 + c2)).
  set (g1 := mkGenerator (Z.of_nat (S m)) rate jitter dt t1 0 1).
  set (g2 := mkGenerator (Z.of_nat (S m)) rate jitter dt t1 0
                         (1 + Z.of_nat m)).
  set (g3 := mkGenerator (Z.of_nat (S m)) rate jitter dt t2 t1 1).
  assert (E1 : Rounded.generator_next fl exponential normal g0 s
               = (s1, Ok (fl (t1 + 0), g1))).
  { apply (rounded_generator_next_new_interval g0 s);
      [exact Hrate | exact Hj|]. reflexivity. }
  assert (E2 : Rounded.generator_take fl exponential normal m g1 s1
               = (s1, Ok (repeat (fl (t1 + 0)) m, g2))).
  { apply (rounded_generator_take_repeats m g1 s1); [exact Hj|].
    intros j Hjm. cbn [g1 gen_iter gen_n]. lia. }
  assert (E3 : Rounded.generator_take fl exponential normal 1 g2 s1
               = (mkWorld (S (S (drawn s))) (warnings s),
                  Ok ([fl (t2 + 0)], g3))).
  { cbn [Rounded.generator_take]. unfold bind at 1.
    rewrite (rounded_generator_next_new_interval g2 s1);
      [|exact Hrate | exact Hj | cbn [g2 gen_iter gen_n]; lia].
    reflexivity. }
  pose proof (rounded_generator_take_snoc m _ _ _ _ _ _ _ _ E2 E3) as E4.
  assert (T1 : t1 == c1).
  { unfold t1. rewrite (rounding_comp fl (0 + c1) c1 Hfl) by ring. exact D1. }
  assert (X : fl (t1 + 0) == t1) by (unfold t1; apply rounded_plus_zero).
  assert (Y : fl (t2 + 0) == t2) by (unfold t2; apply rounded_plus_zero).
  assert (T1d : fl t1 == t1) by (unfold t1; apply (fl_idempotent fl Hfl)).
  destruct (rounded_step fl Hfl t1 c2 dt T1d Hdt H2) as [Hup Hgap].
  fold t2 in Hup, Hgap.
  exists (fl (t1 + 0)), (fl (t2 + 0)), g3.
  split; [|split; [|split]].
  - change (Rounded.generator_take fl exponential normal (S (S m)) g0 s)
      with (bind (Rounded.generator_next fl exponential normal g0)
              (fun r => let '(spike, g') := r in
                        bind (Rounded.generator_take fl exponential normal
                                                     (S m) g')
                          (fun r' => let '(spikes, g'') := r' in
                                     ret (spike :: spikes, g''))) s).
    unfold bind at 1. rewrite E1. unfold bind at 1. rewrite E4.
    reflexivity.
  - rewrite X, T1. exact H1.
  - rewrite X, Y. exact Hup.
  - rewrite Y. rewrite (rounding_comp fl (fl (t1 + 0) + dt) (t1 + dt) Hfl)
      by (rewrite X; reflexivity).
    exact Hgap.
Qed.

(** What holds of a generator object between two reads, in rounded
    arithmetic: its rate is positive, its base time is a double that is
    not negative, and unless it is about to draw its first interval the
    base time is at least [dt]. *)
Lemma rounded_generator_next_keeps (g : generator) (s : world) :
  0 < gen_rate g -> 0 < gen_dt g -> fl (gen_dt g) == gen_dt g ->
  fl (gen_t g) == gen_t g -> 0 <= gen_t g ->
  (gen_iter g = gen_n g \/ gen_dt g <= gen_t g) ->
  exists x g' s',
    Rounded.generator_next fl exponential normal g s = (s', Ok (x, g'))
    /\ gen_rate g' = gen_rate g /\ gen_dt g' = gen_dt g
    /\ gen_jitter g' = gen_jitter g
    /\ fl (gen_t g') == gen_t g' /\ gen_t g <= gen_t g'
    /\ gen_dt g <= gen_t g'
    /\ (gen_jitter g <= 0 -> x == gen_t g').
Proof.
  intros Hrate Hdt Hdtd Htd Ht Hstep. unfold Rounded.generator_next.
  assert (Hjit : forall (t : Q) (prev_t : Q) (iter : Z) (s0 : world),
            exists x s',
              bind (if Qltb 0 (gen_jitter g)
                    then jitt_variate <- random_normal normal 0 (gen_jitter g) ;;
                         ret (if Qltb (fl (t + jitt_variate))
                                      (fl (prev_t + gen_dt g))
                              then fl (fl (prev_t + gen_dt g) - t)
                              else jitt_variate)
                    else ret 0)
                   (fun jitt_variate =>
                      ret (fl (t + jitt_variate),
                           mkGenerator (gen_n g) (gen_rate g) (gen_jitter g)
                                       (gen_dt g) t prev_t iter)) s0
              = (s', Ok (x, mkGenerator (gen_n g) (gen_rate g) (gen_jitter g)
                                        (gen_dt g) t prev_t iter))
              /\ (gen_jitter g <= 0 -> x = fl (t + 0))).
  { intros t prev_t iter s0. destruct (Qltb 0 (gen_jitter g)) eqn:Ej.
    - apply Qltb_lt in Ej. unfold bind, random_normal.
      replace (Qltb (gen_jitter g) 0) with false
        by (symmetry; apply Qltb_ge; lra).
      unfold ret. eexists. eexists. split; [reflexivity|]. intro; lra.
    - unfold bind, ret. eexists. eexists. split; [reflexivity|]. reflexivity. }
  destruct (gen_iter g =? gen_n g)%Z eqn:Eiter.
  - unfold bind at 1. unfold bind at 1.
    rewrite (rounded_new_interval_run fl exponential Hfl
               (gen_rate g) (gen_dt g) s Hrate).
    pose proof (clamped_interval_ge
                  (exponential (fl (1 / gen_rate g)) (drawn s)) (gen_dt g))
      as Hc.
    set (c := if Qltb _ (gen_dt g) then gen_dt g else _) in *.
    unfold ret at 1. cbv beta iota.
    destruct (Hjit (fl (gen_t g + c)) (gen_t g) 1%Z
                   (mkWorld (S (drawn s)) (warnings s)))
      as [x [s' [E Hx]]].
    rewrite E. exists x. eexists. exists s'. split; [reflexivity|].
    cbn [gen_rate gen_dt gen_jitter gen_t].
    destruct (rounded_step fl Hfl (gen_t g) c (gen_dt g) Htd Hdt Hc)
      as [Hup _].
    split; [reflexivity|]. split; [reflexivity|]. split; [reflexivity|].
    split; [apply (fl_idempotent fl Hfl)|]. split; [exact Hup|]. split.
    + rewrite <- Hdtd. apply (fl_monotone fl Hfl). lra.
    + intro Hj. rewrite (Hx Hj). apply rounded_plus_zero.
  - apply Z.eqb_neq in Eiter.
    destruct Hstep as [Hstep|Hstep]; [contradiction|].
    unfold bind at 1. unfold ret at 1. cbv beta iota.
    destruct (Hjit (gen_t g) (gen_prev_t g) (gen_iter g + 1)%Z s)
      as [x [s' [E Hx]]].
    rewrite E. exists x. eexists. exists s'. split; [reflexivity|].
    cbn [gen_rate gen_dt gen_jitter gen_t].
    split; [reflexivity|]. split; [reflexivity|]. split; [reflexivity|].
    split; [exact Htd|]. split; [lra|]. split; [exact Hstep|].
    intro Hj. rewrite (Hx Hj).
    rewrite (rounding_comp fl (gen_t g + 0) (gen_t g) Hfl) by ring.
    exact Htd.
Qed.

Lemma rounded_generator_take_keeps (k : nat) :
  forall (g : generator) (s : world),
    0 < gen_rate g -> 0 < gen_dt g -> fl (gen_dt g) == gen_dt g ->
    fl (gen_t g) == gen_t g -> 0 <= gen_t g ->
    (gen_iter g = gen_n g \/ gen_dt g <= gen_t g) ->
    exists outs g' s',
      Rounded.generator_take fl exponential normal k g s = (s', Ok (outs, g'))
      /\ length outs = k
      /\ (gen_jitter g <= 0 ->
          nondecreasing outs
          /\ Forall (fun x => gen_dt g <= x /\ gen_t g <= x) outs).
Proof.
  induction k as [|k IH]; intros g s Hrate Hdt Hdtd Htd Ht Hstep.
  - exists [], g, s. split; [reflexivity|]. split; [reflexivity|].
    intros _. split; [exact I | constructor].
  - destruct (rounded_generator_next_keeps g s Hrate Hdt Hdtd Htd Ht Hstep)
      as [x [g1 [s1 [E1 [Er [Ed [Ej [Htd1 [Hup [Hge Hx]]]]]]]]]].
    destruct (IH g1 s1) as [outs [g2 [s2 [E2 [Hlen Hall]]]]].
    { now rewrite Er. }
    { now rewrite Ed. }
    { now rewrite Ed. }
    { exact Htd1. }
    { lra. }
    { right. now rewrite Ed. }
    exists (x :: outs), g2, s2. split; [|split].
    + cbn [Rounded.generator_take]. unfold bind at 1. rewrite E1.
      unfold bind. rewrite E2. reflexivity.
    + simpl. now rewrite Hlen.
    + intro Hj. rewrite Ej, Ed in Hall. destruct (Hall Hj) as [Hnd Hbounds].
      specialize (Hx Hj). split.
      * destruct outs as [|y tl]; [exact I|]. split; [|exact Hnd].
        inversion Hbounds as [|? ? [_ Hy] _]; subst. lra.
      * constructor; [split; lra|].
        eapply Forall_impl; [|exact Hbounds].
        intros z [Hz1 Hz2]. split; lra.
Qed.

(** X13: in double arithmetic, with a positive rate and a step dt > 0,
    every read of a generator made by [sync_inp_gen] returns: whatever [n]
    and the jitter are and whatever is drawn, [k] reads give [k] times.
    Without jitter the times read never decrease and none of them is below
    [dt]. *)
Theorem generator_reads_rounded
        (n : Z) (rate jitter dt : Q) (k : nat) (s : world) :
  0 < rate -> 0 < dt -> fl dt == dt ->
  exists outs g' s',
    Rounded.generator_take fl exponential normal k
                           (sync_inp_gen n rate jitter dt) s
    = (s', Ok (outs, g'))
    /\ length outs = k
    /\ (jitter <= 0 ->
        nondecreasing outs /\ Forall (fun x => dt <= x) outs).
Proof.
  intros Hrate Hdt Hdtd.
  destruct (rounded_generator_take_keeps k (sync_inp_gen n rate jitter dt) s)
    as [outs [g' [s' [E [Hlen Hall]]]]];
    cbn [sync_inp_gen gen_rate gen_dt gen_t gen_iter gen_n];
    try assumption; try lra.
  - apply (fl_zero fl Hfl).
  - now left.
  - exists outs, g', s'. split; [exact E|]. split; [exact Hlen|].
    intro Hj. destruct (Hall Hj) as [Hnd Hb]. split; [exact Hnd|].
    eapply Forall_impl; [|exact Hb]. cbn. intros x [Hx _]. exact Hx.
Qed.

End RoundedGenerators.

Lemma generator_repeats_each_time_rounded_witness :
  exists x y g',
    Rounded.generator_take
      round_binary64
      (fun _ i => match i with
                  | O => round_binary64 (3 # 10)
                  | _ => 0
                  end)
      (fun _ _ _ => 0) 4
      (sync_inp_gen 3 20 0 (round_binary64 (1 # 10000))) (mkWorld 0 [])
    = (mkWorld 2 [], Ok (repeat x 3 ++ [y], g'))
    /\ round_binary64 (1 # 10000) <= x /\ x <= y
    /\ round_binary64 (x + round_binary64 (1 # 10000)) <= y.
Proof.
  apply (generator_repeats_each_time_rounded
           round_binary64
           (fun _ i => match i with
                       | O => round_binary64 (3 # 10)
                       | _ => 0
                       end)
           (fun _ _ _ => 0) round_binary64_rounding).
  - intros _ [|k]; [apply round_binary64_idem | now rewrite round_binary64_zero].
  - lia.
  - reflexivity.
  - unfold Qle; simpl; lia.
  - vm_compute. reflexivity.
  - apply round_binary64_idem.
Defined.

Lemma generator_reads_rounded_witness :
  exists outs g' s',
    Rounded.generator_take
      round_binary64 (fun _ _ => round_binary64 (3 # 10))
      (fun _ _ i => - inject_Z (Z.of_nat i)) 5
      (sync_inp_gen 2 20 (round_binary64 (1 # 100))
                    (round_binary64 (1 # 10000)))
      (mkWorld 0 [])
    = (s', Ok (outs, g'))
    /\ length outs = 5%nat.
Proof.
  destruct (generator_reads_rounded
              round_binary64 (fun _ _ => round_binary64 (3 # 10))
              (fun _ _ i => - inject_Z (Z.of_nat i))
              round_binary64_rounding
              2 20 (round_binary64 (1 # 100)) (round_binary64 (1 # 10000))
              5 (mkWorld 0 []))
    as [outs [g' [s' [E [Hlen _]]]]].
  - reflexivity.
  - vm_compute. reflexivity.
  - apply round_binary64_idem.
  - exists outs, g', s'. split; [exact E | exact Hlen].
Defined.

(** With jitter, the cut-off [prev_t + dt - t] does not keep a time at or
    above [dt] in double arithmetic: after a base time of 0.3 the first
    read gives [0.3 + (0.0001 - 0.3)], which is below [0.0001]. *)
Example generator_jitter_below_dt :
  exists x g' s',
    Rounded.generator_next
      round_binary64 (fun _ _ => round_binary64 (3 # 10))
      (fun _ _ _ => - (1))
      (sync_inp_gen 1 20 (round_binary64 (1 # 100))
                    (round_binary64 (1 # 10000)))
      (mkWorld 0 [])
    = (s', Ok (x, g'))
    /\ x < round_binary64 (1 # 10000).
Proof.
  eexists. eexists. eexists. split; [vm_compute; reflexivity|].
  vm_compute. reflexivity.
Qed.

(** ** The bounded composer in rounded arithmetic *)

Section RoundedComposer.

Variable fl : Q -> Q.
Variable exponential : Q -> nat -> Q.
Variable normal : Q -> Q -> nat -> Q.

Hypothesis Hfl : rounding fl.
Hypothesis Hdraws : forall scale k, fl (exponential scale k) == exponential scale k.

Lemma rounded_jitter_zero_returns_input
      (fuel : nat) (st : list Q) (sigma dt : Q) :
  sigma == 0 ->
  forall s s' x,
    Rounded.add_gauss_jitter fl normal fuel st sigma dt s = (s', Ok x) ->
    x = st.
Proof.
  intros Hsigma s s' x H. unfold Rounded.add_gauss_jitter in H.
  replace (Qeq_bool sigma 0) with true in H
    by (symmetry; now apply Qeq_bool_iff).
  unfold ret in H. now inversion H.
Qed.

(** X17: in double arithmetic and without jitter ([sigma] = 0), for a
    rate > 0, a step dt > 0 given as a double, [n >= 0] and a fraction [s]
    in [0, 1], whenever [sync_inp] returns, the trains it returns are
    [k = floor(n * s)] identical copies of one template followed by [n - k]
    further trains, and every one of them is a non-empty train that never
    decreases, in which every time is at least the rounded sum of the time
    before it and [dt], starting at [dt] or later and ending before the
    duration. *)
Theorem sync_inp_without_jitter_rounded
        (fuel : nat) (n : Z) (rate s sigma dura dt : Q) (w w' : world)
        (trains : list (list Q)) :
  (0 <= n)%Z -> 0 <= s -> s <= 1 -> 0 < rate -> 0 < dt -> fl dt == dt ->
  sigma == 0 ->
  Rounded.sync_inp fl exponential normal fuel n rate s sigma dura dt w
  = (w', Ok trains) ->
  let k := Z.to_nat (Qfloor (fl (inject_Z n * s))) in
  (exists st_ident independent,
      trains = repeat st_ident k ++ independent
      /\ length independent = (Z.to_nat n - k)%nat)
  /\ Forall (fun train =>
               train <> [] /\ nondecreasing train
               /\ Rounded.spaced fl dt train
               /\ dt <= hd 0 train /\ Forall (fun t => t < dura) train)
            trains.
Proof.
  intros Hn H0 H1 Hrate Hdt Hdtd Hsigma Hrun k.
  assert (Hk : (0 <= Qfloor (fl (inject_Z n * s)))%Z).
  { change 0%Z with (Qfloor 0). apply Qfloor_resp_le.
    apply (rounding_nonneg fl _ Hfl). apply Qmult_le_0_compat; [|exact H0].
    change 0 with (inject_Z 0). now rewrite <- Zle_Qle. }
  unfold Rounded.sync_inp in Hrun.
  assert (Hin : in_unit_interval s = true).
  { unfold in_unit_interval. apply andb_true_iff.
    split; now apply Qle_bool_iff. }
  rewrite Hin in Hrun. cbn [negb] in Hrun. unfold bind at 1 in Hrun.
  unfold ret at 1 in Hrun.
  unfold bind at 1 in Hrun.
  destruct (Rounded.poisson_spikes fl exponential fuel dura rate dt w)
    as [w2 [st_ident| | |]] eqn:Et; try discriminate.
  unfold bind at 1 in Hrun.
  destruct (replicateM (range_count 0 _) _ w2) as [w3 [linked| | |]] eqn:El;
    try discriminate.
  unfold bind at 1 in Hrun.
  destruct (replicateM (range_count _ n) _ w3) as [w4 [indep| | |]] eqn:Ei;
    try discriminate.
  unfold ret in Hrun. inversion Hrun; subst w' trains; clear Hrun.
  pose proof (rounded_poisson_spikes_ok fl exponential Hfl Hdraws
                _ _ _ _ _ _ _ Hrate Hdt Hdtd Et) as Htemplate.
  destruct (replicateM_ok (fun x => x = st_ident) _ _
              (rounded_jitter_zero_returns_input fuel st_ident sigma dt Hsigma)
              _ _ _ El) as [L1 A1].
  destruct (replicateM_ok _ _ _
              (fun s0 s0' x H =>
                 rounded_poisson_spikes_ok fl exponential Hfl Hdraws
                   _ _ _ _ s0 s0' x Hrate Hdt Hdtd H)
              _ _ _ Ei) as [L2 A2].
  assert (Hlinked : linked = repeat st_ident k).
  { assert (L1' : length linked = k).
    { rewrite L1. unfold range_count. now rewrite Z.sub_0_r. }
    rewrite <- L1'. apply Forall_eq_repeat. eapply Forall_impl; [|exact A1].
    intros x Hx; now symmetry. }
  split.
  - exists st_ident, indep. split; [now rewrite Hlinked|].
    rewrite L2. unfold range_count, k. lia.
  - apply Forall_app. split.
    + eapply Forall_impl; [|exact A1]. intros x ->. exact Htemplate.
    + exact A2.
Qed.

End RoundedComposer.

Lemma sync_inp_without_jitter_rounded_witness :
  exists w' trains,
    Rounded.sync_inp round_binary64
                     (fun _ i => if Nat.even i then round_binary64 (3 # 10)
                                 else round_binary64 (4 # 10))
                     (fun _ _ _ => 0)
                     10 3 20 (round_binary64 (7 # 10)) 0 1
                     (round_binary64 (1 # 10000)) (mkWorld 0 [])
    = (w', Ok trains)
    /\ exists st_ident independent,
         trains = repeat st_ident 2 ++ independent
         /\ length independent = 1%nat.
Proof.
  eexists. eexists. split.
  - vm_compute. reflexivity.
  - refine (proj1 (sync_inp_without_jitter_rounded
                     round_binary64
                     (fun _ i => if Nat.even i then round_binary64 (3 # 10)
                                 else round_binary64 (4 # 10))
                     (fun _ _ _ => 0)
                     round_binary64_rounding _
                     10 3 20 (round_binary64 (7 # 10)) 0 1
                     (round_binary64 (1 # 10000)) (mkWorld 0 []) _ _
                     _ _ _ _ _ _ _ _)).
    + intros _ i. destruct (Nat.even i); apply round_binary64_idem.
    + lia.
    + unfold Qle. vm_compute. discriminate.
    + unfold Qle. vm_compute. discriminate.
    + reflexivity.
    + vm_compute. reflexivity.
    + apply round_binary64_idem.
    + reflexivity.
    + vm_compute. reflexivity.
Defined.

(** ** unitrange in rounded arithmetic *)

Section RoundedUnitrange.

Variable fl : Q -> Q.

Lemma rounded_unitrange_loop_unfold
      (fuel : nat) (x stop step : Q) (retlist : list Q) :
  Rounded.unitrange_loop fl fuel x stop step retlist
  = if Qltb x stop then
      match fuel with
      | O => OutOfFuel
      | S fuel' =>
          Rounded.unitrange_loop fl fuel' (fl (x + step)) stop step
                                 (retlist ++ [x])
      end
    else Ok retlist.
Proof. destruct fuel; reflexivity. Qed.

(** What the loop returns is a run of the running sums, all below the stop,
    and the running sum after them is not below it. *)
Lemma rounded_unitrange_loop_ok (stop step : Q) (fuel : nat) :
  forall (x : Q) (retlist out : list Q),
    Rounded.unitrange_loop fl fuel x stop step retlist = Ok out ->
    exists n,
      out = retlist ++ Rounded.progression fl x step n
      /\ Forall (fun v => v < stop) (Rounded.progression fl x step n)
      /\ stop <= nth n (Rounded.progression fl x step (S n)) 0.
Proof.
  induction fuel as [|fuel IH]; intros x retlist out H;
    rewrite rounded_unitrange_loop_unfold in H;
    destruct (Qltb x stop) eqn:E; try discriminate.
  - inversion H; subst. exists O. cbn. rewrite app_nil_r.
    split; [reflexivity|]. split; [constructor | now apply Qltb_ge].
  - destruct (IH _ _ _ H) as [n [Hout [Hall Hnext]]].
    exists (S n). split; [|split].
    + rewrite Hout, <- app_assoc. reflexivity.
    + cbn [Rounded.progression]. constructor; [now apply Qltb_lt | exact Hall].
    + exact Hnext.
  - inversion H; subst. exists O. cbn. rewrite app_nil_r.
    split; [reflexivity|]. split; [constructor | now apply Qltb_ge].
Qed.

Lemma rounded_unitrange_loop_returns (start stop step g : Q) :
  0 < g ->
  (forall x, start <= x -> x < stop -> x + g <= fl (x + step)) ->
  forall (n : nat) (x : Q) (retlist : list Q),
    start <= x ->
    stop - x <= inject_Z (Z.of_nat n) * g ->
    forall fuel, (n <= fuel)%nat ->
      exists out,
        Rounded.unitrange_loop fl fuel x stop step retlist = Ok out
        /\ (length out <= length retlist + n)%nat.
Proof.
  intros Hg Hadv. induction n as [|n IH]; intros x retlist Hx Hn fuel Hfuel;
    rewrite rounded_unitrange_loop_unfold;
    destruct (Qltb x stop) eqn:E;
    try (exists retlist; split; [reflexivity | lia]).
  - apply Qltb_lt in E. change (inject_Z (Z.of_nat 0)) with 0 in Hn. lra.
  - destruct fuel as [|fuel]; [lia|]. apply Qltb_lt in E.
    pose proof (Hadv x Hx E) as Hstep.
    destruct (IH (fl (x + step)) (retlist ++ [x])) with (fuel := fuel)
      as [out [Hout Hlen]].
    + lra.
    + rewrite Nat2Z.inj_succ, <- Z.add_1_r, inject_Z_plus in Hn.
      change (inject_Z 1) with 1 in Hn. lra.
    + lia.
    + exists out. split; [exact Hout|].
      rewrite length_app in Hlen. simpl in Hlen. lia.
Qed.

(** X21: in double arithmetic, what [unitrange] returns for three
    quantities of one dimension is a run of the running sums [start],
    [start + step], [(start + step) + step], ..., each sum rounded before
    the next step is added: all values returned are below [stop], and the
    running sum after the last of them is not.  When every rounded sum
    advances by at least [g > 0], the call returns (enough passes of the
    loop give the result), with at most [ceil((stop - start) / g)]
    values. *)
Theorem unitrange_rounded_values (a b c : Q) (d : dimension) :
  (forall fuel retlist,
      Rounded.unitrange fl fuel (Quantity a d) (Quantity b d) (Quantity c d)
      = Ok retlist ->
      exists n,
        retlist = map (fun v => Quantity v d) (Rounded.progression fl a c n)
        /\ Forall (fun v => v < b) (Rounded.progression fl a c n)
        /\ b <= nth n (Rounded.progression fl a c (S n)) 0)
  /\ (forall g,
        0 < g ->
        (forall x, a <= x -> x < b -> x + g <= fl (x + c)) ->
        forall fuel, (Z.to_nat (Qceiling ((b - a) / g)) <= fuel)%nat ->
          exists retlist,
            Rounded.unitrange fl fuel (Quantity a d) (Quantity b d)
                              (Quantity c d)
            = Ok retlist
            /\ (length retlist <= Z.to_nat (Qceiling ((b - a) / g)))%nat).
Proof.
  assert (Hdim : has_same_dimensions d d = true).
  { unfold has_same_dimensions. destruct (list_eq_dec Z.eq_dec d d); congruence. }
  split.
  - intros fuel retlist H. unfold Rounded.unitrange in H.
    rewrite Hdim in H. cbn [negb orb] in H.
    destruct (Rounded.unitrange_loop fl fuel a b c []) as [out| | |] eqn:E;
      try discriminate.
    cbn [rbind] in H. inversion H; subst.
    destruct (rounded_unitrange_loop_ok _ _ _ _ _ _ E) as [n [-> [Hall Hnext]]].
    exists n. cbn [app]. auto.
  - intros g Hg Hadv fuel Hfuel.
    destruct (rounded_unitrange_loop_returns a b c g Hg Hadv
                (Z.to_nat (Qceiling ((b - a) / g))) a [])
      with (fuel := fuel) as [out [Hout Hlen]].
    + lra.
    + pose proof (ceiling_steps (b - a) g Hg). lra.
    + exact Hfuel.
    + exists (map (fun v => Quantity v d) out). split.
      * unfold Rounded.unitrange. rewrite Hdim. cbn [negb orb].
        now rewrite Hout.
      * rewrite length_map. simpl in Hlen. exact Hlen.
Qed.

End RoundedUnitrange.

(** [unitrange(0, 1, 0.1)] returns 11 values, not 10: the tenth running sum
    of 0.1 is the double below 1. *)
Lemma unitrange_rounded_values_witness :
  exists retlist,
    Rounded.unitrange round_binary64 20
                      (Quantity 0 [0%Z; 0%Z; 1%Z])
                      (Quantity 1 [0%Z; 0%Z; 1%Z])
                      (Quantity (round_binary64 (1 # 10)) [0%Z; 0%Z; 1%Z])
    = Ok retlist
    /\ length retlist = 11%nat.
Proof.
  destruct (proj2 (unitrange_rounded_values
                     round_binary64 0 1 (round_binary64 (1 # 10))
                     [0%Z; 0%Z; 1%Z])
                  (1 # 20))
    with (fuel := 20%nat) as [retlist [Hcall _]].
  - reflexivity.
  - intros x Hpos Hx.
    apply (round_binary64_advance x _ _ 0); try lra; try lia.
    + vm_compute. reflexivity.
    + assert (H : round_binary64 (1 # 10) < 1) by (vm_compute; reflexivity).
      change (2 ^ (0 + 1)) with 2. lra.
    + unfold Qle. vm_compute. discriminate.
  - vm_compute. lia.
  - exists retlist. split; [exact Hcall|].
    vm_compute in Hcall. inversion Hcall. reflexivity.
Defined.

(** ** Container shapes *)




(** ** The spike-triggered average in rounded arithmetic *)

Section RoundedSTA.

Variable fl : Q -> Q.
Variable mean : list Q -> Q.
Variable std : list Q -> Q.

Hypothesis Hfl : rounding fl.

Lemma rounded_sta_fill_rows (v : list Q) (dt : Q) (w_d : Z) (spikes : list Q) :
  (0 <= w_d)%Z ->
  Forall (fun t => (0 <= py_int (fl (t / dt)) <= Z.of_nat (length v))%Z)
         spikes ->
  forall (i : nat) (wins : list (list Q)),
    length wins = (i + length spikes)%nat ->
    Forall (fun row => length row = Z.to_nat w_d) wins ->
    exists wins',
      Rounded.sta_fill fl v dt w_d spikes i wins = Ok wins'
      /\ length wins' = length wins
      /\ (forall k, (k < i)%nat -> nth k wins' [] = nth k wins [])
      /\ (forall k, (k < length spikes)%nat ->
            nth (i + k) wins' []
            = sta_window v w_d (py_int (fl (nth k spikes 0 / dt)))).
Proof.
  intros Hw Hall.
  induction Hall as [|st rest Hst Hrest IH]; intros i wins Hlen Hrows.
  - exists wins. cbn [Rounded.sta_fill]. repeat split; auto.
    simpl. intros; lia.
  - cbn [length] in Hlen.
    destruct (sta_window_spec v w_d _ Hw Hst) as [Hwl _].
    assert (Hrow : length (nth i wins []) = Z.to_nat w_d).
    { rewrite Forall_forall in Hrows. apply Hrows, nth_In. lia. }
    assert (Hassign :
              (if (w_d <? py_int (fl (st / dt)))%Z
               then assign_row wins i
                      (slice v (py_int (fl (st / dt)) - w_d)
                             (py_int (fl (st / dt))))
               else let* pad := zeros (w_d - py_int (fl (st / dt))) in
                    assign_row wins i
                               (pad ++ slice v 0 (py_int (fl (st / dt)))))
              = Ok (set_nth i (sta_window v w_d (py_int (fl (st / dt)))) wins)).
    { unfold sta_window in *.
      destruct (Z.ltb_spec w_d (py_int (fl (st / dt)))).
      - unfold assign_row. rewrite Hrow, Hwl, Nat.eqb_refl. reflexivity.
      - unfold zeros.
        destruct (Z.ltb_spec (w_d - py_int (fl (st / dt))) 0); [lia|].
        cbn [rbind]. unfold assign_row.
        rewrite Hrow, Hwl, Nat.eqb_refl. reflexivity. }
    destruct (IH (S i)
                 (set_nth i (sta_window v w_d (py_int (fl (st / dt)))) wins))
      as [wins' [Hfill [Hlen' [Hbefore Hafter]]]].
    { rewrite set_nth_length. lia. }
    { apply Forall_forall. intros row Hin.
      apply (In_nth _ _ []) in Hin. destruct Hin as [k [Hk <-]].
      rewrite set_nth_length in Hk. rewrite nth_set_nth by lia.
      destruct (k =? i)%nat; [exact Hwl|].
      rewrite Forall_forall in Hrows. now apply Hrows, nth_In. }
    exists wins'. rewrite set_nth_length in Hlen'.
    split; [|split; [exact Hlen'|split]].
    + cbn [Rounded.sta_fill]. cbv zeta. rewrite Hassign. cbn [rbind].
      exact Hfill.
    + intros k Hk. rewrite Hbefore by lia. rewrite nth_set_nth by lia.
      destruct (Nat.eqb_spec k i); [lia | reflexivity].
    + intros [|k] Hk.
      * rewrite Nat.add_0_r. rewrite Hbefore by lia.
        rewrite nth_set_nth by lia. now rewrite Nat.eqb_refl.
      * replace (i + S k)%nat with (S i + k)%nat by lia.
        cbn [nth]. apply Hafter. simpl in Hk. lia.
Qed.

(** C8 (as amended): in double arithmetic, for a step dt > 0, a window
    w >= 0 and a train of at least 2 non-negative spike times whose grid
    indices [int(t/dt)] lie within the trace, [sta] returns a window matrix
    with one row of [w_d = int(w/dt)] samples per spike.  The row of a
    spike at grid index [t_d] holds the [w_d] samples before index [t_d]
    when there are that many, and otherwise zeros on the left followed by
    the [t_d] samples there are; no spike is dropped. *)
Theorem sta_windows (v st : list Q) (w dt : Q) :
  (2 <= length st)%nat ->
  0 < dt -> 0 <= w ->
  Forall (fun t => 0 <= t) st ->
  Forall (fun t => (py_int (fl (t / dt)) <= Z.of_nat (length v))%Z) st ->
  exists sta_avg sta_std sta_wins,
    Rounded.sta fl mean std v st w dt = Ok (sta_avg, sta_std, sta_wins)
    /\ length sta_wins = length st
    /\ forall i, (i < length st)%nat ->
         let w_d := py_int (fl (w / dt)) in
         let t_d := py_int (fl (nth i st 0 / dt)) in
         let row := nth i sta_wins [] in
         length row = Z.to_nat w_d
         /\ ((w_d <= t_d)%Z ->
             row = firstn (Z.to_nat w_d) (skipn (Z.to_nat (t_d - w_d)) v))
         /\ ((t_d < w_d)%Z ->
             row = repeat 0 (Z.to_nat (w_d - t_d)) ++ firstn (Z.to_nat t_d) v).
Proof.
  intros Hlen Hdt Hw Hpos Hin.
  assert (Hwd : (0 <= py_int (fl (w / dt)))%Z).
  { apply py_int_nonneg, (rounding_nonneg fl _ Hfl). now apply Qdiv_nonneg. }
  assert (Hidx : Forall (fun t => (0 <= py_int (fl (t / dt))
                                   <= Z.of_nat (length v))%Z) st).
  { rewrite Forall_forall in *. intros t Ht. split.
    - apply py_int_nonneg, (rounding_nonneg fl _ Hfl).
      apply Qdiv_nonneg; auto.
    - now apply Hin. }
  destruct (rounded_sta_fill_rows v dt (py_int (fl (w / dt))) st Hwd Hidx O
              (repeat (repeat 0 (Z.to_nat (py_int (fl (w / dt))))) (length st)))
    as [wins [Hfill [Hlen' [_ Hrows]]]].
  { now rewrite repeat_length. }
  { apply Forall_forall. intros row Hrow. apply repeat_spec in Hrow.
    subst row. apply repeat_length. }
  rewrite repeat_length in Hlen'.
  eexists. eexists. exists wins. split; [|split].
  - unfold Rounded.sta.
    replace (length st <=? 1)%nat with false
      by (symmetry; apply Nat.leb_gt; lia).
    rewrite (Qeq_bool_false_of_neq dt 0) by lra.
    unfold zeros2, zeros.
    destruct (Z.ltb_spec (py_int (fl (w / dt))) 0); [lia|].
    cbn [rbind]. rewrite Hfill. cbn [rbind]. reflexivity.
  - exact Hlen'.
  - intros i Hi. cbv zeta.
    specialize (Hrows i Hi). cbn [Nat.add] in Hrows. rewrite Hrows.
    apply sta_window_spec; [exact Hwd|].
    rewrite Forall_forall in Hidx. apply Hidx, nth_In, Hi.
Qed.

End RoundedSTA.

Lemma sta_windows_witness :
  exists sta_avg sta_std sta_wins,
    Rounded.sta round_binary64 (fun _ => 0) (fun _ => 0)
                [10; 11; 12; 13; 14; 15; 16; 17]
                [round_binary64 (1 # 1000); round_binary64 (3 # 1000);
                 round_binary64 (5 # 1000)]
                (round_binary64 (2 # 1000)) (round_binary64 (1 # 1000))
    = Ok (sta_avg, sta_std, sta_wins)
    /\ length sta_wins = 3%nat.
Proof.
  destruct (sta_windows round_binary64 (fun _ => 0) (fun _ => 0)
                        round_binary64_rounding
                        [10; 11; 12; 13; 14; 15; 16; 17]
                        [round_binary64 (1 # 1000); round_binary64 (3 # 1000);
                         round_binary64 (5 # 1000)]
                        (round_binary64 (2 # 1000)) (round_binary64 (1 # 1000)))
    as [sta_avg [sta_std [sta_wins [Hcall [Hlen _]]]]].
  - simpl. lia.
  - vm_compute. reflexivity.
  - unfold Qle. vm_compute. discriminate.
  - repeat constructor; unfold Qle; vm_compute; discriminate.
  - repeat constructor; vm_compute; discriminate.
  - exists sta_avg, sta_std, sta_wins. split; assumption.
Defined.

(** C8 as stated fails: [sta] does not hold for every trace and every
    train.  A spike whose grid index lies beyond the end of the trace has a
    window that the trace cannot fill, and the call raises [ValueError]
    instead of returning a matrix: here a trace of 8 samples with spikes
    at grid indices 2 and 12 and a window of 3 samples. *)
Lemma sta_spike_outside_trace :
  (2 <= length [round_binary64 (2 # 1000); round_binary64 (12 # 1000)])%nat
  /\ Rounded.sta round_binary64 (fun _ => 0) (fun _ => 0)
                 [0; 1; 2; 3; 4; 5; 6; 7]
                 [round_binary64 (2 # 1000); round_binary64 (12 # 1000)]
                 (round_binary64 (3 # 1000)) (round_binary64 (1 # 1000))
     = Raise ValueError.
Proof.
  split; [simpl; lia | vm_compute; reflexivity].
Qed.
